(** * Commute Check: the projection and rendering pipeline of contentScript.js

    A shallow embedding of the content script of the extension
    (MapAdapter, projectAll, the pixel-resolution and scale-factor steps of
    render, showWalkRadius and scheduleRender) together with the properties
    its specification states about them; then of what these rest on: the
    points render gathers, esc, the settings listener, getAll, and the
    polling and the answers of the page script, with the properties the code
    itself shows.

    Conventions of the embedding.
    - A JavaScript Number that carries a coordinate is modelled twice.
      [JSNumber.number] keeps the IEEE special values NaN, +Infinity and
      -Infinity and takes a finite double for a real number with exact
      arithmetic (no rounding, no overflow, no signed zero: a zero divisor
      behaves as +0); it serves the statements that turn on the special
      values, on guards and on control flow only. [Binary64] is projectAll
      on binary64 itself, the primitive floats with their IEEE
      specification, rounding, overflow and signed zeros included; it serves
      the statements about the values projectAll computes. [Math.log] and
      [Math.tan], whose results the language leaves to the implementation,
      are parameters there.
    - Request identifiers and millisecond clocks hold integers far below
      2^53, the range on which the arithmetic of doubles is exact; they are
      [N] and [Z].
    - Module-level mutable state (the MapAdapter object, the overlay, the
      scheduler variables) is an explicit record threaded through the
      functions that read or write it; an async function that can be
      suspended while others run (getAll) is split at its await. *)

From Stdlib Require Import Reals Lra Lia ZArith List String Ascii Floats.
From stdpp Require Import gmap strings.
Import ListNotations.

(** ** JavaScript numbers *)

Module JSNumber.

Local Open Scope R_scope.

Inductive number : Type :=
  | NaN
  | PosInf
  | NegInf
  | Fin (r : R).

Definition is_finite (a : number) : bool :=
  match a with Fin _ => true | _ => false end.

(** [Number.isNaN]. *)
Definition isNaN (a : number) : bool :=
  match a with NaN => true | _ => false end.

Definition neg (a : number) : number :=
  match a with
  | NaN => NaN
  | PosInf => NegInf
  | NegInf => PosInf
  | Fin r => Fin (- r)
  end.

Definition add (a b : number) : number :=
  match a, b with
  | NaN, _ | _, NaN => NaN
  | PosInf, NegInf | NegInf, PosInf => NaN
  | PosInf, _ | _, PosInf => PosInf
  | NegInf, _ | _, NegInf => NegInf
  | Fin r, Fin s => Fin (r + s)
  end.

Definition sub (a b : number) : number := add a (neg b).

(** The infinity whose sign is that of the real [r] (zero counts as +0). *)
Definition inf_of_sign (r : R) : number :=
  if Rlt_dec r 0 then NegInf else PosInf.

Definition mul (a b : number) : number :=
  match a, b with
  | NaN, _ | _, NaN => NaN
  | PosInf, PosInf | NegInf, NegInf => PosInf
  | PosInf, NegInf | NegInf, PosInf => NegInf
  | PosInf, Fin r | Fin r, PosInf =>
      if Req_dec_T r 0 then NaN else inf_of_sign r
  | NegInf, Fin r | Fin r, NegInf =>
      if Req_dec_T r 0 then NaN else inf_of_sign (- r)
  | Fin r, Fin s => Fin (r * s)
  end.

Definition div (a b : number) : number :=
  match a, b with
  | NaN, _ | _, NaN => NaN
  | (PosInf | NegInf), (PosInf | NegInf) => NaN
  | PosInf, Fin s => inf_of_sign s
  | NegInf, Fin s => inf_of_sign (- s)
  | Fin _, (PosInf | NegInf) => Fin 0
  | Fin r, Fin s =>
      if Req_dec_T s 0
      then (if Req_dec_T r 0 then NaN else inf_of_sign r)
      else Fin (r / s)
  end.

(** The relational operators [<], [>], [<=] and [===] on numbers: every
    comparison with NaN is false. *)
Definition lt (a b : number) : bool :=
  match a, b with
  | NaN, _ | _, NaN => false
  | _, NegInf | PosInf, _ => false
  | NegInf, _ | _, PosInf => true
  | Fin r, Fin s => if Rlt_dec r s then true else false
  end.

Definition gt (a b : number) : bool := lt b a.

Definition le (a b : number) : bool :=
  match a, b with
  | NaN, _ | _, NaN => false
  | NegInf, _ | _, PosInf => true
  | _, NegInf | PosInf, _ => false
  | Fin r, Fin s => if Rle_dec r s then true else false
  end.

Definition strict_eq (a b : number) : bool :=
  match a, b with
  | PosInf, PosInf | NegInf, NegInf => true
  | Fin r, Fin s => if Req_dec_T r s then true else false
  | _, _ => false
  end.

(** [Math.abs], [Math.log], [Math.tan], [Math.cos] and [Math.PI]. A double is
    never an odd multiple of π/2, so the code never evaluates the tangent at
    a pole; nothing below depends on the value [Math_tan] takes there. *)
Definition Math_abs (a : number) : number :=
  match a with
  | NaN => NaN
  | PosInf | NegInf => PosInf
  | Fin r => Fin (Rabs r)
  end.

Definition Math_log (a : number) : number :=
  match a with
  | NaN | NegInf => NaN
  | PosInf => PosInf
  | Fin r =>
      if Rlt_dec r 0 then NaN
      else if Req_dec_T r 0 then NegInf
      else Fin (ln r)
  end.

Definition Math_tan (a : number) : number :=
  match a with
  | Fin r => Fin (tan r)
  | _ => NaN
  end.

Definition Math_cos (a : number) : number :=
  match a with
  | Fin r => Fin (cos r)
  | _ => NaN
  end.

Definition Math_PI : number := Fin PI.

End JSNumber.

(** ** Geometry Projector (projectAll) *)

Module Projector.
Import JSNumber.
Local Open Scope R_scope.

Record GeoPoint : Type := { lat : number; lng : number }.

Record Bounds : Type :=
  { north : number; south : number; east : number; west : number }.

Record Rect : Type :=
  { top : number; left : number; width : number; height : number }.

Record Viewport : Type := { bounds : Bounds; containerRect : Rect }.

Record ProjectedPoint : Type := { x : number; y : number }.

(** [lat => Math.log(Math.tan(Math.PI/4 + (lat*Math.PI/180)/2))] *)
Definition mercY (lat : number) : number :=
  Math_log (Math_tan
    (add (div Math_PI (Fin 4))
         (div (div (mul lat Math_PI) (Fin 180)) (Fin 2)))).

Definition projectAll (points : list GeoPoint) (vp : Viewport)
  : list ProjectedPoint :=
  let b := bounds vp in
  let r := containerRect vp in
  let W := width r in
  let H := height r in
  let yN := mercY (north b) in
  let yS := mercY (south b) in
  map (fun p =>
         {| x := mul (div (sub (lng p) (west b)) (sub (east b) (west b))) W;
            y := mul (div (sub yN (mercY (lat p))) (sub yN yS)) H |})
      points.

(** A viewport and a point with finite fields. *)
Definition viewportOf (n s e w t l W H : R) : Viewport :=
  {| bounds := {| north := Fin n; south := Fin s; east := Fin e; west := Fin w |};
     containerRect := {| top := Fin t; left := Fin l; width := Fin W; height := Fin H |} |}.

Definition geo (la lo : R) : GeoPoint := {| lat := Fin la; lng := Fin lo |}.

Definition pixel (px py : R) : ProjectedPoint := {| x := Fin px; y := Fin py |}.

End Projector.

(** ** Geometry Projector on binary64 *)

(** projectAll once more, on the doubles themselves: a Number is a primitive
    float, and [+], [-], [*], [/] and the comparisons are those of IEEE 754
    binary64 with rounding to nearest, ties to even, as the language defines
    them. There is one NaN, as for a script, which cannot tell two NaNs
    apart. *)

Module Binary64.
Local Open Scope float_scope.

Record GeoPoint : Type := { lat : float; lng : float }.

Record Bounds : Type :=
  { north : float; south : float; east : float; west : float }.

Record Rect : Type := { top : float; left : float; width : float; height : float }.

Record Viewport : Type := { bounds : Bounds; containerRect : Rect }.

Record ProjectedPoint : Type := { x : float; y : float }.

(** [Math.PI]: the double nearest to pi. *)
Definition Math_PI : float := 0x1.921fb54442d18p+1.

Section Projector.

(** [Math.log] and [Math.tan]: the language leaves their results to the
    implementation, so they are parameters here. *)
Variables Math_log Math_tan : float -> float.

(** [lat => Math.log(Math.tan(Math.PI/4 + (lat*Math.PI/180)/2))] *)
Definition mercY (lat : float) : float :=
  Math_log (Math_tan (Math_PI / 4 + (lat * Math_PI / 180) / 2)).

Definition projectAll (points : list GeoPoint) (vp : Viewport)
  : list ProjectedPoint :=
  let b := bounds vp in
  let r := containerRect vp in
  let W := width r in
  let H := height r in
  let yN := mercY (north b) in
  let yS := mercY (south b) in
  map (fun p =>
         {| x := ((lng p - west b) / (east b - west b)) * W;
            y := ((yN - mercY (lat p)) / (yN - yS)) * H |})
      points.

End Projector.

End Binary64.

(** ** Viewport Bridge (MapAdapter) *)

Module Bridge.
Import JSNumber Projector.

(** What the host answers for a batch of points: one entry per point, null
    where the host's projector threw. *)
Abbreviation Projection := (list (option ProjectedPoint)) (only parsing).

(** The value a promise of [project] is resolved with: the points payload of
    a response, or null. *)
Abbreviation Resolution := (option Projection) (only parsing).

(** The messages on the window, by their [type]. [payload] of a viewport
    message may be anything, also null. A type with no case in the switch of
    handleMessage is [DAFT_TRANSIT_OTHER]; the two requests the adapter posts
    itself are delivered to its own listener too. *)
Inductive message : Type :=
  | DAFT_TRANSIT_MAP_FOUND
  | DAFT_TRANSIT_MAP_NOT_FOUND
  | DAFT_TRANSIT_MAP_VIEWPORT (payload : option Viewport)
  | DAFT_TRANSIT_PROJECT_RESPONSE (id : N) (points : Projection)
  | DAFT_TRANSIT_PROJECT_REQUEST (id : N) (points : list GeoPoint)
  | DAFT_TRANSIT_GET_VIEWPORT
  | DAFT_TRANSIT_OTHER (type : string).

(** The page as the adapter reads it: DOM nodes are handles, [querySelectorMap]
    is the result of
    [document.querySelector('.maplibregl-map') || document.querySelector('.mapboxgl-map')],
    and [searchParam k] is [parseFloat(u.searchParams.get(k))] for the URL of
    the page (NaN when the parameter is absent or not numeric). *)
Abbreviation Node := N (only parsing).

Record Page : Type :=
  { querySelectorMap : option Node;
    getBoundingClientRect : Node -> Rect;
    searchParam : string -> number }.

(** The resolve function of the promise made by the call that drew a request
    identifier is named by that identifier. *)
Abbreviation Resolver := N (only parsing).

Record MapAdapter : Type :=
  { container : option Node;
    found : bool;
    instanceAvailable : bool;
    viewport : option Viewport;
    _pendingProjections : gmap N Resolver;
    _projIdCounter : N }.

Definition initialAdapter : MapAdapter :=
  {| container := None; found := false; instanceAvailable := false;
     viewport := None; _pendingProjections := ∅; _projIdCounter := 0%N |}.

Definition detect (pg : Page) (a : MapAdapter) : MapAdapter :=
  let c := querySelectorMap pg in
  {| container := c;
     found := match c with Some _ => true | None => found a end;
     instanceAvailable := instanceAvailable a;
     viewport := viewport a;
     _pendingProjections := _pendingProjections a;
     _projIdCounter := _projIdCounter a |}.

Definition _viewportFromURL (pg : Page) (a : MapAdapter) : option Viewport :=
  let n := searchParam pg "top" in
  let s := searchParam pg "bottom" in
  let w := searchParam pg "left" in
  let e := searchParam pg "right" in
  if existsb isNaN [n; s; w; e] then None
  else
    match container a with
    | None => None
    | Some c =>
        let r := getBoundingClientRect pg c in
        if strict_eq (width r) (Fin 0) then None
        else Some {| bounds := {| north := n; south := s; east := e; west := w |};
                     containerRect := {| top := top r; left := left r;
                                         width := width r; height := height r |} |}
    end.

Definition getViewport (pg : Page) (a : MapAdapter) : option Viewport :=
  match viewport a with
  | Some v => Some v
  | None => _viewportFromURL pg a
  end.

(** Promises, timers and posted messages around the adapter. *)
Inductive promise_state : Type :=
  | Pending
  | Fulfilled (v : Resolution)
  | Rejected.

Record World : Type :=
  { adapter : MapAdapter;
    clock : N;                            (* milliseconds *)
    timers : gmap N N;                    (* request id -> earliest firing time
                                             of its setTimeout callback *)
    promises : gmap N promise_state;      (* the promises returned by project *)
    resolveCalls : list (N * Resolution); (* calls of resolve functions, latest first *)
    posted : list message }.              (* window.postMessage, latest first *)

Definition initialWorld : World :=
  {| adapter := initialAdapter; clock := 0%N; timers := ∅; promises := ∅;
     resolveCalls := []; posted := [] |}.

(** Calling the resolve function of promise [p]: a settled promise ignores it. *)
Definition settle (p : N) (v : Resolution) (ps : gmap N promise_state)
  : gmap N promise_state :=
  match ps !! p with
  | Some Pending => <[p := Fulfilled v]> ps
  | _ => ps
  end.

Definition with_pending (a : MapAdapter) (m : gmap N Resolver) : MapAdapter :=
  {| container := container a; found := found a;
     instanceAvailable := instanceAvailable a; viewport := viewport a;
     _pendingProjections := m; _projIdCounter := _projIdCounter a |}.

(** [project(points)]: the identifier drawn and the world after the executor
    of the promise has run. *)
Definition project (points : list GeoPoint) (w : World) : N * World :=
  let a := adapter w in
  let id := N.succ (_projIdCounter a) in
  (id,
   {| adapter :=
        {| container := container a; found := found a;
           instanceAvailable := instanceAvailable a; viewport := viewport a;
           _pendingProjections := <[id := id]> (_pendingProjections a);
           _projIdCounter := id |};
      clock := clock w;
      timers := <[id := (clock w + 1000)%N]> (timers w);
      promises := <[id := Pending]> (promises w);
      resolveCalls := resolveCalls w;
      posted := DAFT_TRANSIT_PROJECT_REQUEST id points :: posted w |}).

(** The callback given to setTimeout by the call that drew [id]. *)
Definition onTimeout (id : N) (w : World) : World :=
  let a := adapter w in
  match _pendingProjections a !! id with
  | Some resolve =>
      {| adapter := with_pending a (delete id (_pendingProjections a));
         clock := clock w; timers := timers w;
         promises := settle resolve None (promises w);
         resolveCalls := (resolve, None) :: resolveCalls w;
         posted := posted w |}
  | None => w
  end.

Definition with_adapter (w : World) (a : MapAdapter) : World :=
  {| adapter := a; clock := clock w; timers := timers w;
     promises := promises w; resolveCalls := resolveCalls w;
     posted := posted w |}.

Definition handleMessage (pg : Page) (data : message) (w : World) : World :=
  let a := adapter w in
  match data with
  | DAFT_TRANSIT_MAP_FOUND =>
      with_adapter w
        (detect pg {| container := container a; found := true;
                      instanceAvailable := true; viewport := viewport a;
                      _pendingProjections := _pendingProjections a;
                      _projIdCounter := _projIdCounter a |})
  | DAFT_TRANSIT_MAP_NOT_FOUND =>
      with_adapter w
        (detect pg {| container := container a; found := found a;
                      instanceAvailable := false; viewport := viewport a;
                      _pendingProjections := _pendingProjections a;
                      _projIdCounter := _projIdCounter a |})
  | DAFT_TRANSIT_MAP_VIEWPORT payload =>
      with_adapter w
        {| container := container a; found := found a;
           instanceAvailable := instanceAvailable a; viewport := payload;
           _pendingProjections := _pendingProjections a;
           _projIdCounter := _projIdCounter a |}
  | DAFT_TRANSIT_PROJECT_RESPONSE id points =>
      match _pendingProjections a !! id with
      | Some cb =>
          {| adapter := with_pending a (delete id (_pendingProjections a));
             clock := clock w; timers := timers w;
             promises := settle cb (Some points) (promises w);
             resolveCalls := (cb, Some points) :: resolveCalls w;
             posted := posted w |}
      | None => w
      end
  | _ => w
  end.

(** What happens around the adapter, one event at a time: a call of project,
    a message handled, the timeout callback of a request running (at most
    once, and not before its delay has passed), time passing. *)
Inductive event : Type :=
  | EvProject (points : list GeoPoint)
  | EvMessage (pg : Page) (data : message)
  | EvTimeout (id : N)
  | EvAdvance (d : N).

Definition step (ev : event) (w : World) : option World :=
  match ev with
  | EvProject points => Some (snd (project points w))
  | EvMessage pg data => Some (handleMessage pg data w)
  | EvTimeout id =>
      match timers w !! id with
      | Some due =>
          if (due <=? clock w)%N
          then
            let w' := onTimeout id w in
            Some {| adapter := adapter w'; clock := clock w';
                    timers := delete id (timers w'); promises := promises w';
                    resolveCalls := resolveCalls w'; posted := posted w' |}
          else None
      | None => None
      end
  | EvAdvance d =>
      Some {| adapter := adapter w; clock := (clock w + d)%N;
              timers := timers w; promises := promises w;
              resolveCalls := resolveCalls w; posted := posted w |}
  end.

Fixpoint run (evs : list event) (w : World) : option World :=
  match evs with
  | [] => Some w
  | ev :: rest =>
      match step ev w with
      | Some w' => run rest w'
      | None => None
      end
  end.

(** The values with which the resolve function of promise [p] was called,
    latest first. *)
Definition callsFor (p : N) (w : World) : list Resolution :=
  map snd (List.filter (fun c => N.eqb (fst c) p) (resolveCalls w)).

End Bridge.

(** ** Overlay Renderer: pixel resolution, scale factor, walking radius *)

Module Renderer.
Import JSNumber Projector Bridge.

(** *** render, from "Project" to "Build SVG" *)

(** Lines 264-268: the host's projection, kept only when the adapter has a
    map instance and at least one entry of the answer is not null. [awaited]
    is the value that [await MapAdapter.project(pts)] yields. *)
Definition hostProjected (a : MapAdapter) (awaited : Resolution) : Resolution :=
  if instanceAvailable a
  then match awaited with
       | Some projected =>
           if negb (existsb (fun p => match p with Some _ => true | None => false end)
                            projected)
           then None
           else Some projected
       | None => None
       end
  else None.

(** Lines 269-273: [None] is the [return] of line 271. *)
Definition resolveProjected (pg : Page) (a : MapAdapter) (projected : Resolution)
    (pts : list GeoPoint) : option Projection :=
  match projected with
  | Some p => Some p
  | None =>
      match getViewport pg a with
      | None => None
      | Some vp => Some (map Some (projectAll pts vp))
      end
  end.

(** A statement that may throw. *)
Inductive completion (A : Type) : Type :=
  | Normal (a : A)
  | Throw.
Arguments Normal {A} a.
Arguments Throw {A}.

(** Lines 276-291: the new value of [_pxPerMeter]. Reading [.x] of a null
    entry of [projected] throws. *)
Definition updatePxPerMeter (vp2 : option Viewport) (pts : list GeoPoint)
    (projected : Projection) (_pxPerMeter : number) : completion number :=
  match vp2 with
  | Some vp2 =>
      let degLngSpan := sub (east (bounds vp2)) (west (bounds vp2)) in
      let midLat := div (add (north (bounds vp2)) (south (bounds vp2))) (Fin 2) in
      let metersPerDegLng :=
        mul (Fin 111320) (Math_cos (div (mul midLat Math_PI) (Fin 180))) in
      Normal (div (width (containerRect vp2)) (mul degLngSpan metersPerDegLng))
  | None =>
      match projected, pts with
      | q0 :: q1 :: _, p0 :: p1 :: _ =>
          let dLng := Math_abs (sub (lng p1) (lng p0)) in
          match q1, q0 with
          | Some q1, Some q0 =>
              let dPx := Math_abs (sub (x q1) (x q0)) in
              if gt dLng (Fin 0) && gt dPx (Fin 0)
              then
                let midLat := div (add (lat p0) (lat p1)) (Fin 2) in
                let metersPerDegLng :=
                  mul (Fin 111320) (Math_cos (div (mul midLat Math_PI) (Fin 180))) in
                Normal (div dPx (mul dLng metersPerDegLng))
              else Normal _pxPerMeter
          | _, _ => Throw
          end
      | _, _ => Normal _pxPerMeter
      end
  end.

(** How render leaves the step: it returned at line 271 with nothing drawn
    and nothing assigned, it threw, or control reaches "Build SVG" with the
    pixel positions to draw and the scale factor stored in [_pxPerMeter]. *)
Inductive RenderStep : Type :=
  | Returned
  | Threw
  | Draws (projected : Projection) (pxPerMeter : number).

(** [a] is the adapter when line 265 runs and [a'] the adapter when render
    resumes after the await (the same adapter when nothing was awaited). *)
Definition renderProject (pg : Page) (a a' : MapAdapter) (awaited : Resolution)
    (pts : list GeoPoint) (_pxPerMeter : number) : RenderStep :=
  match resolveProjected pg a' (hostProjected a awaited) pts with
  | None => Returned
  | Some projected =>
      match updatePxPerMeter (getViewport pg a') pts projected _pxPerMeter with
      | Normal s => Draws projected s
      | Throw => Threw
      end
  end.

(** *** The overlay as a tree of elements *)

(** An attribute set from a number holds its decimal string; reading it back
    with unary plus gives the number again. *)
Inductive AttrValue : Type :=
  | AttrNum (n : number)
  | AttrStr (s : string).

#[local] Unset Elimination Schemes.
Inductive Element : Type :=
  | Elem (tag : string) (id : string) (attrs : list (string * AttrValue))
         (textContent : string) (children : list Element).
#[local] Set Elimination Schemes.

Definition tagName (e : Element) : string :=
  match e with Elem t _ _ _ _ => t end.
Definition elemId (e : Element) : string :=
  match e with Elem _ i _ _ _ => i end.
Definition attributes (e : Element) : list (string * AttrValue) :=
  match e with Elem _ _ a _ _ => a end.
Definition childNodes (e : Element) : list Element :=
  match e with Elem _ _ _ _ c => c end.

Definition createElementNS (tag : string) : Element := Elem tag "" [] "" [].

Fixpoint setAttr (k : string) (v : AttrValue) (l : list (string * AttrValue))
  : list (string * AttrValue) :=
  match l with
  | [] => [(k, v)]
  | (k', v') :: r =>
      if String.eqb k' k then (k, v) :: r else (k', v') :: setAttr k v r
  end.

Definition setAttribute (k : string) (v : AttrValue) (e : Element) : Element :=
  match e with Elem t i a tx c => Elem t i (setAttr k v a) tx c end.

Fixpoint getAttr (k : string) (l : list (string * AttrValue)) : option AttrValue :=
  match l with
  | [] => None
  | (k', v) :: r => if String.eqb k' k then Some v else getAttr k r
  end.

Definition getAttribute (k : string) (e : Element) : option AttrValue :=
  getAttr k (attributes e).

(** Unary plus on the result of getAttribute: null is 0, a string that is
    not numeric is NaN. *)
Definition toNumber (v : option AttrValue) : number :=
  match v with
  | None => Fin 0
  | Some (AttrNum n) => n
  | Some (AttrStr _) => NaN
  end.

Definition setId (i : string) (e : Element) : Element :=
  match e with Elem t _ a tx c => Elem t i a tx c end.
Definition setTextContent (s : string) (e : Element) : Element :=
  match e with Elem t i a _ c => Elem t i a s c end.
Definition appendChild (c : Element) (e : Element) : Element :=
  match e with Elem t i a tx cs => Elem t i a tx (cs ++ [c]) end.
(** [e.insertBefore(c, e.firstChild)] *)
Definition insertFirst (c : Element) (e : Element) : Element :=
  match e with Elem t i a tx cs => Elem t i a tx (c :: cs) end.

(** [e.querySelector(tag)]: the first descendant with that tag, in document
    order. *)
Fixpoint querySelector (tag : string) (e : Element) : option Element :=
  match e with
  | Elem _ _ _ _ cs =>
      (fix first (l : list Element) : option Element :=
         match l with
         | [] => None
         | c :: r =>
             if String.eqb (tagName c) tag then Some c
             else match querySelector tag c with
                  | Some d => Some d
                  | None => first r
                  end
         end) cs
  end.

(** [const existing = e.getElementById(i); if (existing) existing.remove()]:
    [Some e'] when a descendant was found, the first in document order, and
    [e'] is [e] without it. *)
Fixpoint removeById (i : string) (e : Element) : option Element :=
  match e with
  | Elem t d a tx cs =>
      match
        (fix first (l : list Element) : option (list Element) :=
           match l with
           | [] => None
           | c :: r =>
               if String.eqb (elemId c) i then Some r
               else match removeById i c with
                    | Some c' => Some (c' :: r)
                    | None =>
                        match first r with
                        | Some r' => Some (c :: r')
                        | None => None
                        end
                    end
           end) cs
      with
      | Some cs' => Some (Elem t d a tx cs')
      | None => None
      end
  end.

(** *** Settings and walking radii *)

Record Settings : Type :=
  { enabled : bool;
    luasLines : bool; luasStops : bool;
    dartLines : bool; dartStations : bool;
    irishRailLines : bool; irishRailStations : bool;
    opacity : Z;
    walkRadius5 : bool; walkRadius10 : bool; walkRadius20 : bool }.

Record WalkRadius : Type :=
  { key : string; meters : number; label : string; color : string }.

Definition WALK_RADII : list WalkRadius :=
  [ {| key := "walkRadius5";  meters := Fin 360;  label := "5 min";  color := "#22c55e" |};
    {| key := "walkRadius10"; meters := Fin 720;  label := "10 min"; color := "#eab308" |};
    {| key := "walkRadius20"; meters := Fin 1440; label := "20 min"; color := "#ef4444" |} ].

(** [settings[r.key]] for the keys of WALK_RADII. *)
Definition settingOf (s : Settings) (k : string) : bool :=
  if String.eqb k "walkRadius5" then walkRadius5 s
  else if String.eqb k "walkRadius10" then walkRadius10 s
  else if String.eqb k "walkRadius20" then walkRadius20 s
  else false.

Record Overlay : Type :=
  { svgOverlay : option Element;
    _pxPerMeter : number;
    settings : Settings }.

Definition with_svg (o : Overlay) (e : Element) : Overlay :=
  {| svgOverlay := Some e; _pxPerMeter := _pxPerMeter o; settings := settings o |}.

Definition hideWalkRadius (o : Overlay) : Overlay :=
  match svgOverlay o with
  | None => o
  | Some svg =>
      match removeById "dt-walk-radii" svg with
      | Some svg' => with_svg o svg'
      | None => o
      end
  end.

(** The circle and the label appended for one entry of WALK_RADII. *)
Definition ringCircle (cx cy px : number) (r : WalkRadius) : Element :=
  setAttribute "stroke-dasharray" (AttrStr "6 4")
    (setAttribute "stroke-width" (AttrStr "1.5")
      (setAttribute "stroke-opacity" (AttrStr "0.45")
        (setAttribute "stroke" (AttrStr (color r))
          (setAttribute "fill-opacity" (AttrStr "0.10")
            (setAttribute "fill" (AttrStr (color r))
              (setAttribute "r" (AttrNum px)
                (setAttribute "cy" (AttrNum cy)
                  (setAttribute "cx" (AttrNum cx)
                    (createElementNS "circle"))))))))).

Definition ringLabel (cx cy px : number) (r : WalkRadius) : Element :=
  setTextContent (label r)
    (setAttribute "y" (AttrNum (sub (sub cy px) (Fin 5)))
      (setAttribute "x" (AttrNum cx) (createElementNS "text"))).

(** The loop [for (const r of WALK_RADII)], run over the list [radii]. *)
Fixpoint appendRings (s : Settings) (scale cx cy : number)
    (radii : list WalkRadius) (group : Element) : Element :=
  match radii with
  | [] => group
  | r :: rest =>
      if negb (settingOf s (key r)) then appendRings s scale cx cy rest group
      else
        let px := mul (meters r) scale in
        appendRings s scale cx cy rest
          (appendChild (ringLabel cx cy px r)
             (appendChild (ringCircle cx cy px r) group))
  end.

Definition showWalkRadius (g : Element) (o0 : Overlay) : completion Overlay :=
  let o := hideWalkRadius o0 in
  match svgOverlay o with
  | None => Normal o
  | Some svg =>
      if le (_pxPerMeter o) (Fin 0) then Normal o
      else
        let anyOn := existsb (fun r => settingOf (settings o) (key r)) WALK_RADII in
        if negb anyOn then Normal o
        else
          match querySelector "circle" g with
          | None => Throw
          | Some c =>
              let cx := toNumber (getAttribute "cx" c) in
              let cy := toNumber (getAttribute "cy" c) in
              let group := setId "dt-walk-radii" (createElementNS "g") in
              let group := appendRings (settings o) (_pxPerMeter o) cx cy WALK_RADII group in
              Normal (with_svg o (insertFirst group svg))
          end
  end.

(** The circles drawn for walking radii: the circle children of the element
    of the overlay whose id is dt-walk-radii. *)
Definition isCircle (e : Element) : bool := String.eqb (tagName e) "circle".

Definition ringElements (o : Overlay) : list Element :=
  match svgOverlay o with
  | None => []
  | Some svg =>
      flat_map (fun e => if String.eqb (elemId e) "dt-walk-radii"
                         then List.filter isCircle (childNodes e) else [])
               (childNodes svg)
  end.

End Renderer.

(** ** Render Scheduler (scheduleRender) *)

Module Scheduler.

(** [setTimeout] returns a positive integer, so a stored timer is truthy. *)
Record Timer : Type := { handle : positive; setAt : Z; delay : Z }.

Record State : Type :=
  { renderTimer : option positive;
    lastRender : Z;
    overlayVisible : bool;
    pendingTimers : list Timer;   (* callbacks given to setTimeout, not yet run *)
    nextHandle : positive;
    renders : list Z }.           (* times at which render was called, latest first *)

(** [now] is [Date.now()]. *)
Definition scheduleRender (now : Z) (st : State) : State :=
  match renderTimer st with
  | Some _ => st
  | None =>
      let wait := Z.max 0 (50 - (now - lastRender st)) in
      {| renderTimer := Some (nextHandle st);
         lastRender := lastRender st;
         overlayVisible := overlayVisible st;
         pendingTimers :=
           {| handle := nextHandle st; setAt := now; delay := wait |}
             :: pendingTimers st;
         nextHandle := Pos.succ (nextHandle st);
         renders := renders st |}
  end.

(** The callback of the timer, run at time [now]; [found] is
    [MapAdapter.found]. *)
Definition onRenderTimer (now : Z) (found : bool) (st : State) : State :=
  {| renderTimer := None;
     lastRender := now;
     overlayVisible := overlayVisible st;
     pendingTimers := pendingTimers st;
     nextHandle := nextHandle st;
     renders := if overlayVisible st && found then now :: renders st
                else renders st |}.

(** The timer with handle [h] fires at [now]: never before its delay has
    passed, and it is then no longer pending. *)
Definition fire (h : positive) (now : Z) (found : bool) (st : State) : option State :=
  match find (fun u => Pos.eqb (handle u) h) (pendingTimers st) with
  | Some t =>
      if (setAt t + delay t <=? now)%Z
      then
        let st' := onRenderTimer now found st in
        Some {| renderTimer := renderTimer st'; lastRender := lastRender st';
                overlayVisible := overlayVisible st';
                pendingTimers :=
                  List.filter (fun u => negb (Pos.eqb (handle u) h))
                              (pendingTimers st');
                nextHandle := nextHandle st'; renders := renders st' |}
      else None
  | None => None
  end.

End Scheduler.

(** ** Page script (pageScript.js): polling for the map, answering requests *)

Module PageScript.
Import JSNumber Projector Bridge.

(** A map object of the host page is a handle. [Host] is the page as the
    script reads it at one moment: [findMapInstance] is the result of
    findMapInstance(); [hostProject m lng lat] is [m.project([lng, lat])],
    [None] when the call throws; [hostViewport m] is the payload that
    sendViewport builds from getBounds, getCenter, getZoom and the rectangle
    of getContainer, [None] when one of these calls throws (its center and
    zoom, which the content script never reads, are left out). *)
Abbreviation MapRef := N (only parsing).

Record Host : Type :=
  { findMapInstance : option MapRef;
    hostProject : MapRef -> number -> number -> option ProjectedPoint;
    hostViewport : MapRef -> option Viewport }.

Definition MAX_POLL : N := 80.

Record PageState : Type :=
  { mapInstance : option MapRef;
    pollAttempts : N;
    pollPending : bool;          (* a setTimeout(poll, 500) has not run yet *)
    listening : list MapRef;     (* maps whose move, zoom, resize and moveend
                                    events call sendViewport *)
    outbox : list message }.     (* window.postMessage, latest first *)

Definition initialPage : PageState :=
  {| mapInstance := None; pollAttempts := 0%N; pollPending := false;
     listening := []; outbox := [] |}.

Definition post (m : message) (st : PageState) : PageState :=
  {| mapInstance := mapInstance st; pollAttempts := pollAttempts st;
     pollPending := pollPending st; listening := listening st;
     outbox := m :: outbox st |}.

Definition sendViewport (h : Host) (st : PageState) : PageState :=
  match mapInstance st with
  | None => st
  | Some m =>
      match hostViewport h m with
      | Some payload => post (DAFT_TRANSIT_MAP_VIEWPORT (Some payload)) st
      | None => st
      end
  end.

Definition projectPoint (h : Host) (st : PageState) (lat lng : number)
  : option ProjectedPoint :=
  match mapInstance st with
  | None => None
  | Some m => hostProject h m lng lat
  end.

(** The message listener of the page script. *)
Definition onPageMessage (h : Host) (data : message) (st : PageState) : PageState :=
  match data with
  | DAFT_TRANSIT_PROJECT_REQUEST id points =>
      let results := map (fun p => projectPoint h st (lat p) (lng p)) points in
      post (DAFT_TRANSIT_PROJECT_RESPONSE id results) st
  | DAFT_TRANSIT_GET_VIEWPORT => sendViewport h st
  | _ => st
  end.

Definition onMapFound (h : Host) (map : MapRef) (st : PageState) : PageState :=
  let st1 :=
    {| mapInstance := Some map; pollAttempts := pollAttempts st;
       pollPending := pollPending st; listening := listening st;
       outbox := outbox st |} in
  let st2 := sendViewport h (post DAFT_TRANSIT_MAP_FOUND st1) in
  {| mapInstance := mapInstance st2; pollAttempts := pollAttempts st2;
     pollPending := pollPending st2; listening := map :: listening st2;
     outbox := outbox st2 |}.

Definition poll (h : Host) (st : PageState) : PageState :=
  match mapInstance st with
  | Some _ => st
  | None =>
      match findMapInstance h with
      | Some map => onMapFound h map st
      | None =>
          let n := N.succ (pollAttempts st) in
          if (n <? MAX_POLL)%N
          then {| mapInstance := mapInstance st; pollAttempts := n;
                  pollPending := true; listening := listening st;
                  outbox := outbox st |}
          else post DAFT_TRANSIT_MAP_NOT_FOUND
                 {| mapInstance := mapInstance st; pollAttempts := n;
                    pollPending := pollPending st; listening := listening st;
                    outbox := outbox st |}
      end
  end.

(** The timer set by poll runs poll again. *)
Definition onPollTimer (h : Host) (st : PageState) : PageState :=
  poll h {| mapInstance := mapInstance st; pollAttempts := pollAttempts st;
            pollPending := false; listening := listening st;
            outbox := outbox st |}.

(** poll() at start, then the timers it sets for as long as it sets one;
    [hs] is the page at each successive run of poll. *)
Fixpoint pollTimers (hs : list Host) (st : PageState) : PageState :=
  match hs with
  | [] => st
  | h :: rest =>
      if pollPending st then pollTimers rest (onPollTimer h st) else st
  end.

Definition pollChain (hs : list Host) (st : PageState) : PageState :=
  match hs with
  | [] => st
  | h :: rest => pollTimers rest (poll h st)
  end.

End PageScript.

(** ** Transit data and the points render gathers (render, lines 219-261) *)

Module Gather.
Import JSNumber Projector Renderer.

(** A GeoJSON position [lng, lat]. *)
Abbreviation Position := (number * number)%type (only parsing).

Inductive LineGeometry : Type :=
  | LineString (coordinates : list Position)
  | MultiLineString (coordinates : list (list Position)).

Record Properties : Type := { name : option string; line : option string }.

Record LineFeature : Type :=
  { lineGeometry : LineGeometry; lineProperties : Properties }.

Record PointFeature : Type :=
  { pointCoordinates : Position; pointProperties : Properties }.

(** The four collections of TransitDataProvider.getAll. *)
Module Data.
Record t : Type :=
  { luasLines : list LineFeature;
    luasStops : list PointFeature;
    railLines : list LineFeature;
    railStations : list PointFeature }.
End Data.

(** An entry of idx for a line: its points are pts[start .. start+count). *)
Module Seg.
Record t : Type := { start : nat; count : nat; props : Properties }.
End Seg.

(** An entry of idx for a stop: its point is pts[i]. *)
Module Stop.
Record t : Type := { i : nat; props : Properties }.
End Stop.

Module Idx.
Record t : Type :=
  { luasLines : list Seg.t;
    luasStops : list Stop.t;
    railLines : list Seg.t;
    railStations : list Stop.t }.
End Idx.

(** [{ lat: c[1], lng: c[0] }] *)
Definition toPoint (c : Position) : GeoPoint := {| lat := snd c; lng := fst c |}.

(** [f.geometry.type === 'MultiLineString' ? f.geometry.coordinates.flat()
     : f.geometry.coordinates] *)
Definition coordsOf (f : LineFeature) : list Position :=
  match lineGeometry f with
  | MultiLineString css => concat css
  | LineString cs => cs
  end.

Definition addLineFeatures (fc : list LineFeature)
    (acc : list GeoPoint * list Seg.t) : list GeoPoint * list Seg.t :=
  fold_left
    (fun acc f =>
       let coords := coordsOf f in
       let start := length (fst acc) in
       (fst acc ++ map toPoint coords,
        snd acc ++ [ {| Seg.start := start; Seg.count := length coords;
                        Seg.props := lineProperties f |} ]))
    fc acc.

Definition addPointFeatures (fc : list PointFeature)
    (acc : list GeoPoint * list Stop.t) : list GeoPoint * list Stop.t :=
  fold_left
    (fun acc f =>
       (fst acc ++ [toPoint (pointCoordinates f)],
        snd acc ++ [ {| Stop.i := length (fst acc);
                        Stop.props := pointProperties f |} ]))
    fc acc.

Section WithLowerCase.

(** [String.prototype.toLowerCase]. *)
Variable toLowerCase : string -> string.

(** [(props.line || '').toLowerCase() === 'dart'] *)
Definition isDart (p : Properties) : bool :=
  String.eqb (toLowerCase (match line p with
                           | Some l => l
                           | None => ""%string
                           end)) "dart".

(** The points to project and the index of the features they belong to. *)
Definition gather (settings : Settings) (data : Data.t)
  : list GeoPoint * Idx.t :=
  let pts : list GeoPoint := [] in
  let '(pts, iLuasLines) :=
    if Renderer.luasLines settings
    then addLineFeatures (Data.luasLines data) (pts, [])
    else (pts, []) in
  let '(pts, iLuasStops) :=
    if Renderer.luasStops settings
    then addPointFeatures (Data.luasStops data) (pts, [])
    else (pts, []) in
  let '(pts, iRailLines) :=
    if dartLines settings || irishRailLines settings
    then addLineFeatures
           (List.filter (fun f => if isDart (lineProperties f)
                                  then dartLines settings
                                  else irishRailLines settings)
                        (Data.railLines data))
           (pts, [])
    else (pts, []) in
  let '(pts, iRailStations) :=
    if dartStations settings || irishRailStations settings
    then addPointFeatures
           (List.filter (fun f => if isDart (pointProperties f)
                                  then dartStations settings
                                  else irishRailStations settings)
                        (Data.railStations data))
           (pts, [])
    else (pts, []) in
  (pts, {| Idx.luasLines := iLuasLines; Idx.luasStops := iLuasStops;
           Idx.railLines := iRailLines; Idx.railStations := iRailStations |}).

End WithLowerCase.

End Gather.

(** ** Escaping of names in the markup (esc) *)

Module Escape.

Local Open Scope string_scope.

(** [s.replace(/c/g, by)] for a pattern that is the one character [c]. A
    string is its sequence of bytes in UTF-8; the four characters that esc
    replaces are ASCII, and no byte of a longer UTF-8 sequence is. *)
Fixpoint replaceAll (c : ascii) (by_ : string) (s : string) : string :=
  match s with
  | EmptyString => EmptyString
  | String a r =>
      if Ascii.eqb a c then by_ ++ replaceAll c by_ r
      else String a (replaceAll c by_ r)
  end.

Definition amp : ascii := Ascii.ascii_of_nat 38.
Definition quot : ascii := Ascii.ascii_of_nat 34.
Definition lessThan : ascii := Ascii.ascii_of_nat 60.
Definition greaterThan : ascii := Ascii.ascii_of_nat 62.

Definition esc (s : string) : string :=
  replaceAll greaterThan "&gt;"
    (replaceAll lessThan "&lt;"
      (replaceAll quot "&quot;"
        (replaceAll amp "&amp;" s))).

(** The character [c] occurs in [s]. *)
Fixpoint occurs (c : ascii) (s : string) : bool :=
  match s with
  | EmptyString => false
  | String a r => Ascii.eqb a c || occurs c r
  end.

End Escape.

(** ** Settings and state of the content script (loadSettings, the
    storage listener, ensureOverlay, hideTip) *)

Module Content.
Import JSNumber Projector Bridge Renderer.

(** The value stored under daftTransitSettings: an object with some of the
    keys of the settings. *)
Module Patch.
Record t : Type :=
  { enabled : option bool;
    luasLines : option bool; luasStops : option bool;
    dartLines : option bool; dartStations : option bool;
    irishRailLines : option bool; irishRailStations : option bool;
    opacity : option Z;
    walkRadius5 : option bool; walkRadius10 : option bool;
    walkRadius20 : option bool }.
End Patch.

Definition pick {A : Type} (new : option A) (old : A) : A :=
  match new with
  | Some v => v
  | None => old
  end.

(** [Object.assign(settings, newSettings)] *)
Definition assign (s : Settings) (p : Patch.t) : Settings :=
  {| enabled := pick (Patch.enabled p) (enabled s);
     luasLines := pick (Patch.luasLines p) (luasLines s);
     luasStops := pick (Patch.luasStops p) (luasStops s);
     dartLines := pick (Patch.dartLines p) (dartLines s);
     dartStations := pick (Patch.dartStations p) (dartStations s);
     irishRailLines := pick (Patch.irishRailLines p) (irishRailLines s);
     irishRailStations := pick (Patch.irishRailStations p) (irishRailStations s);
     opacity := pick (Patch.opacity p) (opacity s);
     walkRadius5 := pick (Patch.walkRadius5 p) (walkRadius5 s);
     walkRadius10 := pick (Patch.walkRadius10 p) (walkRadius10 s);
     walkRadius20 := pick (Patch.walkRadius20 p) (walkRadius20 s) |}.

(** The value of [settings] when the script is loaded. *)
Definition defaultSettings : Settings :=
  {| enabled := false;
     luasLines := true; luasStops := true;
     dartLines := true; dartStations := true;
     irishRailLines := true; irishRailStations := true;
     opacity := 75;
     walkRadius5 := true; walkRadius10 := true; walkRadius20 := false |}.

(** The tooltip shown for a marker. *)
Record Tooltip : Type :=
  { tipText : string; tipLeft : number; tipTop : number }.

(** The module-level state of the content script: the adapter with the
    messages it posted, the overlay with the settings and the scale factor,
    the scheduler with overlayVisible, and the tooltip. *)
Record State : Type :=
  { world : World;
    overlay : Overlay;
    sched : Scheduler.State;
    tooltip : option Tooltip }.

Definition initialState : State :=
  {| world := initialWorld;
     overlay := {| svgOverlay := None; _pxPerMeter := Fin 0;
                   settings := defaultSettings |};
     sched := {| Scheduler.renderTimer := None; Scheduler.lastRender := 0;
                 Scheduler.overlayVisible := false;
                 Scheduler.pendingTimers := [];
                 Scheduler.nextHandle := 1%positive;
                 Scheduler.renders := [] |};
     tooltip := None |}.

Definition withSettings (s : Settings) (c : State) : State :=
  {| world := world c;
     overlay := {| svgOverlay := svgOverlay (overlay c);
                   _pxPerMeter := _pxPerMeter (overlay c);
                   settings := s |};
     sched := sched c; tooltip := tooltip c |}.

Definition withVisible (b : bool) (c : State) : State :=
  {| world := world c; overlay := overlay c;
     sched := {| Scheduler.renderTimer := Scheduler.renderTimer (sched c);
                 Scheduler.lastRender := Scheduler.lastRender (sched c);
                 Scheduler.overlayVisible := b;
                 Scheduler.pendingTimers := Scheduler.pendingTimers (sched c);
                 Scheduler.nextHandle := Scheduler.nextHandle (sched c);
                 Scheduler.renders := Scheduler.renders (sched c) |};
     tooltip := tooltip c |}.

Definition scheduleRender (now : Z) (c : State) : State :=
  {| world := world c; overlay := overlay c;
     sched := Scheduler.scheduleRender now (sched c);
     tooltip := tooltip c |}.

(** [MapAdapter.requestViewport()] *)
Definition requestViewport (c : State) : State :=
  {| world := {| adapter := adapter (world c); clock := clock (world c);
                 timers := timers (world c); promises := promises (world c);
                 resolveCalls := resolveCalls (world c);
                 posted := DAFT_TRANSIT_GET_VIEWPORT :: posted (world c) |};
     overlay := overlay c; sched := sched c; tooltip := tooltip c |}.

(** [attached] tells whether svgOverlay.parentElement is not null, that is
    whether the page still holds the overlay. *)
Definition ensureOverlay (attached : bool) (c : State) : State :=
  match container (adapter (world c)) with
  | None => c
  | Some _ =>
      if match svgOverlay (overlay c) with
         | Some _ => attached
         | None => false
         end
      then c
      else {| world := world c;
              overlay := with_svg (overlay c)
                           (setId "daft-transit-svg-overlay" (createElementNS "svg"));
              sched := sched c; tooltip := tooltip c |}
  end.

(** [svgOverlay.innerHTML = ''] *)
Definition clearChildren (e : Element) : Element :=
  match e with Elem t i a tx _ => Elem t i a tx [] end.

Definition hideTip (c : State) : State :=
  {| world := world c; overlay := hideWalkRadius (overlay c);
     sched := sched c; tooltip := None |}.

(** The callback of chrome.storage.local.get in loadSettings; [stored] is
    [r?.daftTransitSettings] and [now] is Date.now(). *)
Definition onSettingsLoaded (stored : option Patch.t) (now : Z) (c : State) : State :=
  let c := match stored with
           | Some p => withSettings (assign (settings (overlay c)) p) c
           | None => c
           end in
  if enabled (settings (overlay c))
  then scheduleRender now (withVisible true c)
  else c.

(** The listener of chrome.storage.onChanged; [change] is
    [changes.daftTransitSettings], and inside it the newValue. *)
Definition onChanged (area : string) (change : option (option Patch.t))
    (attached : bool) (now : Z) (c : State) : State :=
  if negb (String.eqb area "local") then c
  else
    match change with
    | None => c
    | Some None => c
    | Some (Some newSettings) =>
        let wasEnabled := enabled (settings (overlay c)) in
        let c := withSettings (assign (settings (overlay c)) newSettings) c in
        if enabled (settings (overlay c)) && negb wasEnabled
        then
          let c := withVisible true c in
          if found (adapter (world c))
          then
            let c := ensureOverlay attached c in
            if instanceAvailable (adapter (world c))
            then requestViewport c
            else scheduleRender now c
          else c
        else if negb (enabled (settings (overlay c))) && wasEnabled
        then
          let c := withVisible false c in
          let c := match svgOverlay (overlay c) with
                   | Some svg =>
                       {| world := world c;
                          overlay := with_svg (overlay c) (clearChildren svg);
                          sched := sched c; tooltip := tooltip c |}
                   | None => c
                   end in
          hideTip c
        else if enabled (settings (overlay c))
        then scheduleRender now c
        else c
    end.

(** A change of the storage, as the listener receives it. *)
Record Change : Type :=
  { area : string;
    change : option (option Patch.t);
    attached : bool;
    now : Z }.

Definition applyChange (ch : Change) (c : State) : State :=
  onChanged (area ch) (change ch) (attached ch) (now ch) c.

End Content.

(** ** Transit data (TransitDataProvider.getAll) *)

Module DataProvider.
Import Gather.

(** getAll is an async function: a call that finds no cache starts the four
    fetches and is suspended at its await, and other calls of getAll can run
    before it resumes (render, which calls it, is itself never awaited).
    [awaiting] holds the calls so suspended, [started] counts the rounds of
    fetches begun, and [returned] records, latest first, the value with which
    the promise of each finished call was fulfilled. Calls are numbered in the
    order they are made. *)
Record State : Type :=
  { _cache : option Data.t;
    awaiting : list N;
    nextCall : N;
    started : nat;
    returned : list (N * option Data.t) }.

Definition initial : State :=
  {| _cache := None; awaiting := []; nextCall := 0%N; started := 0;
     returned := [] |}.

(** A call of [getAll()], up to its return or to its await. *)
Definition getAll (st : State) : State :=
  match _cache st with
  | Some d =>
      {| _cache := _cache st; awaiting := awaiting st;
         nextCall := N.succ (nextCall st); started := started st;
         returned := (nextCall st, Some d) :: returned st |}
  | None =>
      {| _cache := None; awaiting := nextCall st :: awaiting st;
         nextCall := N.succ (nextCall st); started := S (started st);
         returned := returned st |}
  end.

(** The call [id] resumes after its await: [results] is what its fetches and
    their parsing gave, [None] when one of them failed (the catch clause then
    returns null). On success the cache is replaced by a new object holding
    these results, and that object is returned. *)
Definition resume (id : N) (results : option Data.t) (st : State) : State :=
  if existsb (N.eqb id) (awaiting st)
  then
    let rest := List.filter (fun j => negb (N.eqb j id)) (awaiting st) in
    match results with
    | Some d =>
        {| _cache := Some d; awaiting := rest; nextCall := nextCall st;
           started := started st; returned := (id, Some d) :: returned st |}
    | None =>
        {| _cache := _cache st; awaiting := rest; nextCall := nextCall st;
           started := started st; returned := (id, None) :: returned st |}
    end
  else st.

Inductive event : Type :=
  | Call
  | Settle (id : N) (results : option Data.t).

Definition step (ev : event) (st : State) : State :=
  match ev with
  | Call => getAll st
  | Settle id results => resume id results st
  end.

Definition exec (evs : list event) (st : State) : State :=
  fold_left (fun s ev => step ev s) evs st.

End DataProvider.

(** * Properties *)

(** ** Arithmetic of numbers *)

Module NumberFacts.
Import JSNumber.
Local Open Scope R_scope.

(** Decide the tests on reals left in the goal, closing the branches that
    contradict the context. *)
Ltac decide_reals :=
  repeat match goal with
         | |- context [Req_dec_T ?u ?v] =>
             destruct (Req_dec_T u v); try lra; try contradiction
         | |- context [Rlt_dec ?u ?v] =>
             destruct (Rlt_dec u v); try lra; try contradiction
         | |- context [Rle_dec ?u ?v] =>
             destruct (Rle_dec u v); try lra; try contradiction
         end.

Lemma sub_Fin (r s : R) : sub (Fin r) (Fin s) = Fin (r - s).
Proof. reflexivity. Qed.

Lemma add_Fin (r s : R) : add (Fin r) (Fin s) = Fin (r + s).
Proof. reflexivity. Qed.

Lemma mul_Fin (r s : R) : mul (Fin r) (Fin s) = Fin (r * s).
Proof. reflexivity. Qed.

Lemma div_Fin (r s : R) : s <> 0 -> div (Fin r) (Fin s) = Fin (r / s).
Proof. intros Hs. unfold div. decide_reals. reflexivity. Qed.

Lemma div_Fin_zero_pos (r s : R) : 0 < r -> s = 0 -> div (Fin r) (Fin s) = PosInf.
Proof. intros Hr Hs. unfold div, inf_of_sign. decide_reals. reflexivity. Qed.

Lemma mul_PosInf_pos (r : R) : 0 < r -> mul PosInf (Fin r) = PosInf.
Proof. intros Hr. unfold mul, inf_of_sign. decide_reals. reflexivity. Qed.

Lemma lt_Fin (r s : R) : lt (Fin r) (Fin s) = true <-> r < s.
Proof. unfold lt. destruct (Rlt_dec r s); split; intros; easy. Qed.

Lemma gt_Fin (r s : R) : gt (Fin r) (Fin s) = true <-> s < r.
Proof. apply lt_Fin. Qed.

Lemma le_Fin (r s : R) : le (Fin r) (Fin s) = true <-> r <= s.
Proof. unfold le. destruct (Rle_dec r s); split; intros; easy. Qed.

(** A difference of a number with itself is zero, or NaN when the number is
    not finite; dividing by either never gives a finite number, and scaling
    a number that is not finite never makes it finite. *)

Lemma sub_same (a : number) : sub a a = NaN \/ sub a a = Fin 0.
Proof. destruct a; simpl; auto. right. f_equal. lra. Qed.

Lemma div_zero_span_not_finite (a b : number) :
  b = NaN \/ b = Fin 0 -> is_finite (div a b) = false.
Proof.
  intros [-> | ->]; destruct a; simpl; unfold inf_of_sign; decide_reals;
    reflexivity.
Qed.

Lemma mul_not_finite_l (a b : number) :
  is_finite a = false -> is_finite (mul a b) = false.
Proof.
  destruct a; intros Ha; try discriminate; destruct b; simpl;
    unfold inf_of_sign; decide_reals; reflexivity.
Qed.

End NumberFacts.

(** ** Geometry Projector *)

Module ProjectorSpec.
Import JSNumber Projector NumberFacts.
Local Open Scope R_scope.

(** Unfold projectAll on a literal list and viewport, leaving the arithmetic
    of numbers folded. *)
Ltac unfold_projectAll :=
  cbv [projectAll viewportOf geo pixel map bounds containerRect
       north south east west width height lat lng x y].

(** C2, as the code has it. projectAll is total: whatever the points and the
    viewport, it returns one projected point for each point. It has no guard
    for degenerate bounds: when east equals west every x it returns is NaN or
    infinite, and when north equals south every y is. *)
Theorem projectAll_total_unguarded (pts : list GeoPoint) (vp : Viewport) :
  length (projectAll pts vp) = length pts
  /\ (east (bounds vp) = west (bounds vp) ->
      Forall (fun q => is_finite (x q) = false) (projectAll pts vp))
  /\ (north (bounds vp) = south (bounds vp) ->
      Forall (fun q => is_finite (y q) = false) (projectAll pts vp)).
Proof.
  unfold projectAll. split; [apply length_map | split].
  - intros E. apply Forall_map, Forall_forall. intros p _. simpl.
    apply mul_not_finite_l, div_zero_span_not_finite.
    rewrite E. apply sub_same.
  - intros E. apply Forall_map, Forall_forall. intros p _. simpl.
    apply mul_not_finite_l, div_zero_span_not_finite.
    rewrite E. apply sub_same.
Qed.

Lemma projectAll_total_unguarded_witness :
  Forall (fun q => is_finite (x q) = false)
         (projectAll [geo 0 1] (viewportOf 1 0 0 0 0 0 800 600)).
Proof.
  apply (projectAll_total_unguarded [geo 0 1] (viewportOf 1 0 0 0 0 0 800 600)).
  reflexivity.
Defined.

(** C2, as stated, fails: with east = west = 0 the point of longitude 1 gets
    the abscissa +Infinity. *)
Lemma projectAll_degenerate_infinite :
  map x (projectAll [geo 0 1] (viewportOf 1 0 0 0 0 0 800 600)) = [PosInf].
Proof.
  unfold_projectAll.
  rewrite !sub_Fin, (div_Fin_zero_pos (1 - 0) (0 - 0)) by lra.
  rewrite mul_PosInf_pos by lra. reflexivity.
Qed.

End ProjectorSpec.

(** ** Rounding in a binary format (the specification of the floats) *)

(** The operations of the primitive floats are specified by [SpecFloat]: a
    result is computed on integers (a mantissa, an exponent and the place of
    what was cut off) and rounded by [binary_round_aux]. For any format, what
    comes out is a number of the format nearest to the exact result; so a
    subtraction, an addition, and a division and a multiplication by a
    positive number keep the order, and a result that the format holds comes
    out exact. *)

Module Rounding.
Import SpecFloat.
Local Open Scope Z_scope.

(** *** Digits *)

Lemma digits2_pos_size (p : positive) : digits2_pos p = Pos.size p.
Proof. induction p; simpl; congruence. Qed.

Lemma digits2_pos_bounds (p : positive) :
  2 ^ (Z.pos (digits2_pos p) - 1) <= Z.pos p < 2 ^ Z.pos (digits2_pos p).
Proof.
  rewrite digits2_pos_size. split.
  - pose proof (Pos.size_le p) as H.
    apply (Z.mul_le_mono_pos_l _ _ 2); [lia | ].
    rewrite <- Z.pow_succ_r by lia.
    replace (Z.succ (Z.pos (Pos.size p) - 1)) with (Z.pos (Pos.size p)) by lia.
    rewrite <- Pos2Z.inj_pow. lia.
  - pose proof (Pos.size_gt p) as H. rewrite <- Pos2Z.inj_pow. lia.
Qed.

Lemma Zdigits2_nonneg (m : Z) : 0 <= Zdigits2 m.
Proof. destruct m; simpl; lia. Qed.

Lemma Zdigits2_bounds (m : Z) :
  0 < m -> 2 ^ (Zdigits2 m - 1) <= m < 2 ^ Zdigits2 m.
Proof. destruct m as [ | p | p]; try lia. intros _. apply digits2_pos_bounds. Qed.

Lemma Zdigits2_pos (m : Z) : 0 < m -> 0 < Zdigits2 m.
Proof. destruct m; simpl; lia. Qed.

(** *** Shifting with a round and a sticky bit *)

(** Where [P / Q] lies between [P `div` Q] and the next integer. *)
Definition loc_of (P Q : Z) : location :=
  if P mod Q =? 0 then loc_Exact else loc_Inexact (2 * (P mod Q) ?= Q).

Lemma shr_m_of_loc (m : Z) (l : location) : shr_m (shr_record_of_loc m l) = m.
Proof. now destruct l as [ | []]. Qed.

Lemma loc_of_shr_record_of_loc (m : Z) (l : location) :
  loc_of_shr_record (shr_record_of_loc m l) = l.
Proof. now destruct l as [ | []]. Qed.

Lemma shr_1_spec (P Q : Z) :
  0 <= P -> 0 < Q ->
  shr_1 (shr_record_of_loc (P / Q) (loc_of P Q))
  = shr_record_of_loc (P / (Q * 2)) (loc_of P (Q * 2)).
Proof.
  intros HP HQ.
  pose proof (Z.mod_pos_bound P Q HQ) as Hr.
  assert (Hm : 0 <= P / Q) by (apply Z.div_pos; lia).
  assert (Ed : P / (Q * 2) = P / Q / 2) by (rewrite Z.div_div; lia).
  assert (Er : P mod (Q * 2) = P mod Q + Q * ((P / Q) mod 2))
    by (apply Z.rem_mul_r; lia).
  unfold loc_of at 2. rewrite Ed, Er.
  unfold loc_of.
  remember (P / Q) as m eqn:Em. remember (P mod Q) as r eqn:Erm.
  clear Em Erm Ed Er HP.
  destruct m as [ | [p | p | ] | p]; try lia.
  - (* zero *)
    change (0 / 2) with 0. change (0 mod 2) with 0.
    replace (r + Q * 0) with r by lia.
    destruct (Z.eqb_spec r 0) as [-> | Hn]; [reflexivity | ].
    replace (2 * r ?= Q * 2) with Lt by (symmetry; apply Z.compare_lt_iff; lia).
    now destruct (2 * r ?= Q).
  - (* odd *)
    replace (Z.pos p~1 / 2) with (Z.pos p) by (apply (Z.div_unique _ 2 _ 1); lia).
    replace (Z.pos p~1 mod 2) with 1 by (apply (Z.mod_unique _ 2 (Z.pos p) 1); lia).
    destruct (Z.eqb_spec r 0) as [-> | Hn].
    + simpl. replace (0 + Q * 1) with Q by lia.
      destruct (Z.eqb_spec Q 0); [lia | ].
      replace (2 * Q ?= Q * 2) with Eq by (symmetry; apply Z.compare_eq_iff; lia).
      reflexivity.
    + destruct (Z.eqb_spec (r + Q * 1) 0); [lia | ].
      replace (2 * (r + Q * 1) ?= Q * 2) with Gt
        by (symmetry; apply Z.compare_gt_iff; lia).
      now destruct (2 * r ?= Q).
  - (* even *)
    replace (Z.pos p~0 / 2) with (Z.pos p) by (apply (Z.div_unique _ 2 _ 0); lia).
    replace (Z.pos p~0 mod 2) with 0 by (apply (Z.mod_unique _ 2 (Z.pos p) 0); lia).
    replace (r + Q * 0) with r by lia.
    destruct (Z.eqb_spec r 0) as [-> | Hn]; [reflexivity | ].
    replace (2 * r ?= Q * 2) with Lt by (symmetry; apply Z.compare_lt_iff; lia).
    now destruct (2 * r ?= Q).
  - (* one *)
    change (1 / 2) with 0. change (1 mod 2) with 1.
    destruct (Z.eqb_spec r 0) as [-> | Hn].
    + simpl. replace (0 + Q * 1) with Q by lia.
      destruct (Z.eqb_spec Q 0); [lia | ].
      replace (2 * Q ?= Q * 2) with Eq by (symmetry; apply Z.compare_eq_iff; lia).
      reflexivity.
    + destruct (Z.eqb_spec (r + Q * 1) 0); [lia | ].
      replace (2 * (r + Q * 1) ?= Q * 2) with Gt
        by (symmetry; apply Z.compare_gt_iff; lia).
      now destruct (2 * r ?= Q).
Qed.


Lemma iter_pos_shr_1 (p : positive) (P Q : Z) :
  0 <= P -> 0 < Q ->
  iter_pos shr_1 p (shr_record_of_loc (P / Q) (loc_of P Q))
  = shr_record_of_loc (P / (Q * 2 ^ Z.pos p)) (loc_of P (Q * 2 ^ Z.pos p)).
Proof.
  intros HP. revert Q. induction p as [p IH | p IH | ]; intros Q HQ; cbn [iter_pos].
  - rewrite shr_1_spec, IH, IH by lia.
    replace (Q * 2 * 2 ^ Z.pos p * 2 ^ Z.pos p) with (Q * 2 ^ Z.pos p~1);
      [reflexivity | ].
    rewrite (Pos2Z.inj_xI p). generalize (Pos2Z.is_pos p). generalize (Z.pos p).
    intros n Hn. replace (2 * n + 1) with (n + n + 1) by lia.
    rewrite !Z.pow_add_r by lia. rewrite Z.pow_1_r. ring.
  - rewrite IH, IH by lia.
    replace (Q * 2 ^ Z.pos p * 2 ^ Z.pos p) with (Q * 2 ^ Z.pos p~0);
      [reflexivity | ].
    rewrite (Pos2Z.inj_xO p). generalize (Pos2Z.is_pos p). generalize (Z.pos p).
    intros n Hn. replace (2 * n) with (n + n) by lia.
    rewrite !Z.pow_add_r by lia. ring.
  - rewrite shr_1_spec by lia. now rewrite Z.pow_1_r.
Qed.

Lemma shr_spec (P Q e n : Z) :
  0 <= P -> 0 < Q ->
  shr (shr_record_of_loc (P / Q) (loc_of P Q)) e n
  = (shr_record_of_loc (P / (Q * 2 ^ Z.max 0 n)) (loc_of P (Q * 2 ^ Z.max 0 n)),
     e + Z.max 0 n).
Proof.
  intros HP HQ. destruct n as [ | p | p]; cbn [shr Z.max Z.compare Z.pow].
  - now rewrite Z.mul_1_r, Z.add_0_r.
  - rewrite iter_pos_shr_1 by lia. reflexivity.
  - now rewrite Z.mul_1_r, Z.add_0_r.
Qed.

(** *** Rounding to the nearest integer, ties to even *)

Definition rne (P Q : Z) : Z := round_nearest_even (P / Q) (loc_of P Q).

Lemma rne_range (P Q : Z) : P / Q <= rne P Q <= P / Q + 1.
Proof.
  unfold rne, round_nearest_even.
  destruct (loc_of P Q) as [ | []]; try lia. destruct (Z.even _); lia.
Qed.

Lemma rne_nearest (P Q k : Z) :
  0 < Q -> Z.abs (rne P Q * Q - P) <= Z.abs (k * Q - P).
Proof.
  intros HQ.
  pose proof (Z.mod_pos_bound P Q HQ) as Hr.
  pose proof (Z.div_mod P Q ltac:(lia)) as HP.
  unfold rne, round_nearest_even, loc_of.
  remember (P / Q) as m eqn:Em. remember (P mod Q) as r eqn:Er.
  clear Em Er. subst P.
  assert (Hk : k <= m \/ m + 1 <= k) by lia.
  destruct (Z.eqb_spec r 0) as [-> | Hn]; [nia | ].
  destruct (Z.compare_spec (2 * r) Q) as [He | Hl | Hg].
  - destruct (Z.even m); nia.
  - nia.
  - nia.
Qed.


(** *** Powers of two and the numbers of the format *)

Definition bpow (e : Z) : R := powerRZ 2 e.

Lemma bpow_pos (e : Z) : (0 < bpow e)%R.
Proof. apply powerRZ_lt. lra. Qed.

Lemma bpow_add (a b : Z) : bpow (a + b) = (bpow a * bpow b)%R.
Proof. apply powerRZ_add. lra. Qed.

Lemma bpow_IZR (n : Z) : 0 <= n -> bpow n = IZR (2 ^ n).
Proof.
  intros Hn. unfold bpow. rewrite <- (Z2Nat.id n Hn) at 1 2.
  now rewrite <- pow_powerRZ, pow_IZR.
Qed.

Lemma bpow_ge_1 (n : Z) : 0 <= n -> (1 <= bpow n)%R.
Proof.
  intros Hn. rewrite bpow_IZR by lia. apply IZR_le.
  pose proof (Z.pow_pos_nonneg 2 n). lia.
Qed.

Lemma bpow_le (a b : Z) : a <= b -> (bpow a <= bpow b)%R.
Proof.
  intros H. replace b with (a + (b - a)) by lia. rewrite bpow_add.
  pose proof (bpow_pos a). pose proof (bpow_ge_1 (b - a) ltac:(lia)). nra.
Qed.

Lemma bpow_lt (a b : Z) : a < b -> (bpow a < bpow b)%R.
Proof.
  intros H. replace b with (a + 1 + (b - a - 1)) by lia. rewrite !bpow_add.
  pose proof (bpow_pos a). pose proof (bpow_ge_1 (b - a - 1) ltac:(lia)).
  replace (bpow 1) with 2%R by (unfold bpow; simpl; lra). nra.
Qed.

Section Format.
Variables prec emax : Z.
Hypothesis prec_gt_0 : 0 < prec.
Hypothesis prec_lt_emax : prec < emax.

#[local] Abbreviation emin' := (emin prec emax).
#[local] Abbreviation fexp' := (fexp prec emax).

(** The numbers [k * 2^e] with at most [prec] bits (and [2^prec] itself) and
    an exponent not below [emin], with no bound on the exponent above. *)
Definition in_format (v : R) : Prop :=
  exists k e : Z, emin' <= e /\ Z.abs k <= 2 ^ prec /\ v = (IZR k * bpow e)%R.

Definition nearest (v x : R) : Prop :=
  in_format v /\ forall f : R, in_format f -> (Rabs (v - x) <= Rabs (f - x))%R.

Lemma nearest_monotone (v w x y : R) :
  nearest v x -> nearest w y -> (x < y)%R -> (v <= w)%R.
Proof.
  intros [Fv Hv] [Fw Hw] Hxy.
  specialize (Hv w Fw). specialize (Hw v Fv).
  destruct (Rle_or_lt v w) as [ | Hlt]; [assumption | exfalso].
  unfold Rabs in Hv, Hw.
  repeat destruct (Rcase_abs _) in Hv, Hw; lra.
Qed.

Lemma nearest_exact (v x : R) : nearest v x -> in_format x -> v = x.
Proof.
  intros [_ Hv] Fx. specialize (Hv x Fx).
  replace (x - x)%R with 0%R in Hv by ring. rewrite Rabs_R0 in Hv.
  pose proof (Rabs_pos (v - x)).
  assert (E : Rabs (v - x) = 0%R) by lra.
  destruct (Req_dec (v - x) 0) as [E0 | Hn]; [lra | ].
  now apply Rabs_no_R0 in Hn.
Qed.

Lemma in_format_opp (v : R) : in_format v -> in_format (- v).
Proof.
  intros (k & e & He & Hk & ->). exists (- k), e.
  split; [exact He | split; [lia | ]]. rewrite opp_IZR. ring.
Qed.

Lemma nearest_opp (v x : R) : nearest v x -> nearest (- v) (- x).
Proof.
  intros [Fv Hv]. split; [now apply in_format_opp | ].
  intros f Ff. specialize (Hv (- f)%R (in_format_opp f Ff)).
  replace (- v - - x)%R with (- (v - x))%R by ring.
  replace (f - - x)%R with (- (- f - x))%R by ring.
  now rewrite !Rabs_Ropp.
Qed.


(** *** What binary_round_aux returns *)

Lemma fexp_ge_emin (z : Z) : emin' <= fexp' z.
Proof. unfold fexp. lia. Qed.

Lemma emin_le_emax : emin' <= emax - prec.
Proof using prec_gt_0 prec_lt_emax. unfold emin. lia. Qed.

Lemma pow2_pos (n : Z) : 0 <= n -> 0 < 2 ^ n.
Proof. intros. apply Z.pow_pos_nonneg; lia. Qed.

Lemma Zdigits2_le (m n : Z) : 0 < m -> m < 2 ^ n -> Zdigits2 m <= n.
Proof.
  intros Hm Hlt. pose proof (Zdigits2_bounds m Hm) as [Hl _].
  destruct (Z.le_gt_cases (Zdigits2 m) n) as [ | Hgt]; [assumption | exfalso].
  assert (2 ^ n <= 2 ^ (Zdigits2 m - 1)) by (apply Z.pow_le_mono_r; lia). lia.
Qed.

Lemma Zdigits2_ge (m n : Z) : 0 <= n -> 2 ^ n <= m -> n + 1 <= Zdigits2 m.
Proof.
  intros Hn Hle. pose proof (pow2_pos n Hn).
  pose proof (Zdigits2_bounds m ltac:(lia)) as [_ Hu].
  destruct (Z.le_gt_cases (n + 1) (Zdigits2 m)) as [ | Hgt]; [assumption | exfalso].
  pose proof (Zdigits2_nonneg m).
  assert (2 ^ Zdigits2 m <= 2 ^ n) by (apply Z.pow_le_mono_r; lia). lia.
Qed.

Lemma grid_nearest (P Q e K : Z) :
  0 < Q ->
  (Rabs (IZR (rne P Q) * bpow e - IZR P / IZR Q * bpow e)
   <= Rabs (IZR K * bpow e - IZR P / IZR Q * bpow e))%R.
Proof.
  intros HQ. assert (HQr : (0 < IZR Q)%R) by (apply IZR_lt; lia).
  pose proof (bpow_pos e) as Hb.
  assert (E : forall k : Z,
             (IZR k * bpow e - IZR P / IZR Q * bpow e
              = IZR (k * Q - P) * (bpow e / IZR Q))%R).
  { intros k. rewrite minus_IZR, mult_IZR. field. lra. }
  rewrite !E, !Rabs_mult. apply Rmult_le_compat_r; [apply Rabs_pos | ].
  rewrite <- !abs_IZR. apply IZR_le, rne_nearest, HQ.
Qed.

Lemma rescale (P Q e n : Z) :
  0 < Q -> 0 <= n ->
  (IZR P / IZR Q * bpow e = IZR P / IZR (Q * 2 ^ n) * bpow (e + n))%R.
Proof.
  intros HQ Hn. assert (HQr : (0 < IZR Q)%R) by (apply IZR_lt; lia).
  rewrite mult_IZR, <- bpow_IZR, bpow_add by lia.
  pose proof (bpow_pos n). field. lra.
Qed.

(** The shift of the first shr_fexp and the bounds of what it leaves. *)
Lemma first_shift_bounds (P Q e : Z) :
  0 <= P -> 0 < Q -> e <= fexp' (Zdigits2 (P / Q) + e) ->
  let n := fexp' (Zdigits2 (P / Q) + e) - e in
  0 <= P / (Q * 2 ^ n) < 2 ^ prec
  /\ (emin' < e + n -> 2 ^ (prec - 1) <= P / (Q * 2 ^ n)).
Proof using prec_gt_0.
  intros HP HQ He n. assert (Hn : 0 <= n) by (unfold n; lia).
  pose proof (pow2_pos n Hn) as H2n.
  rewrite <- Z.div_div by lia.
  assert (Hm : 0 <= P / Q) by (apply Z.div_pos; lia).
  destruct (Z.eq_dec (P / Q) 0) as [E0 | Hne].
  - rewrite E0. rewrite Z.div_0_l by lia.
    pose proof (pow2_pos prec ltac:(lia)).
    split; [lia | ]. unfold n. rewrite E0 in *. unfold fexp in *. cbn [Zdigits2] in *. lia.
  - pose proof (Zdigits2_bounds (P / Q) ltac:(lia)) as [Hl Hu].
    pose proof (Zdigits2_pos (P / Q) ltac:(lia)) as Hd.
    set (d := Zdigits2 (P / Q)) in *.
    assert (Hnd : d - prec <= n) by (unfold n, fexp; lia).
    split; [split | ].
    + apply Z.div_pos; lia.
    + apply Z.div_lt_upper_bound; [lia | ].
      rewrite <- Z.pow_add_r by lia.
      assert (2 ^ d <= 2 ^ (n + prec)) by (apply Z.pow_le_mono_r; lia). lia.
    + intros Hgt. assert (En : n = d - prec) by (unfold n, fexp in *; lia).
      apply Z.div_le_lower_bound; [lia | ].
      rewrite <- Z.pow_add_r by lia.
      replace (n + (prec - 1)) with (d - 1) by lia. exact Hl.
Qed.


Lemma round_nearest (P Q e : Z) :
  0 <= P -> 0 < Q -> e <= fexp' (Zdigits2 (P / Q) + e) ->
  let n := fexp' (Zdigits2 (P / Q) + e) - e in
  nearest (IZR (rne P (Q * 2 ^ n)) * bpow (e + n)) (IZR P / IZR Q * bpow e).
Proof using prec_gt_0.
  intros HP HQ He n. assert (Hn : 0 <= n) by (unfold n; lia).
  destruct (first_shift_bounds P Q e HP HQ He) as [[Hm0 Hm1] Hm2].
  fold n in Hm0, Hm1, Hm2.
  pose proof (pow2_pos n Hn) as H2n.
  assert (HQ' : 0 < Q * 2 ^ n) by lia.
  rewrite (rescale P Q e n HQ Hn).
  pose proof (rne_range P (Q * 2 ^ n)) as [HN0 HN1].
  set (Q' := Q * 2 ^ n) in *. set (e1 := e + n) in *. set (N := rne P Q') in *.
  assert (He1 : emin' <= e1) by (unfold e1, n; pose proof (fexp_ge_emin (Zdigits2 (P / Q) + e)); lia).
  split.
  - exists N, e1. split; [exact He1 | split; [lia | reflexivity]].
  - intros f (k & ef & Hef & Hk & ->).
    destruct (Z.le_gt_cases e1 ef) as [Hge | Hlt].
    + replace (IZR k * bpow ef)%R with (IZR (k * 2 ^ (ef - e1)) * bpow e1)%R.
      * apply grid_nearest, HQ'.
      * rewrite mult_IZR, <- bpow_IZR by lia.
        replace ef with (ef - e1 + e1) at 2 by lia. rewrite bpow_add. ring.
    + specialize (Hm2 ltac:(lia)).
      pose proof (grid_nearest P Q' e1 (2 ^ (prec - 1)) HQ') as Hg. fold N in Hg.
      assert (HQr : (0 < IZR Q')%R) by (apply IZR_lt; lia).
      pose proof (bpow_pos e1) as Hb1. pose proof (bpow_pos ef) as Hbf.
      assert (Hx : (IZR (2 ^ (prec - 1)) * bpow e1 <= IZR P / IZR Q' * bpow e1)%R).
      { apply Rmult_le_compat_r; [lra | ].
        apply Rle_trans with (IZR (P / Q')); [apply IZR_le, Hm2 | ].
        apply (Rmult_le_reg_r (IZR Q')); [exact HQr | ].
        replace (IZR P / IZR Q' * IZR Q')%R with (IZR P) by (field; lra).
        rewrite <- mult_IZR. apply IZR_le.
        pose proof (Z.mul_div_le P Q' HQ'). lia. }
      assert (Hf : (IZR k * bpow ef <= IZR (2 ^ (prec - 1)) * bpow e1)%R).
      { apply Rle_trans with (IZR (2 ^ prec) * bpow ef)%R.
        - apply Rmult_le_compat_r; [lra | apply IZR_le; lia].
        - rewrite <- !bpow_IZR, <- !bpow_add by lia. apply bpow_le. lia. }
      rewrite (Rabs_left1 (IZR k * bpow ef - _)) by lra.
      rewrite (Rabs_left1 (IZR (2 ^ (prec - 1)) * bpow e1 - _)) in Hg by lra.
      lra.
Qed.

(** [v] is the magnitude of [r], a float of sign [s]; an infinity stands for
    every magnitude from [2^emax] on. *)
Definition magnitude_result (s : bool) (r : spec_float) (v : R) : Prop :=
  match r with
  | S754_zero s' => s' = s /\ v = 0%R
  | S754_finite s' m e =>
      s' = s /\ v = (IZR (Z.pos m) * bpow e)%R /\ (v < bpow emax)%R
  | S754_infinity s' => s' = s /\ (bpow emax <= v)%R
  | S754_nan => False
  end.

Theorem binary_round_aux_correct (s : bool) (P Q e : Z) :
  0 <= P -> 0 < Q -> e <= fexp' (Zdigits2 (P / Q) + e) ->
  exists v : R,
    nearest v (IZR P / IZR Q * bpow e)
    /\ magnitude_result s (binary_round_aux prec emax s (P / Q) e (loc_of P Q)) v.
Proof using prec_gt_0 prec_lt_emax.
  intros HP HQ He.
  pose proof (round_nearest P Q e HP HQ He) as Hnear.
  destruct (first_shift_bounds P Q e HP HQ He) as [[Hm0 Hm1] Hm2].
  set (n := fexp' (Zdigits2 (P / Q) + e) - e) in *.
  assert (Hn : 0 <= n) by (unfold n; lia).
  pose proof (pow2_pos n Hn) as H2n.
  pose proof (rne_range P (Q * 2 ^ n)) as [HN0 HN1].
  assert (He1 : emin' <= e + n)
    by (unfold n; pose proof (fexp_ge_emin (Zdigits2 (P / Q) + e)); lia).
  eexists. split; [exact Hnear | ].
  unfold binary_round_aux, shr_fexp. fold n.
  rewrite shr_spec by lia. rewrite Z.max_r by lia.
  rewrite shr_m_of_loc, loc_of_shr_record_of_loc. fold (rne P (Q * 2 ^ n)).
  set (N := rne P (Q * 2 ^ n)) in *. set (e1 := e + n) in *.
  replace (shr_record_of_loc N loc_Exact)
    with (shr_record_of_loc (N / 1) (loc_of N 1))
    by (rewrite Z.div_1_r; unfold loc_of; rewrite Z.mod_1_r; reflexivity).
  rewrite shr_spec by lia. rewrite shr_m_of_loc, Z.mul_1_l.
  pose proof (pow2_pos prec ltac:(lia)) as H2p.
  pose proof emin_le_emax as Hee.
  pose proof (bpow_pos e1) as Hb1.
  destruct (Z.eq_dec N 0) as [E0 | Hne0].
  - (* the result is a zero *)
    rewrite E0. rewrite Z.div_0_l; [ | pose proof (pow2_pos (Z.max 0 (fexp' (Zdigits2 0 + e1) - e1)) ltac:(lia)); lia].
    simpl. split; [reflexivity | ring].
  - destruct (Z.eq_dec N (2 ^ prec)) as [Ec | Hnc].
    + (* the rounding carried into a new bit *)
      assert (Ed : Zdigits2 N = prec + 1).
      { apply Z.le_antisymm.
        - apply Zdigits2_le; [lia | ]. rewrite Ec. apply Z.pow_lt_mono_r; lia.
        - apply Zdigits2_ge; lia. }
      rewrite Ed. replace (fexp' (prec + 1 + e1) - e1) with 1
        by (unfold fexp; lia).
      change (Z.max 0 1) with 1. change (2 ^ 1) with 2.
      assert (Eh : N / 2 = 2 ^ (prec - 1)).
      { rewrite Ec. replace prec with (prec - 1 + 1) at 1 by lia.
        rewrite Z.pow_add_r by lia. change (2 ^ 1) with 2.
        apply Z.div_mul. lia. }
      rewrite Eh. pose proof (pow2_pos (prec - 1) ltac:(lia)) as H2h.
      destruct (2 ^ (prec - 1)) as [ | h | h] eqn:Eh2; try lia.
      assert (Ev : (IZR N * bpow e1 = bpow (prec + e1))%R).
      { rewrite Ec, <- bpow_IZR, <- bpow_add by lia. reflexivity. }
      destruct (Z.leb_spec (e1 + 1) (emax - prec)) as [Hfin | Hinf].
      * split; [reflexivity | split].
        -- rewrite Ev, <- Eh2, <- bpow_IZR, <- bpow_add by lia. f_equal. lia.
        -- rewrite Ev. apply bpow_lt. lia.
      * split; [reflexivity | ]. rewrite Ev. apply bpow_le. lia.
    + (* no carry *)
      assert (HNp : 0 < N < 2 ^ prec) by lia.
      pose proof (Zdigits2_le N prec ltac:(lia) ltac:(lia)) as Hd.
      rewrite (Z.max_l 0 (fexp' (Zdigits2 N + e1) - e1)) by (unfold fexp; lia).
      change (2 ^ 0) with 1. rewrite Z.div_1_r, Z.add_0_r.
      destruct N as [ | p | p] eqn:EN; try lia.
      destruct (Z.leb_spec e1 (emax - prec)) as [Hfin | Hinf].
      * split; [reflexivity | split; [reflexivity | ]].
        apply Rlt_le_trans with (IZR (2 ^ prec) * bpow e1)%R.
        -- apply Rmult_lt_compat_r; [lra | apply IZR_lt; lia].
        -- rewrite <- bpow_IZR, <- bpow_add by lia. apply bpow_le. lia.
      * split; [reflexivity | ].
        specialize (Hm2 ltac:(lia)).
        apply Rle_trans with (IZR (2 ^ (prec - 1)) * bpow e1)%R.
        -- rewrite <- bpow_IZR, <- bpow_add by lia. apply bpow_le. lia.
        -- apply Rmult_le_compat_r; [lra | apply IZR_le; lia].
Qed.


(** *** Valid floats *)

Lemma bounded_canonical (m : positive) (e : Z) :
  bounded prec emax m e = true ->
  e <= emax - prec /\ emin' <= e /\ Z.pos (digits2_pos m) <= prec
  /\ (emin' < e -> Z.pos (digits2_pos m) = prec).
Proof.
  unfold bounded, canonical_mantissa. intros H.
  apply andb_prop in H. destruct H as [H1 H2].
  apply Z.eqb_eq in H1. apply Z.leb_le in H2. unfold fexp in H1. lia.
Qed.

Lemma bounded_range (m : positive) (e : Z) :
  bounded prec emax m e = true ->
  Z.pos m < 2 ^ prec /\ (emin' < e -> 2 ^ (prec - 1) <= Z.pos m).
Proof using prec_gt_0.
  intros H. destruct (bounded_canonical m e H) as (_ & _ & Hd & Hn).
  pose proof (digits2_pos_bounds m) as [Hl Hu]. split.
  - assert (2 ^ Z.pos (digits2_pos m) <= 2 ^ prec)
      by (apply Z.pow_le_mono_r; lia). lia.
  - intros He. rewrite <- (Hn He). exact Hl.
Qed.

Lemma finite_lt_by_exponent (m1 : positive) (e1 : Z) (m2 : positive) (e2 : Z) :
  bounded prec emax m1 e1 = true -> bounded prec emax m2 e2 = true ->
  e1 < e2 ->
  (IZR (Z.pos m1) * bpow e1 < IZR (Z.pos m2) * bpow e2)%R.
Proof using prec_gt_0.
  intros H1 H2 Hlt.
  destruct (bounded_range m1 e1 H1) as [Hu1 _].
  destruct (bounded_range m2 e2 H2) as [_ Hl2].
  destruct (bounded_canonical m1 e1 H1) as (_ & Hmin & _).
  specialize (Hl2 ltac:(lia)).
  pose proof (bpow_pos e1). pose proof (bpow_pos e2).
  apply Rlt_le_trans with (IZR (2 ^ prec) * bpow e1)%R.
  - apply Rmult_lt_compat_r; [lra | apply IZR_lt; lia].
  - apply Rle_trans with (IZR (2 ^ (prec - 1)) * bpow e2)%R.
    + rewrite <- !bpow_IZR, <- !bpow_add by lia. apply bpow_le. lia.
    + apply Rmult_le_compat_r; [lra | apply IZR_le; lia].
Qed.

Lemma finite_lt_emax (m : positive) (e : Z) :
  bounded prec emax m e = true -> (IZR (Z.pos m) * bpow e < bpow emax)%R.
Proof using prec_gt_0.
  intros H. destruct (bounded_range m e H) as [Hu _].
  destruct (bounded_canonical m e H) as (He & _).
  pose proof (bpow_pos e).
  apply Rlt_le_trans with (IZR (2 ^ prec) * bpow e)%R.
  - apply Rmult_lt_compat_r; [lra | apply IZR_lt; lia].
  - rewrite <- bpow_IZR, <- bpow_add by lia. apply bpow_le. lia.
Qed.

Lemma finite_in_format (m : positive) (e : Z) :
  bounded prec emax m e = true -> in_format (IZR (Z.pos m) * bpow e).
Proof using prec_gt_0.
  intros H. destruct (bounded_range m e H) as [Hu _].
  destruct (bounded_canonical m e H) as (_ & He & _).
  exists (Z.pos m), e. split; [exact He | split; [lia | reflexivity]].
Qed.

(** *** Signed values *)

Definition sgn (s : bool) (v : R) : R := if s then (- v)%R else v.

Definition SF2R (x : spec_float) : R :=
  match x with
  | S754_finite s m e => sgn s (IZR (Z.pos m) * bpow e)
  | _ => 0%R
  end.

(** [v] is the value of [r]; an infinity stands for every value from
    [2^emax] on, or down from [-2^emax]. *)
Definition result_value (r : spec_float) (v : R) : Prop :=
  match r with
  | S754_zero _ => v = 0%R
  | S754_finite s m e => v = sgn s (IZR (Z.pos m) * bpow e) /\ (Rabs v < bpow emax)%R
  | S754_infinity s => if s then (v <= - bpow emax)%R else (bpow emax <= v)%R
  | S754_nan => False
  end.

(** [r] is [x] correctly rounded. *)
Definition rounds_to (x : R) (r : spec_float) : Prop :=
  exists v : R, nearest v x /\ result_value r v.

Lemma nearest_sgn (s : bool) (v x : R) : nearest v x -> nearest (sgn s v) (sgn s x).
Proof. destruct s; simpl; [apply nearest_opp | auto]. Qed.

Lemma magnitude_signed (s : bool) (r : spec_float) (v : R) :
  magnitude_result s r v -> result_value r (sgn s v).
Proof.
  destruct r as [s' | s' | | s' m e]; simpl; try tauto.
  - intros [_ ->]. destruct s; simpl; lra.
  - intros [-> H]. destruct s; simpl; lra.
  - intros (-> & -> & H). split; [reflexivity | ].
    pose proof (bpow_pos e).
    assert (0 < IZR (Z.pos m) * bpow e)%R
      by (apply Rmult_lt_0_compat; [apply IZR_lt; lia | assumption]).
    destruct s; simpl; [rewrite Rabs_Ropp | ]; rewrite Rabs_pos_eq; lra.
Qed.

Lemma round_signed (s : bool) (P Q e : Z) :
  0 <= P -> 0 < Q -> e <= fexp' (Zdigits2 (P / Q) + e) ->
  rounds_to (sgn s (IZR P / IZR Q * bpow e))
            (binary_round_aux prec emax s (P / Q) e (loc_of P Q)).
Proof using prec_gt_0 prec_lt_emax.
  intros HP HQ He.
  destruct (binary_round_aux_correct s P Q e HP HQ He) as (v & Hn & Hm).
  exists (sgn s v). split; [now apply nearest_sgn | now apply magnitude_signed].
Qed.


Lemma round_signed_exact (s : bool) (M e : Z) :
  0 <= M -> e <= fexp' (Zdigits2 M + e) ->
  rounds_to (sgn s (IZR M * bpow e)) (binary_round_aux prec emax s M e loc_Exact).
Proof using prec_gt_0 prec_lt_emax.
  intros HM He.
  pose proof (round_signed s M 1 e HM ltac:(lia)) as H.
  rewrite Z.div_1_r in H. specialize (H He).
  unfold loc_of in H. rewrite Z.mod_1_r in H. simpl in H.
  replace (IZR M / 1)%R with (IZR M) in H by field. exact H.
Qed.

Definition is_finite_SF (x : spec_float) : bool :=
  match x with
  | S754_zero _ | S754_finite _ _ _ => true
  | _ => false
  end.

Lemma in_format_0 : in_format 0.
Proof using prec_gt_0.
  exists 0, emin'. split; [lia | split; [ | simpl; ring]].
  pose proof (pow2_pos prec ltac:(lia)). simpl. lia.
Qed.

Lemma nearest_self (x : R) : in_format x -> nearest x x.
Proof.
  intros H. split; [exact H | ]. intros f _.
  replace (x - x)%R with 0%R by ring. rewrite Rabs_R0. apply Rabs_pos.
Qed.

Lemma in_format_sgn (s : bool) (v : R) : in_format v -> in_format (sgn s v).
Proof. destruct s; simpl; [apply in_format_opp | auto]. Qed.

Lemma Rabs_sgn (s : bool) (v : R) : Rabs (sgn s v) = Rabs v.
Proof. destruct s; simpl; [apply Rabs_Ropp | reflexivity]. Qed.

Lemma valid_result_value (x : spec_float) :
  valid_binary prec emax x = true -> is_finite_SF x = true ->
  result_value x (SF2R x).
Proof using prec_gt_0.
  destruct x as [s | s | | s m e]; simpl; try discriminate; auto.
  intros H _. split; [reflexivity | ].
  rewrite Rabs_sgn, Rabs_pos_eq; [now apply finite_lt_emax | ].
  pose proof (bpow_pos e). apply Rmult_le_pos; [apply IZR_le; lia | lra].
Qed.

Lemma valid_in_format (x : spec_float) :
  valid_binary prec emax x = true -> in_format (SF2R x).
Proof using prec_gt_0.
  destruct x as [s | s | | s m e]; simpl; try (intros; apply in_format_0).
  intros H. now apply in_format_sgn, finite_in_format.
Qed.

Lemma valid_rounds_to_self (x : spec_float) :
  valid_binary prec emax x = true -> is_finite_SF x = true ->
  rounds_to (SF2R x) x.
Proof using prec_gt_0.
  intros Hv Hf. exists (SF2R x). split.
  - now apply nearest_self, valid_in_format.
  - now apply valid_result_value.
Qed.

(** *** Multiplication *)

Lemma digits2_pos_mul (m1 m2 : positive) :
  Z.pos (digits2_pos m1) + Z.pos (digits2_pos m2) - 1
  <= Z.pos (digits2_pos (m1 * m2)).
Proof.
  pose proof (digits2_pos_bounds m1) as [H1 _].
  pose proof (digits2_pos_bounds m2) as [H2 _].
  pose proof (Zdigits2_ge (Z.pos (m1 * m2))
                (Z.pos (digits2_pos m1) - 1 + (Z.pos (digits2_pos m2) - 1))
                ltac:(lia)) as H.
  simpl in H. rewrite Z.pow_add_r in H by lia.
  assert (H0 : 0 < 2 ^ (Z.pos (digits2_pos m1) - 1)) by (apply pow2_pos; lia).
  assert (H0' : 0 < 2 ^ (Z.pos (digits2_pos m2) - 1)) by (apply pow2_pos; lia).
  rewrite Pos2Z.inj_mul in H. specialize (H ltac:(nia)). lia.
Qed.

Lemma SFmul_finite (sx : bool) (mx : positive) (ex : Z)
    (sy : bool) (my : positive) (ey : Z) :
  bounded prec emax mx ex = true -> bounded prec emax my ey = true ->
  rounds_to (SF2R (S754_finite sx mx ex) * SF2R (S754_finite sy my ey))
            (SFmul prec emax (S754_finite sx mx ex) (S754_finite sy my ey)).
Proof using prec_gt_0 prec_lt_emax.
  intros Hx Hy. cbn [SFmul SF2R].
  replace (sgn sx (IZR (Z.pos mx) * bpow ex) * sgn sy (IZR (Z.pos my) * bpow ey))%R
    with (sgn (xorb sx sy) (IZR (Z.pos (mx * my)) * bpow (ex + ey))).
  - apply round_signed_exact; [lia | ].
    cbn [Zdigits2].
    pose proof (digits2_pos_mul mx my) as Hd.
    destruct (bounded_canonical mx ex Hx) as (_ & Hex & Hdx & Hnx).
    destruct (bounded_canonical my ey Hy) as (_ & Hey & Hdy & Hny).
    pose proof emin_le_emax.
    assert (emin' <= 0) by (unfold emin; lia).
    unfold fexp.
    destruct (Z.eq_dec ex emin') as [Ex | Nx];
      destruct (Z.eq_dec ey emin') as [Ey | Ny]; lia.
  - rewrite Pos2Z.inj_mul, mult_IZR, bpow_add.
    destruct sx, sy; simpl; ring.
Qed.

(** *** Addition and subtraction *)

Lemma iter_xO_spec (m d : positive) :
  Z.pos (Pos.iter xO m d) = Z.pos m * 2 ^ Z.pos d
  /\ Z.pos (digits2_pos (Pos.iter xO m d)) = Z.pos (digits2_pos m) + Z.pos d.
Proof.
  induction d as [ | d [IH1 IH2]] using Pos.peano_ind.
  - simpl. split; lia.
  - rewrite Pos.iter_succ. cbn [digits2_pos].
    rewrite Pos2Z.inj_xO, IH1, !Pos2Z.inj_succ, IH2.
    rewrite Z.pow_succ_r by lia. split; ring.
Qed.

Lemma shl_align_spec (m : positive) (e e' : Z) :
  snd (shl_align m e e') = Z.min e e'
  /\ Z.pos (fst (shl_align m e e')) = Z.pos m * 2 ^ (e - Z.min e e')
  /\ Z.pos (digits2_pos (fst (shl_align m e e')))
     = Z.pos (digits2_pos m) + (e - Z.min e e').
Proof.
  unfold shl_align. destruct (e' - e) as [ | d | d] eqn:E; cbn [fst snd].
  - replace (Z.min e e') with e by lia. rewrite Z.sub_diag. simpl. lia.
  - replace (Z.min e e') with e by lia. rewrite Z.sub_diag. simpl. lia.
  - replace (Z.min e e') with e' by lia.
    replace (e - e') with (Z.pos d) by lia.
    destruct (iter_xO_spec m d) as [H1 H2]. auto.
Qed.

Lemma binary_round_correct (s : bool) (m : positive) (e : Z) :
  rounds_to (sgn s (IZR (Z.pos m) * bpow e)) (binary_round prec emax s m e).
Proof using prec_gt_0 prec_lt_emax.
  unfold binary_round.
  destruct (shl_align_spec m e (fexp' (Z.pos (digits2_pos m) + e)))
    as (H1 & H2 & H3).
  destruct (shl_align m e (fexp' (Z.pos (digits2_pos m) + e))) as [mz ez].
  cbn [fst snd] in *.
  replace (IZR (Z.pos m) * bpow e)%R with (IZR (Z.pos mz) * bpow ez)%R.
  - apply round_signed_exact; [lia | ].
    cbn [Zdigits2]. rewrite H3.
    replace (Z.pos (digits2_pos m) + (e - Z.min e (fexp' (Z.pos (digits2_pos m) + e))) + ez)
      with (Z.pos (digits2_pos m) + e) by lia.
    lia.
  - assert (E : bpow e = (bpow (e - ez) * bpow ez)%R)
      by (rewrite <- bpow_add; f_equal; lia).
    rewrite H2, <- H1, mult_IZR, <- bpow_IZR, E by lia. ring.
Qed.

Lemma rounds_to_0 (s : bool) : rounds_to 0 (S754_zero s).
Proof using prec_gt_0.
  exists 0%R. split; [apply nearest_self, in_format_0 | reflexivity].
Qed.

Lemma binary_normalize_correct (M e : Z) (sz : bool) :
  rounds_to (IZR M * bpow e) (binary_normalize prec emax M e sz).
Proof using prec_gt_0 prec_lt_emax.
  destruct M as [ | m | m]; cbn [binary_normalize].
  - rewrite Rmult_0_l. apply rounds_to_0.
  - apply (binary_round_correct false).
  - replace (IZR (Z.neg m) * bpow e)%R with (sgn true (IZR (Z.pos m) * bpow e)).
    + apply binary_round_correct.
    + simpl. change (Z.neg m) with (- Z.pos m). rewrite opp_IZR. ring.
Qed.

Lemma aligned_value (s : bool) (m : positive) (e e' : Z) :
  (IZR (cond_Zopp s (Z.pos (fst (shl_align m e (Z.min e e'))))) * bpow (Z.min e e')
   = sgn s (IZR (Z.pos m) * bpow e))%R.
Proof.
  destruct (shl_align_spec m e (Z.min e e')) as (_ & H & _).
  rewrite H. replace (Z.min e (Z.min e e')) with (Z.min e e') by lia.
  assert (E : (IZR (Z.pos m * 2 ^ (e - Z.min e e')) * bpow (Z.min e e')
               = IZR (Z.pos m) * bpow e)%R).
  { assert (E : bpow e = (bpow (e - Z.min e e') * bpow (Z.min e e'))%R)
      by (rewrite <- bpow_add; f_equal; lia).
    rewrite mult_IZR, <- bpow_IZR, E by lia. ring. }
  destruct s; cbn [cond_Zopp sgn]; [rewrite opp_IZR | ]; lra.
Qed.

Lemma SFsub_finite (sx : bool) (mx : positive) (ex : Z)
    (sy : bool) (my : positive) (ey : Z) :
  rounds_to (SF2R (S754_finite sx mx ex) - SF2R (S754_finite sy my ey))
            (SFsub prec emax (S754_finite sx mx ex) (S754_finite sy my ey)).
Proof using prec_gt_0 prec_lt_emax.
  cbn [SFsub SF2R].
  rewrite <- (aligned_value sx mx ex ey).
  rewrite <- (aligned_value sy my ey ex).
  rewrite (Z.min_comm ey ex), <- Rmult_minus_distr_r, <- minus_IZR.
  apply binary_normalize_correct.
Qed.

Lemma SFadd_finite (sx : bool) (mx : positive) (ex : Z)
    (sy : bool) (my : positive) (ey : Z) :
  rounds_to (SF2R (S754_finite sx mx ex) + SF2R (S754_finite sy my ey))
            (SFadd prec emax (S754_finite sx mx ex) (S754_finite sy my ey)).
Proof using prec_gt_0 prec_lt_emax.
  cbn [SFadd SF2R].
  rewrite <- (aligned_value sx mx ex ey).
  rewrite <- (aligned_value sy my ey ex).
  rewrite (Z.min_comm ey ex), <- Rmult_plus_distr_r, <- plus_IZR.
  apply binary_normalize_correct.
Qed.


(** *** Division *)

Lemma new_location_spec (Q r : Z) : 0 <= r < Q -> new_location Q r = loc_of r Q.
Proof.
  intros Hr. unfold loc_of. rewrite (Z.mod_small r Q Hr).
  unfold new_location, new_location_even, new_location_odd.
  destruct (Z.even Q) eqn:E; [reflexivity | ].
  destruct (Z.eqb_spec r 0); [reflexivity | ].
  assert (Ho : Z.odd Q = true) by (rewrite <- Z.negb_even, E; reflexivity).
  apply Z.odd_spec in Ho. destruct Ho as [k Hk].
  destruct (Z.compare_spec (2 * r + 1) Q); destruct (Z.compare_spec (2 * r) Q);
    try reflexivity; lia.
Qed.

Lemma loc_of_mod (P Q : Z) : 0 < Q -> loc_of (P mod Q) Q = loc_of P Q.
Proof. intros HQ. unfold loc_of. now rewrite Z.mod_mod by lia. Qed.

Lemma SFdiv_core_spec (mx : positive) (ex : Z) (my : positive) (ey : Z) :
  let e' := Z.min (fexp' (Z.pos (digits2_pos mx) + ex - (Z.pos (digits2_pos my) + ey)))
                  (ex - ey) in
  let P := Z.pos mx * 2 ^ (ex - ey - e') in
  SFdiv_core_binary prec emax (Z.pos mx) ex (Z.pos my) ey
  = (P / Z.pos my, e', loc_of P (Z.pos my)).
Proof.
  intros e' P. unfold SFdiv_core_binary. cbn [Zdigits2]. fold e'.
  assert (Hs : 0 <= ex - ey - e') by (unfold e'; lia).
  assert (EP : match ex - ey - e' with
               | Z.pos _ => Z.shiftl (Z.pos mx) (ex - ey - e')
               | 0 => Z.pos mx
               | Z.neg _ => 0
               end = P).
  { unfold P. destruct (ex - ey - e') as [ | p | p] eqn:E.
    - simpl. lia.
    - rewrite <- E. rewrite Z.shiftl_mul_pow2 by lia. reflexivity.
    - lia. }
  rewrite EP.
  assert (Eq : Z.div_eucl P (Z.pos my) = (P / Z.pos my, P mod Z.pos my))
    by (unfold Z.div, Z.modulo; now destruct (Z.div_eucl P (Z.pos my))).
  rewrite Eq, new_location_spec by (apply Z.mod_pos_bound; lia).
  now rewrite loc_of_mod by lia.
Qed.

Lemma SFdiv_finite (sx : bool) (mx : positive) (ex : Z)
    (sy : bool) (my : positive) (ey : Z) :
  rounds_to (SF2R (S754_finite sx mx ex) / SF2R (S754_finite sy my ey))
            (SFdiv prec emax (S754_finite sx mx ex) (S754_finite sy my ey)).
Proof using prec_gt_0 prec_lt_emax.
  cbn [SFdiv SF2R]. rewrite SFdiv_core_spec.
  set (z := Z.pos (digits2_pos mx) + ex - (Z.pos (digits2_pos my) + ey)).
  set (e' := Z.min (fexp' z) (ex - ey)).
  set (sh := ex - ey - e').
  assert (Hs : 0 <= sh) by (unfold sh, e'; lia).
  pose proof (pow2_pos sh Hs) as H2s.
  set (P := Z.pos mx * 2 ^ sh).
  assert (HP : 0 < P) by (unfold P; lia).
  pose proof (bpow_pos ex). pose proof (bpow_pos ey). pose proof (bpow_pos e').
  assert (Hmy : (0 < IZR (Z.pos my))%R) by (apply IZR_lt; lia).
  replace (sgn sx (IZR (Z.pos mx) * bpow ex) / sgn sy (IZR (Z.pos my) * bpow ey))%R
    with (sgn (xorb sx sy) (IZR P / IZR (Z.pos my) * bpow e')).
  - apply round_signed; [lia | lia | ].
    pose proof (digits2_pos_bounds mx) as [Hlx Hux].
    pose proof (digits2_pos_bounds my) as [Hly Huy].
    set (dx := Z.pos (digits2_pos mx)) in *.
    set (dy := Z.pos (digits2_pos my)) in *.
    assert (Hdx : 0 < dx) by (unfold dx; lia).
    assert (Hdy : 0 < dy) by (unfold dy; lia).
    assert (Hq0 : 0 <= P / Z.pos my) by (apply Z.div_pos; lia).
    destruct (Z.le_gt_cases e' emin') as [Hsmall | Hbig].
    + unfold fexp. lia.
    + assert (Ef : fexp' z = z - prec) by (unfold e', fexp in *; lia).
      assert (Hsh : prec - dx + dy <= sh) by (unfold sh, e', z in *; lia).
      assert (Hq : 2 ^ (prec - 1) <= P / Z.pos my).
      { apply Z.div_le_lower_bound; [lia | ].
        apply Z.le_trans with (2 ^ dy * 2 ^ (prec - 1)).
        - apply Z.mul_le_mono_nonneg_r; [ | lia].
          pose proof (pow2_pos (prec - 1) ltac:(lia)). lia.
        - apply Z.le_trans with (2 ^ (dx - 1) * 2 ^ sh).
          + rewrite <- !Z.pow_add_r by lia. apply Z.pow_le_mono_r; lia.
          + unfold P. apply Z.mul_le_mono_nonneg_r; lia. }
      pose proof (Zdigits2_ge (P / Z.pos my) (prec - 1) ltac:(lia) Hq).
      unfold fexp. lia.
  - assert (E1 : bpow ex = (bpow ey * bpow sh * bpow e')%R).
    { rewrite <- !bpow_add. f_equal. unfold sh. lia. }
    unfold P. rewrite mult_IZR, <- bpow_IZR, E1 by lia.
    destruct sx, sy; simpl; field; lra.
Qed.


(** *** Comparison of valid floats *)

Definition cmp_mag (m1 : positive) (e1 : Z) (m2 : positive) (e2 : Z) : comparison :=
  match e1 ?= e2 with
  | Lt => Lt
  | Gt => Gt
  | Eq => Pos.compare_cont Eq m1 m2
  end.

Lemma cmp_mag_spec (m1 : positive) (e1 : Z) (m2 : positive) (e2 : Z) :
  bounded prec emax m1 e1 = true -> bounded prec emax m2 e2 = true ->
  match cmp_mag m1 e1 m2 e2 with
  | Lt => (IZR (Z.pos m1) * bpow e1 < IZR (Z.pos m2) * bpow e2)%R
  | Gt => (IZR (Z.pos m2) * bpow e2 < IZR (Z.pos m1) * bpow e1)%R
  | Eq => e1 = e2 /\ m1 = m2
  end.
Proof using prec_gt_0.
  intros H1 H2. unfold cmp_mag.
  destruct (Z.compare_spec e1 e2) as [E | L | G].
  - subst e2. change (Pos.compare_cont Eq m1 m2) with (m1 ?= m2)%positive.
    pose proof (bpow_pos e1).
    destruct (Pos.compare_spec m1 m2) as [E | L | G].
    + auto.
    + apply Rmult_lt_compat_r; [lra | apply IZR_lt; lia].
    + apply Rmult_lt_compat_r; [lra | apply IZR_lt; lia].
  - now apply finite_lt_by_exponent.
  - now apply finite_lt_by_exponent.
Qed.

Lemma SFcompare_finite (s1 : bool) (m1 : positive) (e1 : Z)
    (s2 : bool) (m2 : positive) (e2 : Z) :
  SFcompare (S754_finite s1 m1 e1) (S754_finite s2 m2 e2)
  = Some match s1, s2 with
         | true, false => Lt
         | false, true => Gt
         | false, false => cmp_mag m1 e1 m2 e2
         | true, true => CompOpp (cmp_mag m1 e1 m2 e2)
         end.
Proof.
  unfold cmp_mag. cbn [SFcompare]. destruct s1, s2; try reflexivity.
  now destruct (e1 ?= e2).
Qed.

Lemma pos_value (m : positive) (e : Z) : (0 < IZR (Z.pos m) * bpow e)%R.
Proof.
  apply Rmult_lt_0_compat; [apply IZR_lt; lia | apply bpow_pos].
Qed.

(** The order of the values gives the order of the floats. *)
Lemma result_value_leb (r t : spec_float) (v w : R) :
  valid_binary prec emax r = true -> valid_binary prec emax t = true ->
  result_value r v -> result_value t w -> (v <= w)%R ->
  SFleb r t = true.
Proof using prec_gt_0.
  intros Vr Vt Hr Ht Hle. pose proof (bpow_pos emax) as Hmax.
  destruct r as [sr | sr | | sr mr er], t as [st | st | | st mt et];
    cbn [result_value] in Hr, Ht; try contradiction.
  - reflexivity.
  - destruct st; [exfalso; lra | reflexivity].
  - destruct Ht as [-> _]. pose proof (pos_value mt et).
    destruct st; simpl in *; [exfalso; lra | reflexivity].
  - destruct sr; [reflexivity | exfalso; lra].
  - destruct sr, st; try reflexivity. exfalso; lra.
  - destruct Ht as [-> Hb]. unfold Rabs in Hb.
    destruct sr; [reflexivity | ].
    exfalso. destruct (Rcase_abs _); lra.
  - destruct Hr as [-> _]. pose proof (pos_value mr er).
    destruct sr; simpl in *; [reflexivity | exfalso; lra].
  - destruct Hr as [-> Hb]. unfold Rabs in Hb.
    destruct st; [ | reflexivity].
    exfalso. destruct (Rcase_abs _); lra.
  - destruct Hr as [-> _], Ht as [-> _].
    unfold SFleb. rewrite SFcompare_finite.
    pose proof (cmp_mag_spec mr er mt et Vr Vt) as Hc.
    pose proof (pos_value mr er). pose proof (pos_value mt et).
    destruct sr, st; simpl in Hle; try reflexivity; try (exfalso; lra);
      destruct (cmp_mag mr er mt et); simpl; try reflexivity; exfalso; lra.
Qed.

Lemma rounds_to_leb (x y : R) (r t : spec_float) :
  valid_binary prec emax r = true -> valid_binary prec emax t = true ->
  rounds_to x r -> rounds_to y t -> (x < y)%R -> SFleb r t = true.
Proof using prec_gt_0.
  intros Vr Vt (v & Nv & Hv) (w & Nw & Hw) Hxy.
  apply (result_value_leb r t v w); auto.
  now apply (nearest_monotone v w x y).
Qed.

Lemma rounds_to_not_nan (x : R) : ~ rounds_to x S754_nan.
Proof. intros (v & _ & []). Qed.

Lemma SFleb_refl (r : spec_float) : r <> S754_nan -> SFleb r r = true.
Proof.
  destruct r as [s | s | | s m e]; try congruence; intros _.
  - reflexivity.
  - now destruct s.
  - unfold SFleb. rewrite SFcompare_finite. unfold cmp_mag.
    rewrite Z.compare_refl.
    change (Pos.compare_cont Eq m m) with (m ?= m)%positive.
    rewrite Pos.compare_refl. now destruct s.
Qed.

Lemma SFleb_neg_inf (t : spec_float) :
  t <> S754_nan -> SFleb (S754_infinity true) t = true.
Proof. destruct t as [s | [] | | s m e]; try congruence; reflexivity. Qed.

Lemma SFleb_pos_inf (r : spec_float) :
  r <> S754_nan -> SFleb r (S754_infinity false) = true.
Proof. destruct r as [s | [] | | s m e]; try congruence; reflexivity. Qed.

(** What [a <= b] says of two valid floats. *)
Lemma SFleb_cases (a b : spec_float) :
  valid_binary prec emax a = true -> valid_binary prec emax b = true ->
  SFleb a b = true ->
  a = S754_infinity true \/ b = S754_infinity false
  \/ (is_finite_SF a = true /\ is_finite_SF b = true
      /\ ((SF2R a < SF2R b)%R \/ a = b
          \/ exists s1 s2 : bool, a = S754_zero s1 /\ b = S754_zero s2)).
Proof using prec_gt_0.
  intros Va Vb H.
  destruct a as [sa | sa | | sa ma ea], b as [sb | sb | | sb mb eb];
    try discriminate H.
  - right; right. split; [ | split]; try reflexivity. right; right; eauto.
  - destruct sb; [discriminate H | auto].
  - right; right. split; [ | split]; try reflexivity. left.
    pose proof (pos_value mb eb). destruct sb; [discriminate H | simpl; lra].
  - destruct sa; [auto | discriminate H].
  - destruct sa; [auto | ]. destruct sb; [discriminate H | auto].
  - destruct sa; [auto | discriminate H].
  - right; right. split; [ | split]; try reflexivity. left.
    pose proof (pos_value ma ea). destruct sa; [simpl; lra | discriminate H].
  - destruct sb; [discriminate H | auto].
  - right; right. split; [ | split]; try reflexivity.
    unfold SFleb in H. rewrite SFcompare_finite in H.
    pose proof (cmp_mag_spec ma ea mb eb Va Vb) as Hc.
    pose proof (pos_value ma ea). pose proof (pos_value mb eb).
    destruct sa, sb; simpl; try discriminate H;
      destruct (cmp_mag ma ea mb eb); simpl in H; try discriminate H;
      try (left; lra); try (right; left; destruct Hc; congruence).
Qed.

(** *** Operations that keep the order *)

Section Monotone.
Variable F : spec_float -> spec_float.
Variable g : R -> R.
Hypothesis F_rounds : forall a : spec_float,
  valid_binary prec emax a = true -> is_finite_SF a = true ->
  rounds_to (g (SF2R a)) (F a).
Hypothesis F_zeros : forall s1 s2 : bool,
  SFleb (F (S754_zero s1)) (F (S754_zero s2)) = true.

Lemma F_finite_not_nan (a : spec_float) :
  valid_binary prec emax a = true -> is_finite_SF a = true -> F a <> S754_nan.
Proof using F_rounds.
  intros Va Fa E. apply (rounds_to_not_nan (g (SF2R a))).
  rewrite <- E. now apply F_rounds.
Qed.

Lemma increasing_op (a b : spec_float) :
  (forall x y : R, (x < y)%R -> (g x < g y)%R) ->
  (forall s : bool, F (S754_infinity s) = S754_infinity s) ->
  valid_binary prec emax a = true -> valid_binary prec emax b = true ->
  valid_binary prec emax (F a) = true -> valid_binary prec emax (F b) = true ->
  SFleb a b = true -> SFleb (F a) (F b) = true.
Proof using F_rounds F_zeros prec_gt_0.
  intros Hg Hinf Va Vb VFa VFb Hle.
  assert (Hnan : forall c : spec_float,
             valid_binary prec emax c = true -> c <> S754_nan -> F c <> S754_nan).
  { intros c Vc Hc. destruct c as [s | s | | s m e]; try congruence;
      now apply F_finite_not_nan. }
  assert (Na : a <> S754_nan) by (intros ->; discriminate Hle).
  assert (Nb : b <> S754_nan) by (intros ->; destruct a; discriminate Hle).
  destruct (SFleb_cases a b Va Vb Hle)
    as [-> | [-> | (Fa & Fb & [Hlt | [-> | (s1 & s2 & -> & ->)]])]].
  - rewrite Hinf. apply SFleb_neg_inf. now apply Hnan.
  - rewrite Hinf. apply SFleb_pos_inf. now apply Hnan.
  - apply (rounds_to_leb (g (SF2R a)) (g (SF2R b))); auto.
  - apply SFleb_refl. now apply Hnan.
  - apply F_zeros.
Qed.

Lemma decreasing_op (a b : spec_float) :
  (forall x y : R, (x < y)%R -> (g y < g x)%R) ->
  (forall s : bool, F (S754_infinity s) = S754_infinity (negb s)) ->
  valid_binary prec emax a = true -> valid_binary prec emax b = true ->
  valid_binary prec emax (F a) = true -> valid_binary prec emax (F b) = true ->
  SFleb a b = true -> SFleb (F b) (F a) = true.
Proof using F_rounds F_zeros prec_gt_0.
  intros Hg Hinf Va Vb VFa VFb Hle.
  assert (Hnan : forall c : spec_float,
             valid_binary prec emax c = true -> c <> S754_nan -> F c <> S754_nan).
  { intros c Vc Hc. destruct c as [s | s | | s m e]; try congruence;
      now apply F_finite_not_nan. }
  assert (Na : a <> S754_nan) by (intros ->; discriminate Hle).
  assert (Nb : b <> S754_nan) by (intros ->; destruct a; discriminate Hle).
  destruct (SFleb_cases a b Va Vb Hle)
    as [-> | [-> | (Fa & Fb & [Hlt | [-> | (s1 & s2 & -> & ->)]])]].
  - rewrite Hinf. apply SFleb_pos_inf. now apply Hnan.
  - rewrite Hinf. apply SFleb_neg_inf. now apply Hnan.
  - apply (rounds_to_leb (g (SF2R b)) (g (SF2R a))); auto.
  - apply SFleb_refl. now apply Hnan.
  - apply F_zeros.
Qed.

End Monotone.


(** *** The four operations on floats of every kind *)

Lemma SFsub_rounds (a c : spec_float) :
  valid_binary prec emax a = true -> valid_binary prec emax c = true ->
  is_finite_SF a = true -> is_finite_SF c = true ->
  rounds_to (SF2R a - SF2R c) (SFsub prec emax a c).
Proof using prec_gt_0 prec_lt_emax.
  intros Va Vc Fa Fc.
  destruct a as [sa | sa | | sa ma ea], c as [sc | sc | | sc mc ec];
    try discriminate.
  - replace (SF2R (S754_zero sa) - SF2R (S754_zero sc))%R with 0%R
      by (simpl; ring).
    destruct sa, sc; apply rounds_to_0.
  - replace (SF2R (S754_zero sa) - SF2R (S754_finite sc mc ec))%R
      with (SF2R (S754_finite (negb sc) mc ec))
      by (destruct sc; simpl; ring).
    now apply valid_rounds_to_self.
  - replace (SF2R (S754_finite sa ma ea) - SF2R (S754_zero sc))%R
      with (SF2R (S754_finite sa ma ea)) by (simpl; ring).
    now apply valid_rounds_to_self.
  - apply SFsub_finite.
Qed.

Lemma SFadd_rounds (a c : spec_float) :
  valid_binary prec emax a = true -> valid_binary prec emax c = true ->
  is_finite_SF a = true -> is_finite_SF c = true ->
  rounds_to (SF2R a + SF2R c) (SFadd prec emax a c).
Proof using prec_gt_0 prec_lt_emax.
  intros Va Vc Fa Fc.
  destruct a as [sa | sa | | sa ma ea], c as [sc | sc | | sc mc ec];
    try discriminate.
  - replace (SF2R (S754_zero sa) + SF2R (S754_zero sc))%R with 0%R
      by (simpl; ring).
    destruct sa, sc; apply rounds_to_0.
  - replace (SF2R (S754_zero sa) + SF2R (S754_finite sc mc ec))%R
      with (SF2R (S754_finite sc mc ec)) by (simpl; ring).
    now apply valid_rounds_to_self.
  - replace (SF2R (S754_finite sa ma ea) + SF2R (S754_zero sc))%R
      with (SF2R (S754_finite sa ma ea)) by (simpl; ring).
    now apply valid_rounds_to_self.
  - apply SFadd_finite.
Qed.

Lemma SFmul_rounds (a c : spec_float) :
  valid_binary prec emax a = true -> valid_binary prec emax c = true ->
  is_finite_SF a = true -> is_finite_SF c = true ->
  rounds_to (SF2R a * SF2R c) (SFmul prec emax a c).
Proof using prec_gt_0 prec_lt_emax.
  intros Va Vc Fa Fc.
  destruct a as [sa | sa | | sa ma ea], c as [sc | sc | | sc mc ec];
    try discriminate.
  - replace (SF2R (S754_zero sa) * SF2R (S754_zero sc))%R with 0%R
      by (simpl; ring).
    apply rounds_to_0.
  - replace (SF2R (S754_zero sa) * SF2R (S754_finite sc mc ec))%R with 0%R
      by (simpl; ring).
    apply rounds_to_0.
  - replace (SF2R (S754_finite sa ma ea) * SF2R (S754_zero sc))%R with 0%R
      by (simpl; ring).
    apply rounds_to_0.
  - now apply SFmul_finite.
Qed.

Lemma SFdiv_rounds (a : spec_float) (sc : bool) (mc : positive) (ec : Z) :
  is_finite_SF a = true ->
  rounds_to (SF2R a / SF2R (S754_finite sc mc ec))
            (SFdiv prec emax a (S754_finite sc mc ec)).
Proof using prec_gt_0 prec_lt_emax.
  intros Fa. destruct a as [sa | sa | | sa ma ea]; try discriminate.
  - replace (SF2R (S754_zero sa) / SF2R (S754_finite sc mc ec))%R with 0%R.
    + apply rounds_to_0.
    + cbn [SF2R]. unfold Rdiv. now rewrite Rmult_0_l.
  - apply SFdiv_finite.
Qed.

Lemma SFsub_increasing (a b c : spec_float) :
  valid_binary prec emax a = true -> valid_binary prec emax b = true ->
  valid_binary prec emax c = true -> is_finite_SF c = true ->
  valid_binary prec emax (SFsub prec emax a c) = true ->
  valid_binary prec emax (SFsub prec emax b c) = true ->
  SFleb a b = true ->
  SFleb (SFsub prec emax a c) (SFsub prec emax b c) = true.
Proof using prec_gt_0 prec_lt_emax.
  intros Va Vb Vc Fc VFa VFb Hle.
  refine (increasing_op (fun a => SFsub prec emax a c)
            (fun x => (x - SF2R c)%R) _ _ a b _ _ Va Vb VFa VFb Hle).
  - intros a0 Va0 Fa0. now apply SFsub_rounds.
  - intros s1 s2. destruct c as [sc | sc | | sc mc ec]; try discriminate.
    + now destruct s1, s2, sc.
    + cbn [SFsub]. apply SFleb_refl. discriminate.
  - intros x y Hxy. lra.
  - intros s. destruct c as [sc | sc | | sc mc ec]; try discriminate; reflexivity.
Qed.

Lemma SFsub_decreasing (a b c : spec_float) :
  valid_binary prec emax a = true -> valid_binary prec emax b = true ->
  valid_binary prec emax c = true -> is_finite_SF c = true ->
  valid_binary prec emax (SFsub prec emax c a) = true ->
  valid_binary prec emax (SFsub prec emax c b) = true ->
  SFleb a b = true ->
  SFleb (SFsub prec emax c b) (SFsub prec emax c a) = true.
Proof using prec_gt_0 prec_lt_emax.
  intros Va Vb Vc Fc VFa VFb Hle.
  refine (decreasing_op (fun a => SFsub prec emax c a)
            (fun x => (SF2R c - x)%R) _ _ a b _ _ Va Vb VFa VFb Hle).
  - intros a0 Va0 Fa0. now apply SFsub_rounds.
  - intros s1 s2. destruct c as [sc | sc | | sc mc ec]; try discriminate.
    + now destruct s1, s2, sc.
    + cbn [SFsub]. apply SFleb_refl. discriminate.
  - intros x y Hxy. lra.
  - intros s. destruct c as [sc | sc | | sc mc ec]; try discriminate; reflexivity.
Qed.

Lemma SFadd_increasing (a b c : spec_float) :
  valid_binary prec emax a = true -> valid_binary prec emax b = true ->
  valid_binary prec emax c = true -> is_finite_SF c = true ->
  valid_binary prec emax (SFadd prec emax c a) = true ->
  valid_binary prec emax (SFadd prec emax c b) = true ->
  SFleb a b = true ->
  SFleb (SFadd prec emax c a) (SFadd prec emax c b) = true.
Proof using prec_gt_0 prec_lt_emax.
  intros Va Vb Vc Fc VFa VFb Hle.
  refine (increasing_op (fun a => SFadd prec emax c a)
            (fun x => (SF2R c + x)%R) _ _ a b _ _ Va Vb VFa VFb Hle).
  - intros a0 Va0 Fa0. now apply SFadd_rounds.
  - intros s1 s2. destruct c as [sc | sc | | sc mc ec]; try discriminate.
    + now destruct s1, s2, sc.
    + cbn [SFadd]. apply SFleb_refl. discriminate.
  - intros x y Hxy. lra.
  - intros s. destruct c as [sc | sc | | sc mc ec]; try discriminate; reflexivity.
Qed.

Lemma SFdiv_increasing (a b : spec_float) (mc : positive) (ec : Z) :
  valid_binary prec emax a = true -> valid_binary prec emax b = true ->
  valid_binary prec emax (SFdiv prec emax a (S754_finite false mc ec)) = true ->
  valid_binary prec emax (SFdiv prec emax b (S754_finite false mc ec)) = true ->
  SFleb a b = true ->
  SFleb (SFdiv prec emax a (S754_finite false mc ec))
        (SFdiv prec emax b (S754_finite false mc ec)) = true.
Proof using prec_gt_0 prec_lt_emax.
  intros Va Vb VFa VFb Hle.
  refine (increasing_op (fun a => SFdiv prec emax a (S754_finite false mc ec))
            (fun x => (x / SF2R (S754_finite false mc ec))%R)
            _ _ a b _ _ Va Vb VFa VFb Hle).
  - intros a0 Va0 Fa0. now apply SFdiv_rounds.
  - intros s1 s2. reflexivity.
  - intros x y Hxy. pose proof (pos_value mc ec). simpl.
    apply Rmult_lt_compat_r; [ | exact Hxy]. now apply Rinv_0_lt_compat.
  - intros s. now destruct s.
Qed.

Lemma SFmul_increasing (a b : spec_float) (mc : positive) (ec : Z) :
  valid_binary prec emax a = true -> valid_binary prec emax b = true ->
  bounded prec emax mc ec = true ->
  valid_binary prec emax (SFmul prec emax a (S754_finite false mc ec)) = true ->
  valid_binary prec emax (SFmul prec emax b (S754_finite false mc ec)) = true ->
  SFleb a b = true ->
  SFleb (SFmul prec emax a (S754_finite false mc ec))
        (SFmul prec emax b (S754_finite false mc ec)) = true.
Proof using prec_gt_0 prec_lt_emax.
  intros Va Vb Vc VFa VFb Hle.
  refine (increasing_op (fun a => SFmul prec emax a (S754_finite false mc ec))
            (fun x => (x * SF2R (S754_finite false mc ec))%R)
            _ _ a b _ _ Va Vb VFa VFb Hle).
  - intros a0 Va0 Fa0. now apply SFmul_rounds.
  - intros s1 s2. reflexivity.
  - intros x y Hxy. pose proof (pos_value mc ec). simpl.
    apply Rmult_lt_compat_r; assumption.
  - intros s. now destruct s.
Qed.

(** *** Results that are exact *)

Lemma SFleb_antisym_finite (r : spec_float) (s : bool) (m : positive) (e : Z) :
  valid_binary prec emax r = true -> bounded prec emax m e = true ->
  SFleb r (S754_finite s m e) = true -> SFleb (S754_finite s m e) r = true ->
  r = S754_finite s m e.
Proof using prec_gt_0.
  intros Vr Vt H1 H2.
  destruct r as [sr | sr | | sr mr er]; try discriminate.
  - destruct s; discriminate.
  - destruct sr, s; discriminate.
  - unfold SFleb in H1, H2. rewrite SFcompare_finite in H1, H2.
    pose proof (cmp_mag_spec mr er m e Vr Vt) as Hc.
    pose proof (cmp_mag_spec m e mr er Vt Vr) as Hc'.
    destruct sr, s; try discriminate;
      destruct (cmp_mag mr er m e), (cmp_mag m e mr er);
      try discriminate; try (destruct Hc; congruence);
      try (destruct Hc'; congruence); exfalso; lra.
Qed.

Lemma rounds_to_exact (r : spec_float) (s : bool) (m : positive) (e : Z) :
  valid_binary prec emax r = true -> bounded prec emax m e = true ->
  rounds_to (SF2R (S754_finite s m e)) r -> r = S754_finite s m e.
Proof using prec_gt_0.
  intros Vr Vt (v & Hn & Hv).
  assert (E : v = SF2R (S754_finite s m e))
    by (apply nearest_exact; [exact Hn | now apply valid_in_format]).
  subst v.
  pose proof (valid_result_value (S754_finite s m e) Vt eq_refl) as Ht.
  apply SFleb_antisym_finite; auto.
  - apply (result_value_leb r (S754_finite s m e) _ _ Vr Vt Hv Ht). lra.
  - apply (result_value_leb (S754_finite s m e) r _ _ Vt Vr Ht Hv). lra.
Qed.

Lemma SFsub_diag (c : spec_float) :
  is_finite_SF c = true -> SFsub prec emax c c = S754_zero false.
Proof.
  destruct c as [[] | sc | | sc mc ec]; try discriminate; try reflexivity.
  intros _. cbn [SFsub]. now rewrite Z.sub_diag.
Qed.

End Format.

End Rounding.

(** ** The operations of binary64 *)

(** The facts of [Rounding] for the format of the primitive floats, read
    through the axioms that tie each primitive operation to its
    specification. *)

Module Float64.
Import SpecFloat Rounding.
Local Open Scope float_scope.

Lemma prec_gt_0 : (0 < prec)%Z.
Proof. reflexivity. Qed.

Lemma prec_lt_emax : (prec < emax)%Z.
Proof. reflexivity. Qed.

Lemma is_nan_spec (x : float) :
  is_nan x = match Prim2SF x with S754_nan => true | _ => false end.
Proof.
  unfold is_nan. rewrite FloatAxioms.eqb_spec. unfold SFeqb.
  destruct (Prim2SF x) as [s | s | | s m e]; try reflexivity.
  - now destruct s.
  - pose proof (SFleb_refl (S754_finite s m e) ltac:(discriminate)) as H.
    unfold SFleb in H. rewrite SFcompare_finite in *.
    unfold cmp_mag in *. rewrite Z.compare_refl in *.
    change (Pos.compare_cont Eq m m) with (m ?= m)%positive in *.
    rewrite Pos.compare_refl in *. now destruct s.
Qed.

Lemma is_finite_spec (x : float) : is_finite x = is_finite_SF (Prim2SF x).
Proof.
  unfold is_finite, is_infinity. rewrite is_nan_spec, FloatAxioms.eqb_spec, FloatAxioms.abs_spec.
  change (Prim2SF infinity) with (S754_infinity false).
  destruct (Prim2SF x) as [s | s | | s m e]; try reflexivity.
Qed.

Lemma Prim2SF_zero : Prim2SF 0 = S754_zero false.
Proof. reflexivity. Qed.

Lemma Prim2SF_one : Prim2SF 1 = S754_finite false 4503599627370496 (-52).
Proof. reflexivity. Qed.

Lemma SF2R_one : SF2R (S754_finite false 4503599627370496 (-52)) = 1%R.
Proof.
  cbn [SF2R sgn]. change 4503599627370496%Z with (2 ^ 52)%Z.
  rewrite <- bpow_IZR, <- bpow_add by lia. reflexivity.
Qed.

(** A float that is finite and above zero. *)
Lemma positive_finite (d : float) :
  is_finite d = true -> (0 <? d) = true ->
  exists (m : positive) (e : Z), Prim2SF d = S754_finite false m e.
Proof.
  rewrite is_finite_spec, FloatAxioms.ltb_spec, Prim2SF_zero.
  destruct (Prim2SF d) as [s | s | | [] m e]; try discriminate; eauto.
Qed.

(** A float that is finite and not zero. *)
Lemma nonzero_finite (d : float) :
  is_finite d = true -> (d =? 0) = false ->
  exists (s : bool) (m : positive) (e : Z), Prim2SF d = S754_finite s m e.
Proof.
  rewrite is_finite_spec, FloatAxioms.eqb_spec, Prim2SF_zero.
  destruct (Prim2SF d) as [s | s | | s m e]; try discriminate; eauto.
Qed.

Lemma is_zero_spec (x : float) (s : bool) :
  Prim2SF x = S754_zero s -> (x =? 0) = true.
Proof. intros H. now rewrite FloatAxioms.eqb_spec, H, Prim2SF_zero. Qed.

(** *** The order is kept by a subtraction, and by a division and a
    multiplication by a positive number *)

Lemma leb_sub_l (a b c : float) :
  is_finite c = true -> (a <=? b) = true -> (a - c <=? b - c) = true.
Proof.
  rewrite is_finite_spec, !FloatAxioms.leb_spec. intros Hc H.
  pose proof (Prim2SF_valid (a - c)) as Va. pose proof (Prim2SF_valid (b - c)) as Vb.
  rewrite !sub_spec in *. unfold SF64sub in *.
  apply SFsub_increasing; auto using prec_gt_0, prec_lt_emax, Prim2SF_valid.
Qed.

Lemma leb_sub_r (a b c : float) :
  is_finite c = true -> (a <=? b) = true -> (c - b <=? c - a) = true.
Proof.
  rewrite is_finite_spec, !FloatAxioms.leb_spec. intros Hc H.
  pose proof (Prim2SF_valid (c - a)) as Va. pose proof (Prim2SF_valid (c - b)) as Vb.
  rewrite !sub_spec in *. unfold SF64sub in *.
  apply SFsub_decreasing; auto using prec_gt_0, prec_lt_emax, Prim2SF_valid.
Qed.

Lemma leb_add_r (a b c : float) :
  is_finite c = true -> (a <=? b) = true -> (c + a <=? c + b) = true.
Proof.
  rewrite is_finite_spec, !FloatAxioms.leb_spec. intros Hc H.
  pose proof (Prim2SF_valid (c + a)) as Va. pose proof (Prim2SF_valid (c + b)) as Vb.
  rewrite !add_spec in *. unfold SF64add in *.
  apply SFadd_increasing; auto using prec_gt_0, prec_lt_emax, Prim2SF_valid.
Qed.

Lemma leb_div (a b d : float) :
  is_finite d = true -> (0 <? d) = true -> (a <=? b) = true ->
  (a / d <=? b / d) = true.
Proof.
  intros Hd Hp. destruct (positive_finite d Hd Hp) as (m & e & Ed).
  rewrite !FloatAxioms.leb_spec. intros H.
  pose proof (Prim2SF_valid (a / d)) as Va. pose proof (Prim2SF_valid (b / d)) as Vb.
  rewrite !div_spec in *. unfold SF64div in *. rewrite Ed in *.
  apply SFdiv_increasing; auto using prec_gt_0, prec_lt_emax, Prim2SF_valid.
Qed.

Lemma leb_mul (a b W : float) :
  is_finite W = true -> (0 <? W) = true -> (a <=? b) = true ->
  (a * W <=? b * W) = true.
Proof.
  intros HW Hp. destruct (positive_finite W HW Hp) as (m & e & EW).
  rewrite !FloatAxioms.leb_spec. intros H.
  pose proof (Prim2SF_valid (a * W)) as Va. pose proof (Prim2SF_valid (b * W)) as Vb.
  pose proof (Prim2SF_valid W) as VW.
  rewrite !mul_spec in *. unfold SF64mul in *. rewrite EW in *.
  apply SFmul_increasing; auto using prec_gt_0, prec_lt_emax, Prim2SF_valid.
Qed.

(** *** Results that are exact *)

Lemma sub_self (c : float) : is_finite c = true -> c - c = 0.
Proof.
  rewrite is_finite_spec. intros Hc. apply Prim2SF_inj.
  rewrite sub_spec, Prim2SF_zero. now apply SFsub_diag.
Qed.

Lemma div_self (d : float) : is_finite d = true -> (d =? 0) = false -> d / d = 1.
Proof.
  intros Hd Hn. destruct (nonzero_finite d Hd Hn) as (s & m & e & Ed).
  apply Prim2SF_inj. rewrite Prim2SF_one.
  pose proof (Prim2SF_valid (d / d)) as V.
  rewrite !div_spec in *. unfold SF64div in *. rewrite Ed in *.
  apply (rounds_to_exact prec emax prec_gt_0); [exact V | reflexivity | ].
  rewrite SF2R_one.
  replace 1%R with (SF2R (S754_finite s m e) / SF2R (S754_finite s m e))%R.
  - apply SFdiv_finite; auto using prec_gt_0, prec_lt_emax.
  - unfold Rdiv. apply Rinv_r. pose proof (pos_value m e).
    destruct s; simpl; lra.
Qed.

Lemma mul_one_l (W : float) : 1 * W = W.
Proof.
  apply Prim2SF_inj. pose proof (Prim2SF_valid (1 * W)) as V.
  pose proof (Prim2SF_valid W) as VW.
  rewrite mul_spec in *. unfold SF64mul in *. rewrite Prim2SF_one in *.
  destruct (Prim2SF W) as [s | s | | s m e] eqn:EW; try reflexivity.
  apply (rounds_to_exact prec emax prec_gt_0); [exact V | exact VW | ].
  replace (SF2R (S754_finite s m e))
    with (SF2R (S754_finite false 4503599627370496 (-52)) * SF2R (S754_finite s m e))%R
    by (rewrite SF2R_one; ring).
  apply SFmul_finite; auto using prec_gt_0, prec_lt_emax.
Qed.

Lemma zero_div_mul (d W : float) :
  is_finite d = true -> (d =? 0) = false -> is_finite W = true ->
  (0 / d * W =? 0) = true.
Proof.
  intros Hd Hn HW. destruct (nonzero_finite d Hd Hn) as (s & m & e & Ed).
  rewrite is_finite_spec in HW.
  assert (E : exists z : bool, Prim2SF (0 / d * W) = S754_zero z).
  { rewrite mul_spec, div_spec, Prim2SF_zero, Ed. cbn [SF64div SFdiv].
    destruct (Prim2SF W) as [sw | sw | | sw mw ew]; try discriminate;
      cbn [SF64mul SFmul]; eauto. }
  destruct E as [z E]. exact (is_zero_spec _ z E).
Qed.

Lemma sub_finite_args (a b : float) :
  is_finite (a - b) = true -> is_finite a = true /\ is_finite b = true.
Proof.
  rewrite !is_finite_spec, sub_spec.
  destruct (Prim2SF a) as [[] | [] | | sa ma ea],
           (Prim2SF b) as [[] | [] | | sb mb eb];
    cbn [SF64sub SFsub is_finite_SF]; auto.
Qed.

Lemma leb_of_zero (a b : float) :
  (a =? 0) = true -> (a <=? b) = true -> (0 <=? b) = true.
Proof.
  rewrite FloatAxioms.eqb_spec, !FloatAxioms.leb_spec, Prim2SF_zero.
  destruct (Prim2SF a) as [sa | sa | | sa ma ea]; try discriminate.
  - intros _ H. now destruct (Prim2SF b).
  - destruct sa; discriminate.
  - unfold SFeqb. cbn [SFcompare]. destruct sa; discriminate.
Qed.

Lemma leb_trans (a b c : float) :
  (a <=? b) = true -> (b <=? c) = true -> (a <=? c) = true.
Proof.
  rewrite !FloatAxioms.leb_spec. intros H1 H2.
  pose proof (Prim2SF_valid a) as Va. pose proof (Prim2SF_valid b) as Vb.
  pose proof (Prim2SF_valid c) as Vc.
  assert (Nb : Prim2SF b <> S754_nan) by (intros E; rewrite E in H2; discriminate H2).
  assert (Na : Prim2SF a <> S754_nan) by (intros E; rewrite E in H1; discriminate H1).
  assert (Nc : Prim2SF c <> S754_nan)
    by (intros E; rewrite E in H2; destruct (Prim2SF b); discriminate H2).
  destruct (SFleb_cases prec emax prec_gt_0 _ _ Va Vb H1)
    as [-> | [E | (Fa & Fb & Hab)]].
  - now apply SFleb_neg_inf.
  - rewrite E in H2.
    destruct (Prim2SF c) as [sc | [] | | sc mc ec]; try discriminate H2.
    now apply SFleb_pos_inf.
  - destruct (SFleb_cases prec emax prec_gt_0 _ _ Vb Vc H2)
      as [E | [-> | (_ & Fc & Hbc)]].
    + rewrite E in Fb. discriminate Fb.
    + now apply SFleb_pos_inf.
    + apply (result_value_leb prec emax prec_gt_0 (Prim2SF a) (Prim2SF c)
               (SF2R (Prim2SF a)) (SF2R (Prim2SF c)) Va Vc
               (valid_result_value prec emax prec_gt_0 _ Va Fa)
               (valid_result_value prec emax prec_gt_0 _ Vc Fc)).
      assert (SF2R (Prim2SF a) <= SF2R (Prim2SF b))%R.
      { destruct Hab as [? | [E1 | (s1 & s2 & E1 & E2)]];
          [lra | rewrite E1; lra | rewrite E1, E2; simpl; lra]. }
      assert (SF2R (Prim2SF b) <= SF2R (Prim2SF c))%R.
      { destruct Hbc as [? | [E1 | (s1 & s2 & E1 & E2)]];
          [lra | rewrite E1; lra | rewrite E1, E2; simpl; lra]. }
      lra.
Qed.

(** *** NaN *)

Lemma div_collapse (v H : float) : is_nan ((v - v) / (v - v) * H) = true.
Proof.
  rewrite is_nan_spec, mul_spec, div_spec, sub_spec.
  destruct (Prim2SF v) as [[] | [] | | s m e] eqn:E; try reflexivity.
  unfold SF64sub. rewrite (SFsub_diag prec emax (S754_finite s m e) eq_refl).
  reflexivity.
Qed.

Lemma ltb_irrefl (v : float) : (v <? v) = false.
Proof.
  rewrite FloatAxioms.ltb_spec. unfold SFltb.
  destruct (Prim2SF v) as [s | [] | | s m e]; try reflexivity.
  rewrite SFcompare_finite. unfold cmp_mag. rewrite Z.compare_refl.
  change (Pos.compare_cont Eq m m) with (m ?= m)%positive.
  rewrite Pos.compare_refl. now destruct s.
Qed.

End Float64.

(** ** Geometry Projector on binary64 *)

Module ProjectorFloats.
Import Binary64 Float64.
Local Open Scope float_scope.

(** The argument that mercY hands to Math.tan. *)
Definition angle (lat : float) : float := Math_PI / 4 + (lat * Math_PI / 180) / 2.

(** The four corners of the bounds: north-west, north-east, south-west,
    south-east. *)
Definition corners (b : Bounds) : list GeoPoint :=
  [ {| lat := north b; lng := west b |}; {| lat := north b; lng := east b |};
    {| lat := south b; lng := west b |}; {| lat := south b; lng := east b |} ].

Lemma angle_increasing (a b : float) :
  (a <=? b) = true -> (angle a <=? angle b) = true.
Proof.
  intros H. unfold angle.
  apply leb_add_r; [reflexivity | ].
  apply leb_div; [reflexivity | reflexivity | ].
  apply leb_div; [reflexivity | reflexivity | ].
  apply leb_mul; [reflexivity | reflexivity | exact H].
Qed.

Lemma abscissa_increasing (a b lo span size : float) :
  is_finite lo = true -> is_finite span = true -> (0 <? span) = true ->
  is_finite size = true -> (0 <? size) = true -> (a <=? b) = true ->
  ((a - lo) / span * size <=? (b - lo) / span * size) = true.
Proof.
  intros Hlo Hs Hsp Hz Hzp Hab.
  apply leb_mul; [assumption .. | ]. apply leb_div; [assumption .. | ].
  now apply leb_sub_l.
Qed.

Lemma ordinate_decreasing (a b hi span size : float) :
  is_finite hi = true -> is_finite span = true -> (0 <? span) = true ->
  is_finite size = true -> (0 <? size) = true -> (a <=? b) = true ->
  ((hi - b) / span * size <=? (hi - a) / span * size) = true.
Proof.
  intros Hhi Hs Hsp Hz Hzp Hab.
  apply leb_mul; [assumption .. | ]. apply leb_div; [assumption .. | ].
  now apply leb_sub_r.
Qed.

Lemma positive_not_zero (d : float) :
  is_finite d = true -> (0 <? d) = true -> (d =? 0) = false.
Proof.
  intros Hd Hp. destruct (positive_finite d Hd Hp) as (m & e & E).
  now rewrite FloatAxioms.eqb_spec, E.
Qed.

Section AnyMath.
Variables Math_log Math_tan : float -> float.

#[local] Abbreviation mercY' := (mercY Math_log Math_tan).
#[local] Abbreviation projectAll' := (projectAll Math_log Math_tan).

(** C1. projectAll maps the longitude by an interpolation across the width
    and the latitude, through mercY(lat) = Math.log(Math.tan(Math.PI/4 +
    (lat*Math.PI/180)/2)), by an interpolation across the height. For every
    viewport whose two spans, east - west and mercY(north) - mercY(south),
    are computed finite and not zero, and whose width and height are finite,
    the four corners of the bounds map to the four corners of the container
    exactly: to (0,0), (W,0), (0,H) and (W,H), a zero having either sign. *)
Theorem corners_map_to_container (vp : Viewport) :
  let b := bounds vp in
  let W := width (containerRect vp) in
  let H := height (containerRect vp) in
  let yN := mercY' (north b) in
  let yS := mercY' (south b) in
  (forall l : float,
     mercY' l = Math_log (Math_tan (Math_PI / 4 + (l * Math_PI / 180) / 2)))
  /\ (forall p : GeoPoint,
        projectAll' [p] vp
        = [{| x := ((lng p - west b) / (east b - west b)) * W;
              y := ((yN - mercY' (lat p)) / (yN - yS)) * H |}])
  /\ (is_finite (east b - west b) = true -> (east b - west b =? 0) = false ->
      is_finite (yN - yS) = true -> (yN - yS =? 0) = false ->
      is_finite W = true -> is_finite H = true ->
      exists x0 y0 : float,
        (x0 =? 0) = true /\ (y0 =? 0) = true
        /\ projectAll' (corners b) vp
           = [ {| x := x0; y := y0 |}; {| x := W; y := y0 |};
               {| x := x0; y := H |}; {| x := W; y := H |} ]).
Proof.
  intros b W H yN yS. split; [reflexivity | split; [reflexivity | ]].
  intros Hd Hdn HD HDn HW HH.
  destruct (sub_finite_args _ _ Hd) as [_ Hwest].
  destruct (sub_finite_args _ _ HD) as [HyN _].
  exists ((west b - west b) / (east b - west b) * W),
         ((yN - yN) / (yN - yS) * H).
  split; [ | split].
  - rewrite sub_self by exact Hwest. now apply zero_div_mul.
  - rewrite sub_self by exact HyN. now apply zero_div_mul.
  - unfold projectAll, corners. cbn [map lat lng]. fold b W H yN yS.
    rewrite (div_self (east b - west b)) by assumption.
    rewrite (div_self (yN - yS)) by assumption.
    now rewrite !mul_one_l.
Qed.

(** C3. In a viewport whose span east - west is computed finite and positive
    and whose width is finite and positive, of two points the one with the
    longitude that is not smaller gets an x that is not smaller. The argument
    that mercY hands to Math.tan does not decrease with the latitude. In a
    viewport whose span mercY(north) - mercY(south) is computed finite and
    positive and whose height is finite and positive, of two points the one
    whose ordinate mercY(lat) is computed not smaller gets a y that is not
    larger; so, when Math.tan keeps the order of the arguments between 0 and
    Math.PI/2 and Math.log that of the numbers from 0 on, of two points with
    latitudes between -90 and 90 the one with the latitude that is not
    smaller gets a y that is not larger. *)
Theorem projectAll_monotonic (vp : Viewport) (p1 p2 : GeoPoint) :
  let b := bounds vp in
  let W := width (containerRect vp) in
  let H := height (containerRect vp) in
  let yN := mercY' (north b) in
  let yS := mercY' (south b) in
  (is_finite (east b - west b) = true -> (0 <? east b - west b) = true ->
   is_finite W = true -> (0 <? W) = true ->
   (lng p1 <=? lng p2) = true ->
   forall q1 q2 : ProjectedPoint,
     projectAll' [p1; p2] vp = [q1; q2] -> (x q1 <=? x q2) = true)
  /\ ((lat p1 <=? lat p2) = true ->
      (Math_PI / 4 + (lat p1 * Math_PI / 180) / 2
       <=? Math_PI / 4 + (lat p2 * Math_PI / 180) / 2) = true)
  /\ (is_finite (yN - yS) = true -> (0 <? yN - yS) = true ->
      is_finite H = true -> (0 <? H) = true ->
      (mercY' (lat p1) <=? mercY' (lat p2)) = true ->
      forall q1 q2 : ProjectedPoint,
        projectAll' [p1; p2] vp = [q1; q2] -> (y q2 <=? y q1) = true)
  /\ ((forall a c : float,
         (0 <=? a) = true -> (a <=? c) = true -> (c <=? Math_PI / 2) = true ->
         (Math_tan a <=? Math_tan c) = true) ->
      (0 <=? Math_tan 0) = true ->
      (forall s t : float,
         (0 <=? s) = true -> (s <=? t) = true ->
         (Math_log s <=? Math_log t) = true) ->
      is_finite (yN - yS) = true -> (0 <? yN - yS) = true ->
      is_finite H = true -> (0 <? H) = true ->
      (-90 <=? lat p1) = true -> (lat p1 <=? lat p2) = true ->
      (lat p2 <=? 90) = true ->
      forall q1 q2 : ProjectedPoint,
        projectAll' [p1; p2] vp = [q1; q2] -> (y q2 <=? y q1) = true).
Proof.
  intros b W H yN yS.
  assert (Hy : is_finite (yN - yS) = true -> (0 <? yN - yS) = true ->
               is_finite H = true -> (0 <? H) = true ->
               (mercY' (lat p1) <=? mercY' (lat p2)) = true ->
               forall q1 q2 : ProjectedPoint,
                 projectAll' [p1; p2] vp = [q1; q2] -> (y q2 <=? y q1) = true).
  { intros HD HDp HH HHp Hle q1 q2 [= <- <-]. cbn [y].
    destruct (sub_finite_args _ _ HD) as [HyN _].
    now apply ordinate_decreasing. }
  split; [ | split; [ | split]].
  - intros Hd Hdp HW HWp Hle q1 q2 [= <- <-]. cbn [x].
    destruct (sub_finite_args _ _ Hd) as [_ Hwest].
    now apply abscissa_increasing.
  - apply angle_increasing.
  - exact Hy.
  - intros Htan Htan0 Hlog HD HDp HH HHp Hlo Hle Hhi. apply Hy; try assumption.
    pose proof (angle_increasing _ _ Hlo) as A0.
    pose proof (angle_increasing _ _ Hle) as A1.
    pose proof (angle_increasing _ _ Hhi) as A2.
    change (angle (-90)) with 0 in A0.
    change (angle 90) with (Math_PI / 2) in A2.
    assert (T1 : (Math_tan (angle (lat p1)) <=? Math_tan (angle (lat p2))) = true)
      by (apply Htan; assumption).
    assert (T0 : (0 <=? Math_tan (angle (lat p1))) = true).
    { apply (leb_trans _ (Math_tan 0)); [exact Htan0 | ].
      apply Htan; [reflexivity | exact A0 | ].
      now apply (leb_trans _ (angle (lat p2))). }
    exact (Hlog _ _ T0 T1).
Qed.

(** X14. A point whose longitude is computed between west and east and
    whose ordinate mercY(lat) is computed between those of south and north
    is drawn inside the container: 0 <= x <= W and 0 <= y <= H, in every
    viewport whose two spans are computed finite and positive and whose
    width and height are finite and positive. *)
Theorem projectAll_inside_container (vp : Viewport) (p : GeoPoint) :
  let b := bounds vp in
  let W := width (containerRect vp) in
  let H := height (containerRect vp) in
  let yN := mercY' (north b) in
  let yS := mercY' (south b) in
  forall q : ProjectedPoint,
    projectAll' [p] vp = [q] ->
    (is_finite (east b - west b) = true -> (0 <? east b - west b) = true ->
     is_finite W = true -> (0 <? W) = true ->
     (west b <=? lng p) = true -> (lng p <=? east b) = true ->
     (0 <=? x q) = true /\ (x q <=? W) = true)
    /\ (is_finite (yN - yS) = true -> (0 <? yN - yS) = true ->
        is_finite H = true -> (0 <? H) = true ->
        (yS <=? mercY' (lat p)) = true -> (mercY' (lat p) <=? yN) = true ->
        (0 <=? y q) = true /\ (y q <=? H) = true).
Proof.
  intros b W H yN yS q [= <-]. cbn [x y]. fold b W H yN yS. split.
  - intros Hd Hdp HW HWp Hlo Hhi.
    pose proof (positive_not_zero _ Hd Hdp) as Hdn.
    destruct (sub_finite_args _ _ Hd) as [_ Hwest].
    pose proof (abscissa_increasing _ _ (west b) _ W Hwest Hd Hdp HW HWp Hlo) as Hx.
    pose proof (abscissa_increasing _ _ (west b) _ W Hwest Hd Hdp HW HWp Hhi) as Hx'.
    split.
    + refine (leb_of_zero _ _ _ Hx).
      rewrite sub_self by exact Hwest. now apply zero_div_mul.
    + rewrite (div_self (east b - west b)), mul_one_l in Hx' by assumption.
      exact Hx'.
  - intros HD HDp HH HHp Hlo Hhi.
    pose proof (positive_not_zero _ HD HDp) as HDn.
    destruct (sub_finite_args _ _ HD) as [HyN _].
    pose proof (ordinate_decreasing _ _ yN _ H HyN HD HDp HH HHp Hhi) as Hy.
    pose proof (ordinate_decreasing _ _ yN _ H HyN HD HDp HH HHp Hlo) as Hy'.
    split.
    + refine (leb_of_zero _ _ _ Hy).
      rewrite sub_self by exact HyN. now apply zero_div_mul.
    + rewrite (div_self (yN - yS)), mul_one_l in Hy' by assumption.
      exact Hy'.
Qed.

End AnyMath.

(** *** Samples *)

(** Math.tan and Math.log for the samples: the tangent and the logarithm
    rounded to the nearest double at the arguments the samples reach, NaN
    anywhere else. *)
Definition sampleTan (a : float) : float :=
  if a =? 0x1.409502ffa9e43p+0 then 0x1.842c1639f5f1bp+1
  else if a =? 0x1.400608ca974f4p+0 then 0x1.8157eec5e9131p+1
  else if a =? 0x1.404d85e52099cp+0 then 0x1.82c0d0fde8efcp+1
  else nan.

Definition sampleLog (t : float) : float :=
  if t =? 0x1.842c1639f5f1bp+1 then 0x1.1c02df50607cep+0
  else if t =? 0x1.8157eec5e9131p+1 then 0x1.1a238b12a307ep+0
  else if t =? 0x1.82c0d0fde8efcp+1 then 0x1.1b12db2873d12p+0
  else nan.

(** A viewport over Dublin, 800 by 600 pixels. *)
Definition dublin : Viewport :=
  {| bounds := {| north := 53.5; south := 53.25; east := -6.125; west := -6.375 |};
     containerRect := {| top := 0; left := 0; width := 800; height := 600 |} |}.

(** A viewport whose north is the double next above its south. *)
Definition thin : Viewport :=
  {| bounds := {| north := 0x1.4000000000001p+3; south := 10;
                  east := -6.125; west := -6.375 |};
     containerRect := {| top := 0; left := 0; width := 800; height := 600 |} |}.

(** A viewport across the meridian of Greenwich. *)
Definition greenwich : Viewport :=
  {| bounds := {| north := 53.5; south := 53.25; east := 0.0625; west := -0.125 |};
     containerRect := {| top := 0; left := 0; width := 800; height := 600 |} |}.

Lemma corners_map_to_container_witness :
  exists x0 y0 : float,
    (x0 =? 0) = true /\ (y0 =? 0) = true
    /\ projectAll sampleLog sampleTan (corners (bounds dublin)) dublin
       = [ {| x := x0; y := y0 |}; {| x := 800; y := y0 |};
           {| x := x0; y := 600 |}; {| x := 800; y := 600 |} ].
Proof.
  apply (proj2 (proj2 (corners_map_to_container sampleLog sampleTan dublin)));
    reflexivity.
Defined.

(** C1, as stated, fails: north = 10.000000000000002 is above south = 10, but
    Math.tan gets the same argument for both, so the span of the ordinates is
    0 or NaN and the y of every corner is NaN, whatever Math.tan and Math.log
    return. *)
Lemma thin_viewport_has_no_corner :
  ((south (bounds thin) <? north (bounds thin)) = true
   /\ (west (bounds thin) <? east (bounds thin)) = true
   /\ (0 <? width (containerRect thin)) = true
   /\ (0 <? height (containerRect thin)) = true
   /\ (-90 <? south (bounds thin)) = true
   /\ (north (bounds thin) <? 90) = true)
  /\ ~ exists (Math_log Math_tan : float -> float) (q : ProjectedPoint),
         In q (projectAll Math_log Math_tan (corners (bounds thin)) thin)
         /\ is_nan (y q) = false.
Proof.
  split; [repeat split | ].
  intros (Math_log & Math_tan & q & Hin & Hy).
  assert (E : forall l : float,
             In l [north (bounds thin); south (bounds thin)] ->
             mercY Math_log Math_tan l
             = Math_log (Math_tan 0x1.becde5da115a9p-1)).
  { intros l [<- | [<- | []]]; reflexivity. }
  unfold projectAll, corners in Hin. cbn [map lat lng In] in Hin.
  rewrite !E in Hin by (simpl; auto).
  destruct Hin as [<- | [<- | [<- | [<- | []]]]]; cbn [y] in Hy;
    rewrite div_collapse in Hy; discriminate Hy.
Qed.

Lemma projectAll_monotonic_witness :
  (exists q1 q2 : ProjectedPoint,
     projectAll sampleLog sampleTan
       [ {| lat := 53.25; lng := -6.25 |}; {| lat := 53.5; lng := -6.125 |} ] dublin
     = [q1; q2]
     /\ (x q1 <=? x q2) = true
     /\ (angle 53.25 <=? angle 53.5) = true
     /\ (y q2 <=? y q1) = true)
  /\ (exists q1 q2 : ProjectedPoint,
        projectAll (fun s => s) (fun a => a)
          [ {| lat := 53.25; lng := -6.25 |}; {| lat := 53.5; lng := -6.125 |} ]
          dublin
        = [q1; q2]
        /\ (y q2 <=? y q1) = true).
Proof.
  split.
  - pose proof (projectAll_monotonic sampleLog sampleTan dublin
                  {| lat := 53.25; lng := -6.25 |} {| lat := 53.5; lng := -6.125 |})
      as (Hx & Ha & Hy & _).
    eexists. eexists. split; [reflexivity | split; [ | split]].
    + apply Hx; reflexivity.
    + apply Ha. reflexivity.
    + apply Hy; reflexivity.
  - pose proof (projectAll_monotonic (fun s => s) (fun a => a) dublin
                  {| lat := 53.25; lng := -6.25 |} {| lat := 53.5; lng := -6.125 |})
      as (_ & _ & _ & Hy).
    eexists. eexists. split; [reflexivity | ].
    apply Hy; try reflexivity; auto.
Defined.

(** C3, as stated, fails: in a viewport with north > south, east > west and
    a positive width and height, the longitudes 0 and 2^-60 get the same x,
    and the latitude 53.375 and the double next above it get the same y,
    whatever Math.tan and Math.log return. *)
Lemma projectAll_ties :
  ((south (bounds greenwich) <? north (bounds greenwich)) = true
   /\ (west (bounds greenwich) <? east (bounds greenwich)) = true
   /\ (0 <? width (containerRect greenwich)) = true
   /\ (0 <? height (containerRect greenwich)) = true)
  /\ ((0 <? 0x1p-60) = true
      /\ ~ exists (Math_log Math_tan : float -> float) (q1 q2 : ProjectedPoint),
             projectAll Math_log Math_tan
               [ {| lat := 53.375; lng := 0 |}; {| lat := 53.375; lng := 0x1p-60 |} ]
               greenwich = [q1; q2]
             /\ (x q1 <? x q2) = true)
  /\ ((53.375 <? 0x1.ab00000000001p+5) = true
      /\ ~ exists (Math_log Math_tan : float -> float) (q1 q2 : ProjectedPoint),
             projectAll Math_log Math_tan
               [ {| lat := 53.375; lng := 0 |};
                 {| lat := 0x1.ab00000000001p+5; lng := 0 |} ]
               greenwich = [q1; q2]
             /\ (y q2 <? y q1) = true).
Proof.
  split; [repeat split | split; (split; [reflexivity | ])].
  - intros (Math_log & Math_tan & q1 & q2 & [= <- <-] & H).
    cbn [x] in H. vm_compute in H. discriminate H.
  - intros (Math_log & Math_tan & q1 & q2 & [= <- <-] & H).
    cbn [y lat] in H.
    change (mercY Math_log Math_tan 0x1.ab00000000001p+5)
      with (mercY Math_log Math_tan 53.375) in H.
    rewrite ltb_irrefl in H. discriminate H.
Qed.

Lemma projectAll_inside_container_witness :
  exists q : ProjectedPoint,
    projectAll sampleLog sampleTan [ {| lat := 53.375; lng := -6.25 |} ] dublin = [q]
    /\ ((0 <=? x q) = true /\ (x q <=? 800) = true)
    /\ ((0 <=? y q) = true /\ (y q <=? 600) = true).
Proof.
  pose proof (projectAll_inside_container sampleLog sampleTan dublin
                {| lat := 53.375; lng := -6.25 |} _ eq_refl) as [Hx Hy].
  eexists. split; [reflexivity | split].
  - apply Hx; reflexivity.
  - apply Hy; reflexivity.
Defined.

End ProjectorFloats.

(** ** Viewport Bridge *)

Module BridgeSpec.
Import JSNumber Projector Bridge.

#[local] Arguments N.lt : simpl never.
#[local] Arguments N.le : simpl never.
#[local] Arguments N.succ : simpl never.
#[local] Arguments N.add : simpl never.

Definition pending (w : World) : gmap N Resolver :=
  _pendingProjections (adapter w).

Definition counter (w : World) : N := _projIdCounter (adapter w).

(** The worlds the adapter can be in. *)
Definition reachable (w : World) : Prop :=
  exists evs : list event, run evs initialWorld = Some w.

(** The identifier [i] has been drawn by a call of project. *)
Definition issued (i : N) (w : World) : Prop := (0 < i <= counter w)%N.

(** What ties the pending table to the promises, the timers and the calls of
    resolve functions. *)
Record wf (w : World) : Prop := Wf
  { wf_pending : forall i r, pending w !! i = Some r ->
      r = i /\ promises w !! i = Some Pending /\ is_Some (timers w !! i);
    wf_promise : forall i, promises w !! i = Some Pending ->
      pending w !! i = Some i;
    wf_issued : forall i, is_Some (promises w !! i) <-> issued i w;
    wf_timers : forall i, is_Some (timers w !! i) -> issued i w;
    wf_fired : forall i, issued i w -> timers w !! i = None ->
      exists v, promises w !! i = Some (Fulfilled v);
    wf_calls : forall i, callsFor i w =
      match promises w !! i with Some (Fulfilled v) => [v] | _ => [] end;
    wf_rejected : forall i, promises w !! i <> Some Rejected }.

Lemma callsFor_cons (i p : N) (v : Resolution) (w w' : World) :
  resolveCalls w' = (p, v) :: resolveCalls w ->
  callsFor i w' = if decide (p = i) then v :: callsFor i w else callsFor i w.
Proof.
  intros E. unfold callsFor. rewrite E. simpl.
  destruct (N.eqb_spec p i); case_decide; try congruence; reflexivity.
Qed.

Lemma wf_initial : wf initialWorld.
Proof.
  split; unfold issued, pending, counter; simpl.
  - intros i r H. now rewrite lookup_empty in H.
  - intros i H. now rewrite lookup_empty in H.
  - intros i. rewrite lookup_empty. split; [intros [? ?]; discriminate | lia].
  - intros i [? H]. now rewrite lookup_empty in H.
  - intros i. lia.
  - intros i. unfold callsFor. simpl. now rewrite lookup_empty.
  - intros i. now rewrite lookup_empty.
Qed.

(** Only the pending table, the counter, the promises, the timers and the
    calls matter. *)
Lemma wf_ext (w w' : World) :
  wf w -> pending w' = pending w -> counter w' = counter w ->
  promises w' = promises w -> timers w' = timers w ->
  resolveCalls w' = resolveCalls w -> wf w'.
Proof.
  intros [H1 H2 H3 H4 H5 H6 H7] Ep Ec Em Et Er.
  split; unfold issued, callsFor in *; rewrite ?Ep, ?Ec, ?Em, ?Et, ?Er; auto.
Qed.

Lemma fresh_id (w : World) :
  wf w ->
  pending w !! N.succ (counter w) = None
  /\ promises w !! N.succ (counter w) = None
  /\ timers w !! N.succ (counter w) = None.
Proof.
  intros Hw.
  assert (Hp : promises w !! N.succ (counter w) = None).
  { destruct (promises w !! N.succ (counter w)) eqn:E; [ | reflexivity].
    assert (Hi : issued (N.succ (counter w)) w) by (apply wf_issued; eauto).
    unfold issued in Hi. lia. }
  split; [ | split; [exact Hp | ]].
  - destruct (pending w !! N.succ (counter w)) eqn:E; [ | reflexivity].
    apply (wf_pending w Hw) in E. destruct E as (_ & E & _). congruence.
  - destruct (timers w !! N.succ (counter w)) eqn:E; [ | reflexivity].
    assert (Hi : issued (N.succ (counter w)) w) by (apply wf_timers; eauto).
    unfold issued in Hi. lia.
Qed.

Lemma wf_project (pts : list GeoPoint) (w : World) :
  wf w -> wf (snd (project pts w)).
Proof.
  intros Hw. destruct (fresh_id w Hw) as (Fp & Fm & Ft).
  pose proof Hw as [H1 H2 H3 H4 H5 H6 H7].
  unfold issued, pending, counter in *.
  split; unfold issued, pending, counter; simpl; intros i.
  - intros r. destruct (decide (N.succ (_projIdCounter (adapter w)) = i)) as [<- | Hne].
    + rewrite !lookup_insert_eq. intros [= <-]. eauto.
    + rewrite !lookup_insert_ne by done. apply H1.
  - destruct (decide (N.succ (_projIdCounter (adapter w)) = i)) as [<- | Hne].
    + now rewrite !lookup_insert_eq.
    + rewrite !lookup_insert_ne by done. apply H2.
  - destruct (decide (N.succ (_projIdCounter (adapter w)) = i)) as [<- | Hne].
    + rewrite lookup_insert_eq. split; [lia | eauto].
    + rewrite lookup_insert_ne by done. rewrite H3. lia.
  - destruct (decide (N.succ (_projIdCounter (adapter w)) = i)) as [<- | Hne].
    + lia.
    + rewrite lookup_insert_ne by done. intros Hi%H4. lia.
  - destruct (decide (N.succ (_projIdCounter (adapter w)) = i)) as [<- | Hne].
    + now rewrite lookup_insert_eq.
    + rewrite !lookup_insert_ne by done. intros Hi. apply H5. lia.
  - unfold callsFor in *. simpl.
    destruct (decide (N.succ (_projIdCounter (adapter w)) = i)) as [<- | Hne].
    + rewrite lookup_insert_eq, H6, Fm. reflexivity.
    + rewrite lookup_insert_ne by done. apply H6.
  - destruct (decide (N.succ (_projIdCounter (adapter w)) = i)) as [<- | Hne].
    + now rewrite lookup_insert_eq.
    + rewrite lookup_insert_ne by done. apply H7.
Qed.

(** The world after the entry [id] of the pending table has been taken out
    and its resolve function called with [v]: what handleMessage does on a
    response and the timeout callback does, when they find the entry. *)
Definition resolved (id : N) (r : Resolver) (v : Resolution) (w : World) : World :=
  {| adapter := with_pending (adapter w) (delete id (_pendingProjections (adapter w)));
     clock := clock w; timers := timers w;
     promises := settle r v (promises w);
     resolveCalls := (r, v) :: resolveCalls w;
     posted := posted w |}.

Lemma resolved_facts (id : N) (r : Resolver) (v : Resolution) (w : World) :
  wf w -> pending w !! id = Some r ->
  r = id
  /\ promises (resolved id r v w) = <[id := Fulfilled v]> (promises w)
  /\ callsFor id (resolved id r v w) = [v]
  /\ pending (resolved id r v w) !! id = None.
Proof.
  intros Hw Hp. destruct (wf_pending w Hw id r Hp) as (-> & Hm & _).
  split; [reflexivity | ]. split; [ | split].
  - simpl. unfold settle. now rewrite Hm.
  - rewrite (callsFor_cons id id v w) by reflexivity.
    rewrite decide_True by reflexivity.
    now rewrite (wf_calls w Hw), Hm.
  - unfold pending. simpl. apply lookup_delete_eq.
Qed.

Lemma wf_resolved (id : N) (r : Resolver) (v : Resolution) (w : World) :
  wf w -> pending w !! id = Some r -> wf (resolved id r v w).
Proof.
  intros Hw Hp.
  destruct (resolved_facts id r v w Hw Hp) as (-> & Em & Ec & En).
  pose proof Hw as [H1 H2 H3 H4 H5 H6 H7].
  destruct (H1 id id Hp) as (_ & Hm & Ht).
  split; unfold issued; rewrite ?Em; intros i.
  - intros r. unfold pending. simpl.
    destruct (decide (id = i)) as [<- | Hne].
    + now rewrite lookup_delete_eq.
    + rewrite lookup_delete_ne, lookup_insert_ne by done. apply H1.
  - unfold pending. simpl. destruct (decide (id = i)) as [<- | Hne].
    + now rewrite lookup_insert_eq.
    + rewrite lookup_delete_ne, lookup_insert_ne by done. apply H2.
  - destruct (decide (id = i)) as [<- | Hne].
    + rewrite lookup_insert_eq. split; [intros _; apply H3; eauto | eauto].
    + rewrite lookup_insert_ne by done. apply H3.
  - apply H4.
  - destruct (decide (id = i)) as [<- | Hne].
    + rewrite lookup_insert_eq. eauto.
    + rewrite lookup_insert_ne by done. apply H5.
  - destruct (decide (id = i)) as [<- | Hne].
    + now rewrite lookup_insert_eq.
    + rewrite lookup_insert_ne by done.
      rewrite (callsFor_cons i id v w) by reflexivity.
      rewrite decide_False by done. apply H6.
  - destruct (decide (id = i)) as [<- | Hne].
    + now rewrite lookup_insert_eq.
    + rewrite lookup_insert_ne by done. apply H7.
Qed.

Definition without_timer (id : N) (w : World) : World :=
  {| adapter := adapter w; clock := clock w;
     timers := delete id (timers w); promises := promises w;
     resolveCalls := resolveCalls w; posted := posted w |}.

Lemma wf_without_timer (id : N) (w : World) :
  wf w -> pending w !! id = None -> wf (without_timer id w).
Proof.
  intros Hw Hp. pose proof Hw as [H1 H2 H3 H4 H5 H6 H7].
  split; unfold issued; try assumption; intros i; simpl.
  - intros r Hr. destruct (H1 i r Hr) as (-> & Hm & Ht).
    assert (id <> i) by (intros ->; unfold pending in *; simpl in *; congruence).
    now rewrite lookup_delete_ne.
  - destruct (decide (id = i)) as [<- | Hne].
    + rewrite lookup_delete_eq. intros [? ?]; discriminate.
    + rewrite lookup_delete_ne by done. apply H4.
  - intros Hi. destruct (decide (id = i)) as [<- | Hne].
    + intros _. apply H3 in Hi. destruct Hi as [[ | v | ] Hs]; eauto.
      * apply H2 in Hs. unfold pending in *. congruence.
      * now apply H7 in Hs.
    + rewrite lookup_delete_ne by done. now apply H5.
Qed.

Lemma handleMessage_response (pg : Page) (id : N) (points : Projection) (w : World) :
  handleMessage pg (DAFT_TRANSIT_PROJECT_RESPONSE id points) w =
  match pending w !! id with
  | Some cb => resolved id cb (Some points) w
  | None => w
  end.
Proof. reflexivity. Qed.

Lemma onTimeout_eq (id : N) (w : World) :
  onTimeout id w =
  match pending w !! id with
  | Some resolve => resolved id resolve None w
  | None => w
  end.
Proof. reflexivity. Qed.

Lemma step_timeout (id : N) (w w' : World) :
  step (EvTimeout id) w = Some w' ->
  exists due, timers w !! id = Some due /\ (due <= clock w)%N
              /\ w' = without_timer id (onTimeout id w).
Proof.
  simpl. destruct (timers w !! id) as [due | ]; [ | discriminate].
  destruct (N.leb_spec due (clock w)); [ | discriminate].
  intros [= <-]. eauto.
Qed.

Lemma wf_handleMessage (pg : Page) (data : message) (w : World) :
  wf w -> wf (handleMessage pg data w).
Proof.
  intros Hw. destruct data; try exact Hw;
    try (apply (wf_ext w); [exact Hw | reflexivity ..]).
  rewrite handleMessage_response.
  destruct (pending w !! id) eqn:E; [now apply wf_resolved | exact Hw].
Qed.

Lemma wf_step (ev : event) (w w' : World) :
  wf w -> step ev w = Some w' -> wf w'.
Proof.
  intros Hw. destruct ev as [pts | pg data | id | d].
  - intros [= <-]. now apply wf_project.
  - intros [= <-]. now apply wf_handleMessage.
  - intros (due & _ & _ & ->)%step_timeout. rewrite onTimeout_eq.
    destruct (pending w !! id) eqn:E.
    + apply wf_without_timer; [now apply wf_resolved | ].
      unfold pending. simpl. apply lookup_delete_eq.
    + now apply wf_without_timer.
  - intros [= <-]. apply (wf_ext w); [exact Hw | reflexivity ..].
Qed.

Lemma wf_run (evs : list event) (w w' : World) :
  wf w -> run evs w = Some w' -> wf w'.
Proof.
  revert w. induction evs as [ | ev evs IH]; intros w Hw; simpl.
  - now intros [= <-].
  - destruct (step ev w) as [w1 | ] eqn:E; [ | discriminate].
    apply IH. now apply (wf_step ev w).
Qed.

Lemma reachable_wf (w : World) : reachable w -> wf w.
Proof. intros [evs H]. exact (wf_run evs _ _ wf_initial H). Qed.

(** *** A request between its call and its timeout *)

(** The request [id] is in flight: its entry is in the pending table and its
    timer, due at [due], has not fired. *)
Definition inflight (id due : N) (w : World) : Prop :=
  pending w !! id = Some id /\ timers w !! id = Some due /\ issued id w.

(** An event that is neither a response carrying [id] nor the timeout
    callback of [id]. *)
Definition quiet (id : N) (ev : event) : Prop :=
  match ev with
  | EvMessage _ (DAFT_TRANSIT_PROJECT_RESPONSE j _) => j <> id
  | EvTimeout j => j <> id
  | _ => True
  end.

Lemma inflight_project (pts : list GeoPoint) (w : World) :
  wf w ->
  inflight (fst (project pts w)) (clock w + 1000) (snd (project pts w)).
Proof.
  intros Hw. unfold inflight, issued, pending, counter. simpl.
  rewrite !lookup_insert_eq. repeat split; lia.
Qed.

Lemma inflight_resolved (id due j : N) (r : Resolver) (v : Resolution) (w : World) :
  j <> id -> inflight id due w -> inflight id due (resolved j r v w).
Proof.
  intros Hne (Hp & Ht & Hi). unfold inflight, issued, pending, counter in *.
  simpl. rewrite lookup_delete_ne by done. auto.
Qed.

Lemma inflight_step (id due : N) (ev : event) (w w' : World) :
  inflight id due w -> quiet id ev -> step ev w = Some w' -> inflight id due w'.
Proof.
  intros Hin Hq. destruct ev as [pts | pg data | j | d].
  - intros [= <-]. destruct Hin as (Hp & Ht & Hi).
    unfold inflight, issued, pending, counter in *. simpl.
    rewrite !lookup_insert_ne by lia. repeat split; auto; lia.
  - intros [= <-]. destruct data; try exact Hin.
    rewrite handleMessage_response.
    destruct (pending w !! id0); [ | exact Hin].
    now apply inflight_resolved.
  - intros (d & _ & _ & ->)%step_timeout. simpl in Hq.
    assert (Hin' : inflight id due (onTimeout j w)).
    { rewrite onTimeout_eq. destruct (pending w !! j); [ | exact Hin].
      now apply inflight_resolved. }
    destruct Hin' as (Hp & Ht & Hi). unfold inflight, issued, pending, counter in *.
    simpl. rewrite lookup_delete_ne by done. auto.
  - intros [= <-]. exact Hin.
Qed.

Lemma inflight_run (id due : N) (evs : list event) (w w' : World) :
  inflight id due w -> Forall (quiet id) evs -> run evs w = Some w' ->
  inflight id due w'.
Proof.
  revert w. induction evs as [ | ev evs IH]; intros w Hin Hq; simpl.
  - now intros [= <-].
  - destruct (step ev w) as [w1 | ] eqn:E; [ | discriminate].
    inversion Hq; subst. apply IH; [ | assumption].
    now apply (inflight_step id due ev w).
Qed.

(** Which events write [instanceAvailable]. *)
Lemma instanceAvailable_step (ev : event) (w w' : World) :
  step ev w = Some w' ->
  instanceAvailable (adapter w') =
  match ev with
  | EvMessage _ DAFT_TRANSIT_MAP_FOUND => true
  | EvMessage _ DAFT_TRANSIT_MAP_NOT_FOUND => false
  | _ => instanceAvailable (adapter w)
  end.
Proof.
  destruct ev as [pts | pg data | j | d].
  - now intros [= <-].
  - intros [= <-]. destruct data; try reflexivity.
    rewrite handleMessage_response. now destruct (pending w !! id).
  - intros (d & _ & _ & ->)%step_timeout. rewrite onTimeout_eq.
    now destruct (pending w !! j).
  - now intros [= <-].
Qed.

(** C5. A call of project whose timeout callback runs before any response
    carrying its identifier has been handled: the callback runs no sooner
    than 1000 ms after the call, the promise is then fulfilled with null (no
    promise of project is ever rejected), and the callback leaves
    instanceAvailable as it was. No event writes instanceAvailable but a
    "map found" message, which sets it, and a "map not found" message, which
    clears it. *)
Theorem project_timeout_resolves_null
    (w w2 w3 : World) (pts : list GeoPoint) (evs : list event) :
  reachable w ->
  Forall (quiet (fst (project pts w))) evs ->
  run evs (snd (project pts w)) = Some w2 ->
  step (EvTimeout (fst (project pts w))) w2 = Some w3 ->
  promises w3 !! fst (project pts w) = Some (Fulfilled None)
  /\ callsFor (fst (project pts w)) w3 = [None]
  /\ (forall i : N, promises w3 !! i <> Some Rejected)
  /\ (clock w + 1000 <= clock w3)%N
  /\ instanceAvailable (adapter w3) = instanceAvailable (adapter w2)
  /\ forall (ev : event) (u u' : World), step ev u = Some u' ->
       instanceAvailable (adapter u') =
       match ev with
       | EvMessage _ DAFT_TRANSIT_MAP_FOUND => true
       | EvMessage _ DAFT_TRANSIT_MAP_NOT_FOUND => false
       | _ => instanceAvailable (adapter u)
       end.
Proof.
  intros Hr Hq Hrun Hstep.
  pose proof (reachable_wf w Hr) as Hw.
  pose proof (wf_project pts w Hw) as Hw1.
  pose proof (wf_run evs _ _ Hw1 Hrun) as Hw2.
  pose proof (wf_step _ _ _ Hw2 Hstep) as Hw3.
  pose proof (inflight_run _ _ evs _ _ (inflight_project pts w Hw) Hq Hrun)
    as (Hp & Ht & Hi).
  pose proof (instanceAvailable_step _ _ _ Hstep) as Hia.
  apply step_timeout in Hstep. destruct Hstep as (due & Hd & Hle & ->).
  rewrite Hd in Ht. injection Ht as ->.
  rewrite onTimeout_eq, Hp in *.
  destruct (resolved_facts (fst (project pts w)) (fst (project pts w)) None w2 Hw2 Hp)
    as (_ & Em & Ec & _).
  split; [ | split; [ | split; [ | split; [ | split]]]].
  - cbn [without_timer promises]. rewrite Em. apply lookup_insert_eq.
  - exact Ec.
  - apply (wf_rejected _ Hw3).
  - exact Hle.
  - exact Hia.
  - intros ev u u'. apply instanceAvailable_step.
Qed.

(** A call in the initial world, 1000 ms passing, then its timeout. *)
Definition timeoutTrace : list event :=
  [EvProject [geo 0 0]; EvAdvance 1000; EvTimeout 1].

Lemma project_timeout_resolves_null_witness :
  exists w3 : World,
    run timeoutTrace initialWorld = Some w3
    /\ promises w3 !! 1%N = Some (Fulfilled None).
Proof.
  eexists. split; [reflexivity | ].
  refine (proj1 (project_timeout_resolves_null initialWorld _ _ [geo 0 0]
                   [EvAdvance 1000] _ _ _ _)).
  - exists []. reflexivity.
  - repeat constructor.
  - reflexivity.
  - reflexivity.
Defined.

(** C6. Identifiers, resolution and the pending table, in every world the
    adapter can be in: a call of project draws an identifier that no in-flight
    request holds and leaves the other entries alone; no resolve function is
    ever called twice; a response that finds its entry fulfils the promise
    with its points and removes the entry; the timeout callback that finds
    its entry fulfils the promise with null and removes the entry; once the
    timeout callback of a request has run, its promise has been resolved
    exactly once and its entry is gone; and a response whose identifier has no
    entry changes nothing. *)
Theorem project_resolved_exactly_once (w : World) :
  reachable w ->
  (forall pts : list GeoPoint,
     pending w !! fst (project pts w) = None
     /\ (forall j : N, is_Some (pending w !! j) -> j <> fst (project pts w))
     /\ pending (snd (project pts w)) !! fst (project pts w)
        = Some (fst (project pts w))
     /\ promises (snd (project pts w)) !! fst (project pts w) = Some Pending
     /\ callsFor (fst (project pts w)) (snd (project pts w)) = []
     /\ forall j : N, j <> fst (project pts w) ->
          pending (snd (project pts w)) !! j = pending w !! j)
  /\ (forall i : N, length (callsFor i w) <= 1)
  /\ (forall (pg : Page) (id : N) (points : Projection),
        is_Some (pending w !! id) ->
        promises (handleMessage pg (DAFT_TRANSIT_PROJECT_RESPONSE id points) w) !! id
        = Some (Fulfilled (Some points))
        /\ callsFor id (handleMessage pg (DAFT_TRANSIT_PROJECT_RESPONSE id points) w)
           = [Some points]
        /\ pending (handleMessage pg (DAFT_TRANSIT_PROJECT_RESPONSE id points) w) !! id
           = None)
  /\ (forall (id : N) (w' : World),
        is_Some (pending w !! id) -> step (EvTimeout id) w = Some w' ->
        promises w' !! id = Some (Fulfilled None)
        /\ callsFor id w' = [None]
        /\ pending w' !! id = None)
  /\ (forall i : N, issued i w -> timers w !! i = None ->
        pending w !! i = None
        /\ exists v : Resolution,
             callsFor i w = [v] /\ promises w !! i = Some (Fulfilled v))
  /\ (forall (pg : Page) (id : N) (points : Projection),
        pending w !! id = None ->
        handleMessage pg (DAFT_TRANSIT_PROJECT_RESPONSE id points) w = w).
Proof.
  intros Hr. pose proof (reachable_wf w Hr) as Hw.
  split; [ | split; [ | split; [ | split; [ | split]]]].
  - intros pts. destruct (fresh_id w Hw) as (Fp & Fm & Ft).
    pose proof (wf_project pts w Hw) as Hw1.
    repeat split.
    + exact Fp.
    + intros j [r Hj] ->. simpl in Hj. unfold counter, pending in *. congruence.
    + unfold pending. simpl. apply lookup_insert_eq.
    + simpl. apply lookup_insert_eq.
    + rewrite (wf_calls _ Hw1). simpl. now rewrite lookup_insert_eq.
    + intros j Hj. unfold pending. simpl. now rewrite lookup_insert_ne.
  - intros i. rewrite (wf_calls w Hw).
    destruct (promises w !! i) as [[ | v | ] | ]; simpl; lia.
  - intros pg id points [r Hp]. rewrite handleMessage_response, Hp.
    destruct (resolved_facts id r (Some points) w Hw Hp) as (-> & Em & Ec & En).
    rewrite Em. repeat split; auto. apply lookup_insert_eq.
  - intros id w' [r Hp] (due & _ & _ & ->)%step_timeout.
    rewrite onTimeout_eq, Hp.
    destruct (resolved_facts id r None w Hw Hp) as (-> & Em & Ec & En).
    repeat split; auto. cbn [without_timer promises]. rewrite Em.
    apply lookup_insert_eq.
  - intros i Hi Ht. destruct (wf_fired w Hw i Hi Ht) as [v Hv]. split.
    + destruct (pending w !! i) as [r | ] eqn:E; [ | reflexivity].
      destruct (wf_pending w Hw i r E) as (_ & Hm & _). congruence.
    + exists v. split; [ | exact Hv]. now rewrite (wf_calls w Hw), Hv.
  - intros pg id points Hp. now rewrite handleMessage_response, Hp.
Qed.

(** Worlds with a request in flight, a request whose clock has run out, and
    a request timed out. *)
Definition inFlight : World := snd (project [geo 0 0] initialWorld).

Definition overdue : World :=
  {| adapter := adapter inFlight; clock := (clock inFlight + 1000)%N;
     timers := timers inFlight; promises := promises inFlight;
     resolveCalls := resolveCalls inFlight; posted := posted inFlight |}.

Definition timedOut : World :=
  let w' := onTimeout 1 overdue in
  {| adapter := adapter w'; clock := clock w'; timers := delete 1%N (timers w');
     promises := promises w'; resolveCalls := resolveCalls w';
     posted := posted w' |}.

(** A page with no map element and no bounds in its URL. *)
Definition blankPage : Page :=
  {| querySelectorMap := None;
     getBoundingClientRect := fun _ => {| top := Fin 0; left := Fin 0;
                                          width := Fin 0; height := Fin 0 |};
     searchParam := fun _ => NaN |}.

Lemma project_resolved_exactly_once_witness :
  (fst (project [geo 0 0] initialWorld) = 1%N
   /\ pending inFlight !! 1%N = Some 1%N
   /\ fst (project [geo 1 1] inFlight) <> 1%N
   /\ pending (snd (project [geo 1 1] inFlight)) !! 1%N = Some 1%N)
  /\ (promises (handleMessage blankPage
                    (DAFT_TRANSIT_PROJECT_RESPONSE 1 [Some (pixel 3 4)]) inFlight)
          !! 1%N
        = Some (Fulfilled (Some [Some (pixel 3 4)]))
        /\ callsFor 1 (handleMessage blankPage
                         (DAFT_TRANSIT_PROJECT_RESPONSE 1 [Some (pixel 3 4)])
                         inFlight)
           = [Some [Some (pixel 3 4)]]
        /\ pending (handleMessage blankPage
                      (DAFT_TRANSIT_PROJECT_RESPONSE 1 [Some (pixel 3 4)])
                      inFlight) !! 1%N
           = None)
  /\ (run timeoutTrace initialWorld = Some timedOut
      /\ promises timedOut !! 1%N = Some (Fulfilled None)
      /\ callsFor 1 timedOut = [None]
      /\ pending timedOut !! 1%N = None)
  /\ (exists v : Resolution,
        callsFor 1 timedOut = [v] /\ promises timedOut !! 1%N = Some (Fulfilled v))
  /\ length (callsFor 1 timedOut) <= 1
  /\ (handleMessage blankPage (DAFT_TRANSIT_PROJECT_RESPONSE 1 [Some (pixel 3 4)])
          timedOut
        = timedOut).
Proof.
  assert (R1 : reachable inFlight) by (exists [EvProject [geo 0 0]]; reflexivity).
  assert (R2 : reachable overdue)
    by (exists [EvProject [geo 0 0]; EvAdvance 1000]; reflexivity).
  assert (R3 : reachable timedOut) by (exists timeoutTrace; reflexivity).
  assert (P1 : is_Some (pending inFlight !! 1%N)) by (eexists; reflexivity).
  split; [ | split; [ | split; [ | split; [ | split]]]].
  - split; [reflexivity | split; [reflexivity | split]].
    + intros E.
      exact (proj1 (proj2 (proj1 (project_resolved_exactly_once inFlight R1)
                             [geo 1 1])) 1%N P1 (eq_sym E)).
    + rewrite (proj2 (proj2 (proj2 (proj2 (proj2
        (proj1 (project_resolved_exactly_once inFlight R1) [geo 1 1])))))
        1%N); [reflexivity | ].
      intros E.
      exact (proj1 (proj2 (proj1 (project_resolved_exactly_once inFlight R1)
                             [geo 1 1])) 1%N P1 E).
  - exact (proj1 (proj2 (proj2 (project_resolved_exactly_once inFlight R1)))
             blankPage 1%N [Some (pixel 3 4)] P1).
  - split; [reflexivity | ].
    exact (proj1 (proj2 (proj2 (proj2 (project_resolved_exactly_once overdue R2))))
             1%N timedOut (ex_intro _ 1%N eq_refl) eq_refl).
  - refine (proj2 (proj1 (proj2 (proj2 (proj2 (proj2
      (project_resolved_exactly_once timedOut R3))))) 1%N _ eq_refl)).
    split; reflexivity.
  - exact (proj1 (proj2 (project_resolved_exactly_once timedOut R3)) 1%N).
  - exact (proj2 (proj2 (proj2 (proj2 (proj2
      (project_resolved_exactly_once timedOut R3))))) blankPage 1%N [Some (pixel 3 4)]
      eq_refl).
Defined.

(** *** The viewport rebuilt from the URL *)

(** C10. With no viewport pushed, getViewport is null when the adapter has no
    container, when the rectangle of its container has width 0, and when any of
    top, bottom, left, right parses to NaN; otherwise it is the viewport made
    of the four parameters and of the rectangle, whatever the height of the
    rectangle, zero included. *)
Theorem getViewport_from_URL (pg : Page) (a : MapAdapter) :
  viewport a = None ->
  (container a = None -> getViewport pg a = None)
  /\ (forall c : Node, container a = Some c ->
        strict_eq (width (getBoundingClientRect pg c)) (Fin 0) = true ->
        getViewport pg a = None)
  /\ (forall k : string, In k ["top"; "bottom"; "left"; "right"]%string ->
        searchParam pg k = NaN -> getViewport pg a = None)
  /\ (forall c : Node, container a = Some c ->
        strict_eq (width (getBoundingClientRect pg c)) (Fin 0) = false ->
        (forall k : string, In k ["top"; "bottom"; "left"; "right"]%string ->
           isNaN (searchParam pg k) = false) ->
        getViewport pg a =
        Some {| bounds := {| north := searchParam pg "top";
                             south := searchParam pg "bottom";
                             east := searchParam pg "right";
                             west := searchParam pg "left" |};
                containerRect := {| top := top (getBoundingClientRect pg c);
                                    left := left (getBoundingClientRect pg c);
                                    width := width (getBoundingClientRect pg c);
                                    height := height (getBoundingClientRect pg c) |} |}
        /\ (height (getBoundingClientRect pg c) = Fin 0 ->
            is_Some (getViewport pg a))).
Proof.
  intros Hv. unfold getViewport, _viewportFromURL. rewrite Hv.
  split; [ | split; [ | split]].
  - intros ->. now destruct (existsb _ _).
  - intros c -> ->. now destruct (existsb _ _).
  - intros k Hk Hnan.
    assert (E : existsb isNaN [searchParam pg "top"; searchParam pg "bottom";
                               searchParam pg "left"; searchParam pg "right"] = true).
    { apply existsb_exists. exists NaN. split; [ | reflexivity].
      rewrite <- Hnan. simpl in Hk. simpl.
      destruct Hk as [<- | [<- | [<- | [<- | []]]]]; auto. }
    now rewrite E.
  - intros c -> Hw Hk.
    assert (E : existsb isNaN [searchParam pg "top"; searchParam pg "bottom";
                               searchParam pg "left"; searchParam pg "right"] = false).
    { simpl. rewrite !Hk by (simpl; auto). reflexivity. }
    rewrite E, Hw. split; [reflexivity | eauto].
Qed.

(** A search page with the four bounds in its URL and a map container that is
    800 pixels wide and not laid out in height. *)
Definition flatPage : Page :=
  {| querySelectorMap := Some 7%N;
     getBoundingClientRect := fun _ =>
       {| top := Fin 0; left := Fin 0; width := Fin 800; height := Fin 0 |};
     searchParam := fun k =>
       if String.eqb k "top" then Fin 53.35
       else if String.eqb k "bottom" then Fin 53.34
       else if String.eqb k "left" then Fin (-6.27)
       else if String.eqb k "right" then Fin (-6.24)
       else NaN |}.

Lemma getViewport_from_URL_witness :
  is_Some (getViewport flatPage (detect flatPage initialAdapter)).
Proof.
  refine (proj2 (proj2 (proj2 (proj2
    (getViewport_from_URL flatPage (detect flatPage initialAdapter) _)))
    7%N _ _ _) _).
  - reflexivity.
  - reflexivity.
  - simpl. unfold strict_eq. destruct (Req_dec_T 800 0); [lra | reflexivity].
  - intros k [<- | [<- | [<- | [<- | []]]]]; reflexivity.
  - reflexivity.
Defined.

End BridgeSpec.

(** ** Overlay Renderer *)

Module RendererSpec.
Import JSNumber Projector Bridge Renderer NumberFacts.
Local Open Scope R_scope.

(** An answer of the host has an entry that is not null. *)
Definition hasNonNull (p : Projection) : Prop :=
  exists q : ProjectedPoint, In (Some q) p.

Lemma existsb_nonNull (p : Projection) :
  existsb (fun e => match e with Some _ => true | None => false end) p = true
  <-> hasNonNull p.
Proof.
  rewrite existsb_exists. split.
  - intros ([q | ] & Hin & H); [now exists q | discriminate].
  - intros [q Hq]. now exists (Some q).
Qed.

Lemma hostProjected_some (a : MapAdapter) (awaited : Resolution) (p : Projection) :
  hostProjected a awaited = Some p <->
  instanceAvailable a = true /\ awaited = Some p /\ hasNonNull p.
Proof.
  unfold hostProjected.
  destruct (instanceAvailable a); [ | split; [discriminate | intros [? _]; discriminate]].
  destruct awaited as [p' | ]; [ | split; [discriminate | intros (_ & ? & _); discriminate]].
  destruct (existsb _ p') eqn:E; simpl.
  - apply existsb_nonNull in E. split.
    + now intros [= ->].
    + now intros (_ & [= ->] & _).
  - split; [discriminate | ].
    intros (_ & [= ->] & H%existsb_nonNull). congruence.
Qed.

Lemma updatePxPerMeter_with_viewport (vp : Viewport) (pts : list GeoPoint)
    (projected : Projection) (scale : number) :
  exists s : number, updatePxPerMeter (Some vp) pts projected scale = Normal s.
Proof. eexists. reflexivity. Qed.

(** C4. The pixel-resolution step of render. When instanceAvailable is true
    and the answer of the host has an entry that is not null, render goes on
    with that answer: these are the positions it draws (unless the step that
    infers the scale factor throws, which it cannot when there is a viewport).
    Otherwise (no instance, null at timeout, or an answer with null entries
    only) it goes on with the positions of projectAll for the viewport of
    getViewport and draws those, and when getViewport is null render returns
    with nothing drawn. *)
Theorem render_pixel_resolution (pg : Page) (a a' : MapAdapter)
    (awaited : Resolution) (pts : list GeoPoint) (scale : number) :
  (forall p : Projection,
     instanceAvailable a = true -> awaited = Some p -> hasNonNull p ->
     resolveProjected pg a' (hostProjected a awaited) pts = Some p
     /\ renderProject pg a a' awaited pts scale <> Returned
     /\ renderProject pg a a' awaited pts scale
        = match updatePxPerMeter (getViewport pg a') pts p scale with
          | Normal s => Draws p s
          | Throw => Threw
          end
     /\ (forall vp : Viewport, getViewport pg a' = Some vp ->
           exists s : number,
             renderProject pg a a' awaited pts scale = Draws p s))
  /\ (instanceAvailable a = false \/ awaited = None
      \/ (exists p : Projection, awaited = Some p /\ ~ hasNonNull p) ->
      hostProjected a awaited = None
      /\ (forall vp : Viewport, getViewport pg a' = Some vp ->
            resolveProjected pg a' (hostProjected a awaited) pts
            = Some (map Some (projectAll pts vp))
            /\ exists s : number,
                 updatePxPerMeter (Some vp) pts (map Some (projectAll pts vp)) scale
                 = Normal s
                 /\ renderProject pg a a' awaited pts scale
                    = Draws (map Some (projectAll pts vp)) s)
      /\ (getViewport pg a' = None ->
            resolveProjected pg a' (hostProjected a awaited) pts = None
            /\ renderProject pg a a' awaited pts scale = Returned)).
Proof.
  split.
  - intros p Ha Haw Hnn.
    assert (E : hostProjected a awaited = Some p) by now apply hostProjected_some.
    unfold renderProject. rewrite E. cbn [resolveProjected].
    split; [reflexivity | split; [ | split; [reflexivity | ]]].
    + now destruct (updatePxPerMeter _ _ _ _).
    + intros vp ->.
      destruct (updatePxPerMeter_with_viewport vp pts p scale) as [s ->]. eauto.
  - intros Hcase.
    assert (E : hostProjected a awaited = None).
    { destruct (hostProjected a awaited) as [p | ] eqn:E; [ | reflexivity].
      apply hostProjected_some in E. destruct E as (Ha & Haw & Hnn).
      destruct Hcase as [Hf | [Hn | (p' & Hp' & Hno)]]; congruence. }
    unfold renderProject. rewrite E. cbn [resolveProjected].
    split; [reflexivity | split].
    + intros vp ->. split; [reflexivity | ].
      destruct (updatePxPerMeter_with_viewport vp pts
                  (map Some (projectAll pts vp)) scale) as [s Hs].
      exists s. split; [exact Hs | now rewrite Hs].
    + now intros ->.
Qed.

(** A page with no map element and no bounds in its URL; an adapter that has
    been told of a map instance; an adapter to which a viewport was pushed. *)
Definition barePage : Page :=
  {| querySelectorMap := None;
     getBoundingClientRect := fun _ => {| top := Fin 0; left := Fin 0;
                                          width := Fin 0; height := Fin 0 |};
     searchParam := fun _ => NaN |}.

Definition adapterWithInstance : MapAdapter :=
  adapter (handleMessage barePage DAFT_TRANSIT_MAP_FOUND initialWorld).

Definition adapterWithViewport : MapAdapter :=
  adapter (handleMessage barePage
             (DAFT_TRANSIT_MAP_VIEWPORT (Some (viewportOf 2 1 4 3 0 0 800 600)))
             initialWorld).

Lemma render_pixel_resolution_witness :
  renderProject barePage adapterWithInstance adapterWithInstance
    (Some [Some (pixel 1 2)]) [geo 0 0] (Fin 0)
  = Draws [Some (pixel 1 2)] (Fin 0)
  /\ (exists s : number,
        renderProject barePage adapterWithInstance adapterWithViewport
          (Some [None]) [geo 1 3] (Fin 0)
        = Draws (map Some (projectAll [geo 1 3] (viewportOf 2 1 4 3 0 0 800 600))) s)
  /\ renderProject barePage initialAdapter initialAdapter None [geo 0 0] (Fin 0)
     = Returned.
Proof.
  split; [ | split].
  - rewrite (proj1 (proj2 (proj2 (proj1
      (render_pixel_resolution barePage adapterWithInstance adapterWithInstance
         (Some [Some (pixel 1 2)]) [geo 0 0] (Fin 0))
      [Some (pixel 1 2)] eq_refl eq_refl
      (ex_intro _ (pixel 1 2) (or_introl eq_refl)))))).
    reflexivity.
  - destruct (proj2 (proj1 (proj2 (proj2
      (render_pixel_resolution barePage adapterWithInstance adapterWithViewport
         (Some [None]) [geo 1 3] (Fin 0))
      (or_intror (or_intror (ex_intro _ [None] (conj eq_refl
         (fun H : hasNonNull [None] =>
            match H with
            | ex_intro _ q (or_introl E) => eq_ind None
                (fun o => match o with None => True | Some _ => False end) I _ E
            | ex_intro _ q (or_intror F) => match F with end
            end)))))))
      (viewportOf 2 1 4 3 0 0 800 600) eq_refl)) as (s & _ & Hs).
    exists s. exact Hs.
  - refine (proj2 (proj2 (proj2 (proj2
      (render_pixel_resolution barePage initialAdapter initialAdapter None
         [geo 0 0] (Fin 0))
      (or_introl eq_refl))) eq_refl)).
Defined.

(** *** The scale factor *)

Lemma cos_arg_Fin (m : R) :
  Math_cos (div (mul (Fin m) Math_PI) (Fin 180)) = Fin (cos (m * PI / 180)).
Proof. unfold Math_PI. rewrite mul_Fin, div_Fin by lra. reflexivity. Qed.

(** In the viewport branch nothing guards the span: with finite bounds,
    east = west and a positive width the factor is +Infinity. *)
Lemma updatePxPerMeter_zero_span (n s e t l W H : R) (pts : list GeoPoint)
    (projected : Projection) (old : number) :
  0 < W ->
  updatePxPerMeter (Some (viewportOf n s e e t l W H)) pts projected old
  = Normal PosInf.
Proof.
  intros HW. unfold updatePxPerMeter, viewportOf.
  cbn [bounds containerRect north south east west width].
  rewrite add_Fin, sub_Fin, div_Fin by lra.
  rewrite cos_arg_Fin, !mul_Fin.
  rewrite div_Fin_zero_pos; [reflexivity | exact HW | ].
  replace (e - e) with 0 by lra. apply Rmult_0_l.
Qed.

(** C7, at the failing input: the viewport pushed for a map whose east and
    west bounds coincide makes the scale factor +Infinity. *)
Theorem updatePxPerMeter_zero_span_infinite :
  updatePxPerMeter
    (Some (viewportOf 53.35 53.34 (-6.27) (-6.27) 0 0 800 600))
    [geo 53.345 (-6.255)] [Some (pixel 400 300)] (Fin 0)
  = Normal PosInf.
Proof.
  unfold updatePxPerMeter, viewportOf.
  cbn [bounds containerRect north south east west width].
  rewrite add_Fin, sub_Fin, div_Fin by lra.
  rewrite cos_arg_Fin, !mul_Fin.
  set (metersPerDegLng := 111320 * cos ((53.35 + 53.34) / 2 * PI / 180)).
  assert (Hspan : (-6.27 - -6.27) * metersPerDegLng = 0).
  { replace (-6.27 - -6.27) with 0 by lra. apply Rmult_0_l. }
  rewrite (div_Fin_zero_pos 800 _ ltac:(lra) Hspan). reflexivity.
Qed.

(** The sibling branch, taken when there is no viewport, does guard: with a
    zero longitude delta between the first two points the factor keeps its
    previous value. *)
Lemma updatePxPerMeter_fallback_guarded (la0 la1 lo : R) (q0 q1 : ProjectedPoint)
    (pts : list GeoPoint) (projected : Projection) (old : number) :
  updatePxPerMeter None (geo la0 lo :: geo la1 lo :: pts)
                   (Some q0 :: Some q1 :: projected) old
  = Normal old.
Proof.
  unfold updatePxPerMeter, geo. cbn [lng lat].
  rewrite sub_Fin. unfold Math_abs at 1.
  assert (E : gt (Fin (Rabs (lo - lo))) (Fin 0) = false).
  { replace (lo - lo) with 0 by lra. rewrite Rabs_R0.
    unfold gt, lt. decide_reals; reflexivity. }
  now rewrite E.
Qed.

(** *** Walking-radius rings *)

Lemma gt_zero_not_le (a : number) : gt a (Fin 0) = true -> le a (Fin 0) = false.
Proof.
  destruct a; simpl; try discriminate; try reflexivity.
  unfold gt, lt, le. decide_reals; congruence.
Qed.

Lemma hideWalkRadius_fields (o : Overlay) :
  _pxPerMeter (hideWalkRadius o) = _pxPerMeter o
  /\ settings (hideWalkRadius o) = settings o
  /\ (is_Some (svgOverlay o) -> is_Some (svgOverlay (hideWalkRadius o))).
Proof.
  unfold hideWalkRadius. destruct (svgOverlay o) as [svg | ] eqn:E.
  - destruct (removeById _ svg); simpl; rewrite ?E; eauto.
  - rewrite E. auto.
Qed.

(** showWalkRadius adds exactly one ring to the overlay cleared by
    hideWalkRadius: a circle whose r attribute is [m] times the scale factor. *)
Definition addsOneRing (g : Element) (o : Overlay) (m : R) : Prop :=
  exists (o' : Overlay) (circle : Element),
    showWalkRadius g o = Normal o'
    /\ ringElements o' = circle :: ringElements (hideWalkRadius o)
    /\ tagName circle = "circle"%string
    /\ getAttribute "r" circle = Some (AttrNum (mul (Fin m) (_pxPerMeter o))).

Lemma showWalkRadius_unfold (g c svg : Element) (o : Overlay) :
  svgOverlay o = Some svg ->
  gt (_pxPerMeter o) (Fin 0) = true ->
  querySelector "circle" g = Some c ->
  exists svg' : Element,
    svgOverlay (hideWalkRadius o) = Some svg'
    /\ showWalkRadius g o =
       if negb (walkRadius5 (settings o) || (walkRadius10 (settings o)
                || (walkRadius20 (settings o) || false)))
       then Normal (hideWalkRadius o)
       else Normal (with_svg (hideWalkRadius o)
              (insertFirst
                 (appendRings (settings o) (_pxPerMeter o)
                    (toNumber (getAttribute "cx" c)) (toNumber (getAttribute "cy" c))
                    WALK_RADII (setId "dt-walk-radii" (createElementNS "g")))
                 svg')).
Proof.
  intros Hsvg Hpos Hc.
  destruct (hideWalkRadius_fields o) as (Hp & Hs & Hsome).
  destruct Hsome as [svg' Hsvg']; [rewrite Hsvg; eauto | ].
  exists svg'. split; [exact Hsvg' | ].
  unfold showWalkRadius. rewrite Hsvg', Hp, Hs, Hc.
  rewrite (gt_zero_not_le _ Hpos). reflexivity.
Qed.

(** C8. Hovering a marker while the scale factor is positive: with the three
    walking-radius settings off, showWalkRadius leaves the overlay as
    hideWalkRadius cleared it and adds no ring; with walkRadius10 alone on it
    adds exactly one ring circle, of radius 720 times the scale factor (360
    for walkRadius5 alone, 1440 for walkRadius20 alone). *)
Theorem showWalkRadius_rings (g c svg : Element) (o : Overlay) :
  svgOverlay o = Some svg ->
  gt (_pxPerMeter o) (Fin 0) = true ->
  querySelector "circle" g = Some c ->
  (walkRadius5 (settings o) = false -> walkRadius10 (settings o) = false ->
   walkRadius20 (settings o) = false ->
   showWalkRadius g o = Normal (hideWalkRadius o))
  /\ (walkRadius5 (settings o) = false -> walkRadius10 (settings o) = true ->
      walkRadius20 (settings o) = false -> addsOneRing g o 720)
  /\ (walkRadius5 (settings o) = true -> walkRadius10 (settings o) = false ->
      walkRadius20 (settings o) = false -> addsOneRing g o 360)
  /\ (walkRadius5 (settings o) = false -> walkRadius10 (settings o) = false ->
      walkRadius20 (settings o) = true -> addsOneRing g o 1440).
Proof.
  intros Hsvg Hpos Hc.
  destruct (showWalkRadius_unfold g c svg o Hsvg Hpos Hc) as (svg' & Hsvg' & E).
  split; [ | split; [ | split]]; intros H5 H10 H20; rewrite H5, H10, H20 in E;
    simpl in E; [exact E | | | ];
    (eexists; eexists; split; [exact E | ]);
    unfold ringElements; rewrite Hsvg';
    unfold appendRings, WALK_RADII, settingOf; cbn [key meters label color];
    simpl String.eqb; rewrite H5, H10, H20; destruct svg'; simpl;
    (split; [reflexivity | split; reflexivity]).
Qed.

(** The marker of a stop at (400, 300) in an overlay that holds nothing else,
    with walkRadius10 alone on and one pixel per meter. *)
Definition stopMarker : Element :=
  Elem "g" "" [("class", AttrStr "transit-stop")] ""
    [Elem "circle" "" [("cx", AttrNum (Fin 400)); ("cy", AttrNum (Fin 300))] "" []].

Definition hoverOverlay : Overlay :=
  {| svgOverlay := Some (Elem "svg" "daft-transit-svg-overlay" [] "" [stopMarker]);
     _pxPerMeter := Fin 1;
     settings := {| enabled := true; luasLines := true; luasStops := true;
                    dartLines := true; dartStations := true;
                    irishRailLines := true; irishRailStations := true;
                    opacity := 75;
                    walkRadius5 := false; walkRadius10 := true;
                    walkRadius20 := false |} |}.

Lemma showWalkRadius_rings_witness : addsOneRing stopMarker hoverOverlay 720.
Proof.
  refine (proj1 (proj2 (showWalkRadius_rings stopMarker _ _ hoverOverlay _ _ _)) _ _ _);
    try reflexivity.
  apply gt_Fin. lra.
Defined.

End RendererSpec.

(** ** Render Scheduler *)

Module SchedulerSpec.
Import Scheduler.
Local Open Scope Z_scope.

#[local] Arguments Z.max : simpl never.
#[local] Arguments Z.add : simpl never.
#[local] Arguments Z.sub : simpl never.
#[local] Arguments Z.leb : simpl never.

(** C9. scheduleRender while a timer is pending changes nothing. Otherwise it
    gives setTimeout one callback, with delay max(0, 50 - (now - lastRender)),
    and keeps its handle in renderTimer, calling render itself not at all. That
    callback cannot run before 50 ms have passed since lastRender; it can run
    at any time from then on; and when it runs it clears renderTimer, sets
    lastRender to the time it runs at and calls render once, at that time, if
    the overlay is visible and the map was found, and not otherwise. The
    render it calls is so at least 50 ms after every earlier one that
    lastRender accounts for. *)
Theorem scheduleRender_debounce (now : Z) (st : State) :
  (forall h : positive, renderTimer st = Some h -> scheduleRender now st = st)
  /\ (renderTimer st = None ->
      renderTimer (scheduleRender now st) = Some (nextHandle st)
      /\ pendingTimers (scheduleRender now st) =
         {| handle := nextHandle st; setAt := now;
            delay := Z.max 0 (50 - (now - lastRender st)) |} :: pendingTimers st
      /\ lastRender (scheduleRender now st) = lastRender st
      /\ renders (scheduleRender now st) = renders st
      /\ (forall (now' : Z) (found : bool) (st' : State),
            fire (nextHandle st) now' found (scheduleRender now st) = Some st' ->
            lastRender st + 50 <= now'
            /\ now + Z.max 0 (50 - (now - lastRender st)) <= now'
            /\ renderTimer st' = None
            /\ lastRender st' = now'
            /\ renders st' = (if overlayVisible st && found
                              then now' :: renders st else renders st)
            /\ ((forall t : Z, In t (renders st) -> t <= lastRender st) ->
                forall t : Z, In t (renders st) -> t + 50 <= now'))
      /\ (forall (now' : Z) (found : bool),
            now + Z.max 0 (50 - (now - lastRender st)) <= now' ->
            exists st' : State,
              fire (nextHandle st) now' found (scheduleRender now st) = Some st'
              /\ renders st' = (if overlayVisible st && found
                                then now' :: renders st else renders st))
      /\ (forall (now' : Z) (found : bool),
            now' < now + Z.max 0 (50 - (now - lastRender st)) ->
            fire (nextHandle st) now' found (scheduleRender now st) = None)).
Proof.
  split.
  - intros h Hh. unfold scheduleRender. now rewrite Hh.
  - intros Hn. unfold scheduleRender. rewrite Hn. simpl.
    repeat (split; [reflexivity | ]).
    split; [ | split].
    + intros now' found st'. unfold fire. simpl.
      rewrite Pos.eqb_refl. cbn [setAt delay].
      destruct (Z.leb_spec (now + Z.max 0 (50 - (now - lastRender st))) now');
        [ | discriminate].
      intros [= <-]. simpl.
      split; [lia | split; [lia | split; [reflexivity | split; [reflexivity | ]]]].
      split; [reflexivity | ].
      intros Hle t Ht. specialize (Hle t Ht). lia.
    + intros now' found Hle. unfold fire. simpl.
      rewrite Pos.eqb_refl. cbn [setAt delay].
      destruct (Z.leb_spec (now + Z.max 0 (50 - (now - lastRender st))) now');
        [ | lia].
      eexists. split; reflexivity.
    + intros now' found Hlt. unfold fire. simpl.
      rewrite Pos.eqb_refl. cbn [setAt delay].
      destruct (Z.leb_spec (now + Z.max 0 (50 - (now - lastRender st))) now');
        [lia | reflexivity].
Qed.

(** A render at 1000, nothing scheduled. *)
Definition idleState : State :=
  {| renderTimer := None; lastRender := 1000; overlayVisible := true;
     pendingTimers := []; nextHandle := 1%positive; renders := [1000] |}.

Lemma scheduleRender_debounce_witness :
  renderTimer (scheduleRender 1020 idleState) = Some 1%positive
  /\ scheduleRender 1030 (scheduleRender 1020 idleState)
     = scheduleRender 1020 idleState
  /\ fire 1 1049 true (scheduleRender 1020 idleState) = None
  /\ (exists st' : State,
        fire 1 1050 true (scheduleRender 1020 idleState) = Some st'
        /\ renders st' = [1050; 1000])
  /\ (exists st' : State,
        fire 1 1050 false (scheduleRender 1020 idleState) = Some st'
        /\ renders st' = [1000]).
Proof.
  pose proof (proj2 (scheduleRender_debounce 1020 idleState) eq_refl)
    as (Ht & _ & _ & _ & _ & Hrun & Hnot).
  split; [exact Ht | split; [ | split; [ | split]]].
  - exact (proj1 (scheduleRender_debounce 1030 (scheduleRender 1020 idleState))
             1%positive eq_refl).
  - apply (Hnot 1049 true). reflexivity.
  - apply (Hrun 1050 true). discriminate.
  - apply (Hrun 1050 false). discriminate.
Defined.

End SchedulerSpec.

(** ** Viewport Bridge: what the adapter keeps over any sequence of events *)

Module BridgeTraces.
Import JSNumber Projector Bridge BridgeSpec.

#[local] Arguments N.lt : simpl never.
#[local] Arguments N.le : simpl never.
#[local] Arguments N.succ : simpl never.
#[local] Arguments N.add : simpl never.

(** Every timer of a request is due within 1000 ms. *)
Definition timers_due (w : World) : Prop :=
  forall (i due : N), timers w !! i = Some due -> (due <= clock w + 1000)%N.

Lemma timers_due_step (ev : event) (w w' : World) :
  timers_due w -> step ev w = Some w' -> timers_due w'.
Proof.
  intros Hd. destruct ev as [pts | pg data | j | d].
  - intros [= <-] i due. simpl.
    destruct (decide (N.succ (_projIdCounter (adapter w)) = i)) as [<- | Hne].
    + rewrite lookup_insert_eq. intros [= <-]. lia.
    + rewrite lookup_insert_ne by done. apply Hd.
  - intros [= <-]. destruct data; try exact Hd.
    rewrite handleMessage_response. destruct (pending w !! id); exact Hd.
  - intros (d & _ & _ & ->)%step_timeout i due. rewrite onTimeout_eq.
    destruct (decide (j = i)) as [<- | Hne].
    + destruct (pending w !! j); simpl; now rewrite lookup_delete_eq.
    + destruct (pending w !! j); simpl; rewrite lookup_delete_ne by done;
        apply Hd.
  - intros [= <-] i due Hi. simpl in *. specialize (Hd i due Hi). lia.
Qed.

Lemma timers_due_reachable (w : World) : reachable w -> timers_due w.
Proof.
  intros [evs Hrun]. revert Hrun.
  assert (H0 : timers_due initialWorld).
  { intros i due H. simpl in H. now rewrite lookup_empty in H. }
  revert H0. generalize initialWorld as u. revert w.
  induction evs as [ | ev evs IH]; intros w u Hu; simpl.
  - now intros [= <-].
  - destruct (step ev u) as [u1 | ] eqn:E; [ | discriminate].
    apply IH. now apply (timers_due_step ev u).
Qed.

(** X1. In every world the adapter can be in, an entry of the pending table
    belongs to a request that was issued, whose promise is unsettled and
    whose timeout is still to fire, at most 1000 ms from now. So no entry
    outlives its timeout: with no timeout outstanding the table is empty. *)
Theorem pending_entries_are_live (w : World) :
  reachable w ->
  (forall id : N, is_Some (pending w !! id) ->
     pending w !! id = Some id
     /\ issued id w
     /\ promises w !! id = Some Pending
     /\ exists due : N, timers w !! id = Some due /\ (due <= clock w + 1000)%N)
  /\ (timers w = ∅ -> pending w = ∅).
Proof.
  intros Hr. pose proof (reachable_wf w Hr) as Hw.
  pose proof (timers_due_reachable w Hr) as Hd.
  assert (H : forall id : N, is_Some (pending w !! id) ->
     pending w !! id = Some id /\ issued id w /\ promises w !! id = Some Pending
     /\ exists due : N, timers w !! id = Some due /\ (due <= clock w + 1000)%N).
  { intros id [r Hp]. destruct (wf_pending w Hw id r Hp) as (-> & Hm & [due Ht]).
    split; [exact Hp | split; [ | split; [exact Hm | ]]].
    - apply (wf_timers w Hw). eauto.
    - exists due. split; [exact Ht | exact (Hd id due Ht)]. }
  split; [exact H | ].
  intros He. apply map_eq. intros id. rewrite lookup_empty.
  destruct (pending w !! id) as [r | ] eqn:E; [ | reflexivity].
  destruct (H id) as (_ & _ & _ & due & Ht & _); [rewrite E; eauto | ].
  rewrite He, lookup_empty in Ht. discriminate.
Qed.

Lemma pending_entries_are_live_witness :
  pending (snd (project [geo 0 0] initialWorld)) !! 1%N = Some 1%N.
Proof.
  refine (proj1 (proj1 (pending_entries_are_live
                          (snd (project [geo 0 0] initialWorld)) _) 1%N _)).
  - exists [EvProject [geo 0 0]]. reflexivity.
  - eexists. reflexivity.
Defined.

Lemma fulfilled_step (i : N) (v : Resolution) (ev : event) (w w' : World) :
  wf w -> promises w !! i = Some (Fulfilled v) -> step ev w = Some w' ->
  promises w' !! i = Some (Fulfilled v).
Proof.
  intros Hw Hv.
  assert (Hi : issued i w) by (apply (wf_issued w Hw); eauto).
  assert (Hnp : pending w !! i = None).
  { destruct (pending w !! i) as [r | ] eqn:E; [ | reflexivity].
    destruct (wf_pending w Hw i r E) as (_ & Hm & _). congruence. }
  assert (Hres : forall j r u, pending w !! j = Some r ->
            promises (resolved j r u w) !! i = Some (Fulfilled v)).
  { intros j r u Hj.
    destruct (resolved_facts j r u w Hw Hj) as (-> & Em & _).
    rewrite Em, lookup_insert_ne; [exact Hv | congruence]. }
  destruct ev as [pts | pg data | j | d].
  - intros [= <-]. simpl. unfold issued, counter in Hi.
    rewrite lookup_insert_ne by lia. exact Hv.
  - intros [= <-]. destruct data; try exact Hv.
    rewrite handleMessage_response.
    destruct (pending w !! id) eqn:E; [now apply Hres | exact Hv].
  - intros (d & _ & _ & ->)%step_timeout. rewrite onTimeout_eq.
    destruct (pending w !! j) eqn:E; cbn [without_timer promises];
      [now apply Hres | exact Hv].
  - now intros [= <-].
Qed.

(** X2. A settled promise is final: once a promise of project is fulfilled
    with a value, no later call, message or timeout changes that value, and its
    resolve function is never called again. A response that arrives after the
    timeout, or a timeout that fires after the response, is without effect on
    it. *)
Theorem settled_promise_is_final
    (w w' : World) (evs : list event) (i : N) (v : Resolution) :
  reachable w ->
  promises w !! i = Some (Fulfilled v) ->
  run evs w = Some w' ->
  promises w' !! i = Some (Fulfilled v) /\ callsFor i w' = [v].
Proof.
  intros Hr Hv Hrun. pose proof (reachable_wf w Hr) as Hw.
  assert (H : promises w' !! i = Some (Fulfilled v)).
  { clear Hr. revert w Hw Hv Hrun.
    induction evs as [ | ev evs IH]; intros w Hw Hv; simpl.
    - now intros [= <-].
    - destruct (step ev w) as [w1 | ] eqn:E; [ | discriminate].
      apply IH; [now apply (wf_step ev w) | now apply (fulfilled_step i v ev w)]. }
  split; [exact H | ].
  rewrite (wf_calls w' (wf_run evs w w' Hw Hrun)), H. reflexivity.
Qed.

(** A call answered by the host, then the late timeout of the same call. *)
Definition answeredThenTimeout (pg : Page) : list event :=
  [EvAdvance 1000; EvTimeout 1;
   EvMessage pg (DAFT_TRANSIT_PROJECT_RESPONSE 1 [None])].

Lemma settled_promise_is_final_witness :
  exists w' : World,
    run (answeredThenTimeout flatPage)
        (handleMessage flatPage (DAFT_TRANSIT_PROJECT_RESPONSE 1 [Some (pixel 1 2)])
           (snd (project [geo 0 0] initialWorld))) = Some w'
    /\ promises w' !! 1%N = Some (Fulfilled (Some [Some (pixel 1 2)])).
Proof.
  eexists. split; [reflexivity | ].
  refine (proj1 (settled_promise_is_final _ _ (answeredThenTimeout flatPage) 1%N
                   (Some [Some (pixel 1 2)]) _ _ _)).
  - exists [EvProject [geo 0 0];
            EvMessage flatPage (DAFT_TRANSIT_PROJECT_RESPONSE 1 [Some (pixel 1 2)])].
    reflexivity.
  - reflexivity.
  - reflexivity.
Defined.

(** The identifiers of the projection requests posted so far, latest first. *)
Definition requestIds (w : World) : list N :=
  flat_map (fun m => match m with
                     | DAFT_TRANSIT_PROJECT_REQUEST id _ => [id]
                     | _ => []
                     end) (posted w).

(** [n; n-1; ...; 1] *)
Fixpoint countdown (n : nat) : list N :=
  match n with
  | O => []
  | S k => N.of_nat (S k) :: countdown k
  end.

Lemma countdown_bounds (n : nat) (i : N) :
  In i (countdown n) <-> (0 < i <= N.of_nat n)%N.
Proof.
  induction n as [ | n IH].
  - simpl. lia.
  - cbn [countdown In]. rewrite IH. lia.
Qed.

Lemma countdown_NoDup (n : nat) : List.NoDup (countdown n).
Proof.
  induction n as [ | n IH]; cbn [countdown]; constructor; [ | exact IH].
  rewrite countdown_bounds. lia.
Qed.

Lemma requestIds_step (ev : event) (w w' : World) :
  requestIds w = countdown (N.to_nat (counter w)) ->
  step ev w = Some w' ->
  requestIds w' = countdown (N.to_nat (counter w')).
Proof.
  intros H. destruct ev as [pts | pg data | j | d].
  - intros [= <-]. unfold requestIds, counter in *. cbn [project snd posted adapter
      _projIdCounter flat_map app]. rewrite H, N2Nat.inj_succ.
    cbn [countdown]. now rewrite <- N2Nat.inj_succ, N2Nat.id.
  - intros [= <-]. destruct data; try exact H.
    rewrite handleMessage_response. destruct (pending w !! id); exact H.
  - intros (d & _ & _ & ->)%step_timeout. rewrite onTimeout_eq.
    destruct (pending w !! j); exact H.
  - intros [= <-]. exact H.
Qed.

(** X3. The projection requests posted to the page carry the identifiers
    counter, counter - 1, ..., 1, latest first: one request for each call of
    project, no identifier used twice. *)
Theorem request_identifiers_never_reused (w : World) :
  reachable w ->
  requestIds w = countdown (N.to_nat (counter w))
  /\ List.NoDup (requestIds w)
  /\ forall id : N, In id (requestIds w) <-> issued id w.
Proof.
  intros [evs Hrun].
  assert (H : requestIds w = countdown (N.to_nat (counter w))).
  { revert Hrun.
    assert (H0 : requestIds initialWorld
                 = countdown (N.to_nat (counter initialWorld))) by reflexivity.
    revert H0. generalize initialWorld as u. revert w.
    induction evs as [ | ev evs IH]; intros w u Hu; simpl.
    - now intros [= <-].
    - destruct (step ev u) as [u1 | ] eqn:E; [ | discriminate].
      apply IH. now apply (requestIds_step ev u). }
  split; [exact H | ]. rewrite H. split; [apply countdown_NoDup | ].
  intros id. rewrite countdown_bounds, N2Nat.id. reflexivity.
Qed.

Lemma request_identifiers_never_reused_witness :
  requestIds (snd (project [geo 1 1] (snd (project [geo 0 0] initialWorld))))
  = [2%N; 1%N].
Proof.
  refine (proj1 (request_identifiers_never_reused _ _)).
  exists [EvProject [geo 0 0]; EvProject [geo 1 1]]. reflexivity.
Defined.

(** The viewport messages among the events. *)
Definition isViewportMessage (ev : event) : bool :=
  match ev with
  | EvMessage _ (DAFT_TRANSIT_MAP_VIEWPORT _) => true
  | _ => false
  end.

Lemma viewport_step (ev : event) (w w' : World) :
  step ev w = Some w' ->
  viewport (adapter w') =
  match ev with
  | EvMessage _ (DAFT_TRANSIT_MAP_VIEWPORT payload) => payload
  | _ => viewport (adapter w)
  end.
Proof.
  destruct ev as [pts | pg data | j | d].
  - now intros [= <-].
  - intros [= <-]. destruct data; try reflexivity.
    rewrite handleMessage_response. now destruct (pending w !! id).
  - intros (d & _ & _ & ->)%step_timeout. rewrite onTimeout_eq.
    now destruct (pending w !! j).
  - now intros [= <-].
Qed.

(** X4. The pushed viewport is only ever replaced by a viewport message: over
    events with no viewport message (a "map not found" signal, responses,
    timeouts, time passing) it stays what it was, so getViewport keeps
    answering with it on every page and does not go back to the URL. *)
Theorem pushed_viewport_persists
    (w w' : World) (evs : list event) (v : Viewport) (pg : Page) :
  viewport (adapter w) = Some v ->
  forallb (fun ev => negb (isViewportMessage ev)) evs = true ->
  run evs w = Some w' ->
  viewport (adapter w') = Some v /\ getViewport pg (adapter w') = Some v.
Proof.
  intros Hv Hq Hrun.
  assert (H : viewport (adapter w') = Some v).
  { revert w Hv Hrun. induction evs as [ | ev evs IH]; intros w Hv; simpl.
    - now intros [= <-].
    - destruct (step ev w) as [w1 | ] eqn:E; [ | discriminate].
      simpl in Hq. apply andb_prop in Hq. destruct Hq as [Hq1 Hq2].
      apply IH; [exact Hq2 | ].
      rewrite (viewport_step ev w w1 E).
      destruct ev as [ | pg' [ | | | | | | ] | | ]; try exact Hv. discriminate. }
  split; [exact H | ]. unfold getViewport. now rewrite H.
Qed.

Lemma pushed_viewport_persists_witness :
  getViewport flatPage
    (adapter (handleMessage flatPage DAFT_TRANSIT_MAP_NOT_FOUND
       (handleMessage flatPage
          (DAFT_TRANSIT_MAP_VIEWPORT (Some (viewportOf 2 1 4 3 0 0 800 600)))
          initialWorld)))
  = Some (viewportOf 2 1 4 3 0 0 800 600).
Proof.
  refine (proj2 (pushed_viewport_persists
    (handleMessage flatPage
       (DAFT_TRANSIT_MAP_VIEWPORT (Some (viewportOf 2 1 4 3 0 0 800 600)))
       initialWorld)
    _ [EvMessage flatPage DAFT_TRANSIT_MAP_NOT_FOUND]
    (viewportOf 2 1 4 3 0 0 800 600) flatPage _ _ _)); reflexivity.
Defined.

(** X5. Discovery fallback. When a "map not found" signal is handled on a
    page that shows a map element of non-zero width and whose URL has the four
    bounds, and no viewport was ever pushed, then the adapter has no instance,
    has found the map, and getViewport is the viewport made of the URL bounds
    and of the rectangle of that element. *)
Theorem getViewport_after_map_not_found (pg : Page) (w : World) (c : Node) :
  viewport (adapter w) = None ->
  querySelectorMap pg = Some c ->
  strict_eq (width (getBoundingClientRect pg c)) (Fin 0) = false ->
  (forall k : string, In k ["top"; "bottom"; "left"; "right"]%string ->
     isNaN (searchParam pg k) = false) ->
  instanceAvailable (adapter (handleMessage pg DAFT_TRANSIT_MAP_NOT_FOUND w)) = false
  /\ found (adapter (handleMessage pg DAFT_TRANSIT_MAP_NOT_FOUND w)) = true
  /\ getViewport pg (adapter (handleMessage pg DAFT_TRANSIT_MAP_NOT_FOUND w)) =
     Some {| bounds := {| north := searchParam pg "top";
                          south := searchParam pg "bottom";
                          east := searchParam pg "right";
                          west := searchParam pg "left" |};
             containerRect := {| top := top (getBoundingClientRect pg c);
                                 left := left (getBoundingClientRect pg c);
                                 width := width (getBoundingClientRect pg c);
                                 height := height (getBoundingClientRect pg c) |} |}.
Proof.
  intros Hv Hq Hw Hk.
  unfold getViewport, _viewportFromURL. simpl. rewrite Hv, Hq, Hw.
  rewrite !Hk by (simpl; auto). simpl. auto.
Qed.

Lemma getViewport_after_map_not_found_witness :
  is_Some (getViewport flatPage
             (adapter (handleMessage flatPage DAFT_TRANSIT_MAP_NOT_FOUND initialWorld))).
Proof.
  rewrite (proj2 (proj2 (getViewport_after_map_not_found flatPage initialWorld 7%N
                           eq_refl eq_refl
                           ltac:(simpl; unfold strict_eq;
                                 destruct (Req_dec_T 800 0); [lra | reflexivity])
                           ltac:(intros k [<- | [<- | [<- | [<- | []]]]]; reflexivity)))).
  eauto.
Defined.

End BridgeTraces.

(** ** Page script *)

Module PageScriptSpec.
Import JSNumber Projector Bridge BridgeSpec Renderer PageScript.

#[local] Arguments N.lt : simpl never.
#[local] Arguments N.le : simpl never.
#[local] Arguments N.succ : simpl never.
#[local] Arguments N.add : simpl never.
#[local] Arguments N.ltb : simpl never.

(** poll finds no map on this page. *)
Definition miss (h : Host) : Prop := findMapInstance h = None.

(** No map yet, [a] failed attempts, and a timer set for the next one. *)
Definition waiting (a : N) : PageState :=
  {| mapInstance := None; pollAttempts := a; pollPending := true;
     listening := []; outbox := [] |}.

Lemma pollTimers_idle (hs : list Host) (st : PageState) :
  pollPending st = false -> pollTimers hs st = st.
Proof. intros H. destruct hs; simpl; [reflexivity | now rewrite H]. Qed.

Lemma pollTimers_app (l1 l2 : list Host) (st : PageState) :
  pollTimers (l1 ++ l2) st = pollTimers l2 (pollTimers l1 st).
Proof.
  revert st. induction l1 as [ | h l1 IH]; intros st; simpl; [reflexivity | ].
  destruct (pollPending st) eqn:E; [apply IH | ].
  symmetry. now apply pollTimers_idle.
Qed.

Lemma onPollTimer_miss (h : Host) (a : N) :
  miss h -> (N.succ a < MAX_POLL)%N ->
  onPollTimer h (waiting a) = waiting (N.succ a).
Proof.
  intros Hm Ha. unfold onPollTimer, poll, waiting. cbn [mapInstance pollAttempts].
  rewrite Hm. destruct (N.ltb_spec (N.succ a) MAX_POLL); [reflexivity | lia].
Qed.

Lemma pollTimers_miss (hs : list Host) (a : N) :
  Forall miss hs -> (a + N.of_nat (length hs) < MAX_POLL)%N ->
  pollTimers hs (waiting a) = waiting (a + N.of_nat (length hs)).
Proof.
  revert a. induction hs as [ | h hs IH]; intros a Hm Ha.
  - simpl. f_equal. lia.
  - inversion Hm; subst. cbn [pollTimers waiting pollPending length] in *.
    fold (waiting a). rewrite onPollTimer_miss by (assumption || lia).
    rewrite IH by (assumption || lia). f_equal. lia.
Qed.

Lemma poll_first_miss (h : Host) : miss h -> poll h initialPage = waiting 1.
Proof. intros Hm. unfold poll. simpl. now rewrite Hm. Qed.

(** What the page has posted and keeps once a map [m] was found on page [h]
    after [a] failed attempts. *)
Definition foundState (h : Host) (m : N) (a : N) : PageState :=
  {| mapInstance := Some m; pollAttempts := a; pollPending := false;
     listening := [m];
     outbox := match hostViewport h m with
               | Some v => [DAFT_TRANSIT_MAP_VIEWPORT (Some v); DAFT_TRANSIT_MAP_FOUND]
               | None => [DAFT_TRANSIT_MAP_FOUND]
               end |}.

Lemma onMapFound_fresh (h : Host) (m : N) (a : N) (p : bool) :
  onMapFound h m {| mapInstance := None; pollAttempts := a; pollPending := p;
                    listening := []; outbox := [] |}
  = {| mapInstance := Some m; pollAttempts := a; pollPending := p;
       listening := [m]; outbox := outbox (foundState h m a) |}.
Proof.
  unfold onMapFound, sendViewport, post, foundState. simpl.
  now destruct (hostViewport h m).
Qed.

(** X6. Bounded polling. Started on a fresh page, poll runs at most 80 times.
    When none of its first 80 runs finds a map, the 80th posts "map not found",
    once, and sets no further timer. When the run that follows [length pre]
    failed runs (fewer than 80) finds a map, it keeps it, posts "map found"
    and then the viewport if the map gives one, and sets no further timer;
    "map not found" is then never posted. *)
Theorem poll_is_bounded (pre rest : list Host) :
  Forall miss pre ->
  (length pre = 80 ->
   pollChain (pre ++ rest) initialPage
   = {| mapInstance := None; pollAttempts := 80; pollPending := false;
        listening := []; outbox := [DAFT_TRANSIT_MAP_NOT_FOUND] |})
  /\ (forall (h : Host) (m : N),
        length pre < 80 -> findMapInstance h = Some m ->
        pollChain (pre ++ h :: rest) initialPage
        = foundState h m (N.of_nat (length pre))).
Proof.
  intros Hm. split.
  - intros Hlen.
    destruct pre as [ | h0 pre]; [discriminate | ].
    destruct (exists_last (l := h0 :: pre) ltac:(discriminate)) as (mid & hl & E).
    assert (Hmid : length mid = 79).
    { apply (f_equal (@length Host)) in E. rewrite length_app in E. simpl in *. lia. }
    rewrite E in Hm. apply Forall_app in Hm. destruct Hm as [Hmid' Hl].
    inversion Hl as [ | ? ? Hhl _]; subst.
    rewrite E. destruct mid as [ | m0 mid]; [discriminate | ].
    inversion Hmid' as [ | ? ? Hm0 Hmid'']; subst.
    simpl in Hmid. cbn [app pollChain]. rewrite <- app_assoc.
    rewrite poll_first_miss by assumption.
    rewrite pollTimers_app, pollTimers_miss
      by (assumption || (unfold MAX_POLL; lia)).
    replace (1 + N.of_nat (length mid))%N with 79%N by lia.
    cbn [app pollTimers waiting pollPending].
    fold (waiting 79). unfold onPollTimer, poll, waiting.
    cbn [mapInstance pollAttempts]. rewrite Hhl.
    change (N.succ 79 <? MAX_POLL)%N with false. cbn iota.
    now apply pollTimers_idle.
  - intros h m Hlen Hf.
    destruct pre as [ | h0 pre].
    + cbn [app pollChain]. unfold poll. cbn [initialPage mapInstance].
      rewrite Hf. unfold initialPage. rewrite onMapFound_fresh.
      now apply pollTimers_idle.
    + inversion Hm as [ | ? ? Hm0 Hpre]; subst.
      simpl in Hlen. cbn [app pollChain].
      rewrite poll_first_miss by assumption.
      rewrite pollTimers_app, pollTimers_miss
        by (assumption || (unfold MAX_POLL; lia)).
      cbn [pollTimers waiting pollPending].
      unfold onPollTimer, poll. cbn [mapInstance pollAttempts listening outbox].
      rewrite Hf, onMapFound_fresh.
      rewrite pollTimers_idle by reflexivity.
      unfold foundState. f_equal. cbn [waiting pollAttempts length]. lia.
Qed.

(** A page on which the map appears at the third run of poll. *)
Definition pageWithoutMap : Host :=
  {| findMapInstance := None;
     hostProject := fun _ _ _ => None;
     hostViewport := fun _ => None |}.

Definition pageWithMap : Host :=
  {| findMapInstance := Some 5%N;
     hostProject := fun _ lng lat => Some {| x := lng; y := lat |};
     hostViewport := fun _ => Some (viewportOf 2 1 4 3 0 0 800 600) |}.

Lemma poll_is_bounded_witness :
  pollChain [pageWithoutMap; pageWithoutMap; pageWithMap; pageWithoutMap] initialPage
  = foundState pageWithMap 5 2.
Proof.
  refine (proj2 (poll_is_bounded [pageWithoutMap; pageWithoutMap] [pageWithoutMap] _)
            pageWithMap 5%N _ _).
  - repeat constructor.
  - simpl. lia.
  - reflexivity.
Defined.

(** X7. Request and answer, end to end. The request that a call of project
    posts, handled by the page script, is answered by a response that carries
    the same identifier and one entry for each point, in order: the host's
    projection of the point, or null where the host's projector throws or the
    page has no map. Handled by the adapter, this response fulfils the promise
    of the call with exactly these entries. *)
Theorem project_round_trip
    (w : World) (pts : list GeoPoint) (h : Host) (st : PageState) (pg : Page) :
  reachable w ->
  exists results : Projection,
    posted (snd (project pts w))
    = DAFT_TRANSIT_PROJECT_REQUEST (fst (project pts w)) pts :: posted w
    /\ outbox (onPageMessage h
                 (DAFT_TRANSIT_PROJECT_REQUEST (fst (project pts w)) pts) st)
       = DAFT_TRANSIT_PROJECT_RESPONSE (fst (project pts w)) results :: outbox st
    /\ length results = length pts
    /\ (forall (k : nat) (p : GeoPoint), nth_error pts k = Some p ->
          nth_error results k = Some (projectPoint h st (lat p) (lng p)))
    /\ (mapInstance st = None -> Forall (fun r => r = None) results)
    /\ promises (handleMessage pg
         (DAFT_TRANSIT_PROJECT_RESPONSE (fst (project pts w)) results)
         (snd (project pts w))) !! fst (project pts w)
       = Some (Fulfilled (Some results)).
Proof.
  intros Hr. pose proof (reachable_wf w Hr) as Hw.
  pose proof (wf_project pts w Hw) as Hw1.
  exists (map (fun p => projectPoint h st (lat p) (lng p)) pts).
  split; [reflexivity | split; [reflexivity | split; [apply length_map | ]]].
  split; [ | split].
  - intros k p Hk. now rewrite nth_error_map, Hk.
  - intros Hn. apply Forall_map, Forall_forall. intros p _.
    unfold projectPoint. now rewrite Hn.
  - rewrite handleMessage_response.
    assert (Hp : pending (snd (project pts w)) !! fst (project pts w)
                 = Some (fst (project pts w))).
    { unfold pending. simpl. apply lookup_insert_eq. }
    rewrite Hp.
    destruct (resolved_facts _ _ (Some (map (fun p => projectPoint h st (lat p) (lng p)) pts))
                _ Hw1 Hp) as (_ & Em & _).
    rewrite Em. apply lookup_insert_eq.
Qed.

Lemma project_round_trip_witness :
  exists results : Projection,
    outbox (onPageMessage pageWithMap
              (DAFT_TRANSIT_PROJECT_REQUEST 1 [geo 1 2]) (foundState pageWithMap 5 2))
    = DAFT_TRANSIT_PROJECT_RESPONSE 1 results
        :: outbox (foundState pageWithMap 5 2)
    /\ length results = 1.
Proof.
  destruct (project_round_trip initialWorld [geo 1 2] pageWithMap
              (foundState pageWithMap 5 2) flatPage)
    as (results & _ & H2 & H3 & _).
  - exists []. reflexivity.
  - exists results. split; [exact H2 | exact H3].
Defined.

(** X8. An answer of the host in which every entry is null (its projector
    threw for every point, as for a map being torn down) is treated like no
    answer: render does not draw from it, and uses projectAll on the viewport
    of getViewport, or returns when there is none. *)
Theorem all_null_answer_falls_back
    (h : Host) (st : PageState) (pg : Page) (a a' : MapAdapter)
    (id : N) (pts : list GeoPoint) (scale : number) :
  (forall p : GeoPoint, In p pts -> projectPoint h st (lat p) (lng p) = None) ->
  exists results : Projection,
    outbox (onPageMessage h (DAFT_TRANSIT_PROJECT_REQUEST id pts) st)
    = DAFT_TRANSIT_PROJECT_RESPONSE id results :: outbox st
    /\ hostProjected a (Some results) = None
    /\ resolveProjected pg a' (hostProjected a (Some results)) pts
       = match getViewport pg a' with
         | Some vp => Some (map Some (projectAll pts vp))
         | None => None
         end
    /\ (getViewport pg a' = None ->
        renderProject pg a a' (Some results) pts scale = Returned).
Proof.
  intros Hnull.
  exists (map (fun p => projectPoint h st (lat p) (lng p)) pts).
  assert (E : hostProjected a
                (Some (map (fun p => projectPoint h st (lat p) (lng p)) pts)) = None).
  { unfold hostProjected. destruct (instanceAvailable a); [ | reflexivity].
    destruct (existsb _ _) eqn:Ex; [ | reflexivity].
    apply existsb_exists in Ex. destruct Ex as ([q | ] & Hin & Hq); [ | discriminate].
    apply in_map_iff in Hin. destruct Hin as (p & Hp & Hin).
    rewrite (Hnull p Hin) in Hp. discriminate. }
  split; [reflexivity | split; [exact E | split]].
  - rewrite E. reflexivity.
  - intros Hv. unfold renderProject. rewrite E. simpl. now rewrite Hv.
Qed.

Lemma all_null_answer_falls_back_witness :
  exists results : Projection,
    hostProjected (adapter (handleMessage flatPage DAFT_TRANSIT_MAP_FOUND initialWorld))
                  (Some results) = None
    /\ length results = 1.
Proof.
  destruct (all_null_answer_falls_back pageWithoutMap initialPage flatPage
              (adapter (handleMessage flatPage DAFT_TRANSIT_MAP_FOUND initialWorld))
              initialAdapter 1%N [geo 1 2] (Fin 0))
    as (results & H1 & H2 & _).
  - intros p _. reflexivity.
  - exists results. split; [exact H2 | ].
    simpl in H1. injection H1 as <-. reflexivity.
Defined.

End PageScriptSpec.

(** ** The points gathered by render and their index *)

Module GatherSpec.
Import JSNumber Projector Renderer Gather.

Lemma skipn_length_app {A : Type} (l k : list A) : skipn (length l) (l ++ k) = k.
Proof. induction l as [ | a l IH]; simpl; auto. Qed.

Lemma firstn_length_app {A : Type} (l k : list A) : firstn (length l) (l ++ k) = l.
Proof. induction l as [ | a l IH]; simpl; [reflexivity | now rewrite IH]. Qed.

(** The points of a list of line features, and the entries that
    addLineFeatures makes for them when [n] points were gathered before. *)
Definition linePoints (fc : list LineFeature) : list GeoPoint :=
  flat_map (fun f => map toPoint (coordsOf f)) fc.

Fixpoint segsFrom (n : nat) (fc : list LineFeature) : list Seg.t :=
  match fc with
  | [] => []
  | f :: r =>
      {| Seg.start := n; Seg.count := length (coordsOf f);
         Seg.props := lineProperties f |}
        :: segsFrom (n + length (coordsOf f)) r
  end.

Definition stopPoints (fc : list PointFeature) : list GeoPoint :=
  map (fun f => toPoint (pointCoordinates f)) fc.

Fixpoint stopsFrom (n : nat) (fc : list PointFeature) : list Stop.t :=
  match fc with
  | [] => []
  | f :: r => {| Stop.i := n; Stop.props := pointProperties f |} :: stopsFrom (S n) r
  end.

Lemma addLineFeatures_spec (fc : list LineFeature) (pts : list GeoPoint)
    (idx : list Seg.t) :
  addLineFeatures fc (pts, idx)
  = (pts ++ linePoints fc, idx ++ segsFrom (length pts) fc).
Proof.
  unfold addLineFeatures. revert pts idx.
  induction fc as [ | f fc IH]; intros pts idx; simpl.
  - now rewrite !app_nil_r.
  - rewrite IH. rewrite length_app, length_map, <- !app_assoc. reflexivity.
Qed.

Lemma addPointFeatures_spec (fc : list PointFeature) (pts : list GeoPoint)
    (idx : list Stop.t) :
  addPointFeatures fc (pts, idx)
  = (pts ++ stopPoints fc, idx ++ stopsFrom (length pts) fc).
Proof.
  unfold addPointFeatures. revert pts idx.
  induction fc as [ | f fc IH]; intros pts idx; simpl.
  - now rewrite !app_nil_r.
  - rewrite IH. rewrite length_app, <- !app_assoc. simpl.
    now rewrite Nat.add_1_r.
Qed.

(** An entry for a line names the points of one feature of its collection. *)
Definition segSound (fc : list LineFeature) (pts : list GeoPoint) (s : Seg.t) : Prop :=
  exists f : LineFeature,
    In f fc
    /\ Seg.props s = lineProperties f
    /\ Seg.count s = length (coordsOf f)
    /\ Seg.start s + Seg.count s <= length pts
    /\ firstn (Seg.count s) (skipn (Seg.start s) pts) = map toPoint (coordsOf f).

Definition stopSound (fc : list PointFeature) (pts : list GeoPoint) (s : Stop.t) : Prop :=
  exists f : PointFeature,
    In f fc
    /\ Stop.props s = pointProperties f
    /\ nth_error pts (Stop.i s) = Some (toPoint (pointCoordinates f)).

Lemma segsFrom_sound (fc : list LineFeature) (before after : list GeoPoint) :
  Forall (segSound fc (before ++ linePoints fc ++ after))
         (segsFrom (length before) fc).
Proof.
  revert before. induction fc as [ | f fc IH]; intros before; simpl.
  - constructor.
  - constructor.
    + exists f. cbn [Seg.start Seg.count Seg.props].
      split; [now left | split; [reflexivity | split; [reflexivity | split]]].
      * rewrite !length_app, length_map. lia.
      * rewrite skipn_length_app, <- app_assoc.
        rewrite <- (length_map toPoint (coordsOf f)).
        apply firstn_length_app.
    + specialize (IH (before ++ map toPoint (coordsOf f))).
      rewrite length_app, length_map in IH.
      rewrite <- !app_assoc in IH. rewrite <- app_assoc.
      eapply Forall_impl; [exact IH | ].
      intros s (g & Hin & H). exists g. split; [now right | exact H].
Qed.

Lemma stopsFrom_sound (fc : list PointFeature) (before after : list GeoPoint) :
  Forall (stopSound fc (before ++ stopPoints fc ++ after))
         (stopsFrom (length before) fc).
Proof.
  revert before. induction fc as [ | f fc IH]; intros before; simpl.
  - constructor.
  - constructor.
    + exists f. cbn [Stop.i Stop.props].
      split; [now left | split; [reflexivity | ]].
      rewrite nth_error_app2 by lia. now rewrite Nat.sub_diag.
    + specialize (IH (before ++ [toPoint (pointCoordinates f)])).
      rewrite length_app, Nat.add_1_r in IH.
      rewrite <- !app_assoc in IH.
      eapply Forall_impl; [exact IH | ].
      intros s (g & Hin & H). exists g. split; [now right | exact H].
Qed.

Lemma segsFrom_props (n : nat) (fc : list LineFeature) :
  map Seg.props (segsFrom n fc) = map lineProperties fc.
Proof. revert n. induction fc as [ | f fc IH]; intros n; simpl; [ | rewrite IH]; auto. Qed.

Lemma stopsFrom_props (n : nat) (fc : list PointFeature) :
  map Stop.props (stopsFrom n fc) = map pointProperties fc.
Proof. revert n. induction fc as [ | f fc IH]; intros n; simpl; [ | rewrite IH]; auto. Qed.

Lemma segsFrom_counts (n : nat) (fc : list LineFeature) :
  list_sum (map Seg.count (segsFrom n fc)) = length (linePoints fc).
Proof.
  revert n. induction fc as [ | f fc IH]; intros n; simpl; [reflexivity | ].
  now rewrite IH, length_app, length_map.
Qed.

Lemma stopsFrom_length (n : nat) (fc : list PointFeature) :
  length (stopsFrom n fc) = length (stopPoints fc).
Proof.
  revert n. induction fc as [ | f fc IH]; intros n; simpl; [ | rewrite IH]; auto.
Qed.

Section WithLowerCase.

Variable toLowerCase : string -> string.

(** The rail features that the two sub-toggles let through. *)
Definition keptLines (s : Settings) (d : Data.t) : list LineFeature :=
  List.filter (fun f => if isDart toLowerCase (lineProperties f)
                        then dartLines s else irishRailLines s)
              (Data.railLines d).

Definition keptStations (s : Settings) (d : Data.t) : list PointFeature :=
  List.filter (fun f => if isDart toLowerCase (pointProperties f)
                        then dartStations s else irishRailStations s)
              (Data.railStations d).

Definition shownLuasLines (s : Settings) (d : Data.t) : list LineFeature :=
  if Renderer.luasLines s then Data.luasLines d else [].

Definition shownLuasStops (s : Settings) (d : Data.t) : list PointFeature :=
  if Renderer.luasStops s then Data.luasStops d else [].

Lemma filter_all_off {A : Type} (p : A -> bool) (b1 b2 : bool) (l : list A) :
  b1 || b2 = false ->
  List.filter (fun f => if p f then b1 else b2) l = [].
Proof.
  intros H. apply orb_false_elim in H. destruct H as [-> ->].
  induction l as [ | a l IH]; simpl; [reflexivity | ].
  now destruct (p a).
Qed.

(** What gather returns, collection after collection. *)
Lemma gather_spec (s : Settings) (d : Data.t) :
  gather toLowerCase s d =
  (linePoints (shownLuasLines s d) ++ stopPoints (shownLuasStops s d)
     ++ linePoints (keptLines s d) ++ stopPoints (keptStations s d),
   {| Idx.luasLines := segsFrom 0 (shownLuasLines s d);
      Idx.luasStops :=
        stopsFrom (length (linePoints (shownLuasLines s d))) (shownLuasStops s d);
      Idx.railLines :=
        segsFrom (length (linePoints (shownLuasLines s d)
                          ++ stopPoints (shownLuasStops s d))) (keptLines s d);
      Idx.railStations :=
        stopsFrom (length ((linePoints (shownLuasLines s d)
                            ++ stopPoints (shownLuasStops s d))
                           ++ linePoints (keptLines s d))) (keptStations s d) |}).
Proof.
  unfold gather, shownLuasLines, shownLuasStops.
  assert (E1 : (if Renderer.luasLines s
                then addLineFeatures (Data.luasLines d) ([], [])
                else ([], []))
               = (linePoints (if Renderer.luasLines s then Data.luasLines d else []),
                  segsFrom 0 (if Renderer.luasLines s then Data.luasLines d else []))).
  { destruct (Renderer.luasLines s); [apply addLineFeatures_spec | reflexivity]. }
  rewrite E1. clear E1.
  set (P1 := linePoints (if Renderer.luasLines s then Data.luasLines d else [])).
  assert (E2 : (if Renderer.luasStops s
                then addPointFeatures (Data.luasStops d) (P1, [])
                else (P1, []))
               = (P1 ++ stopPoints (if Renderer.luasStops s then Data.luasStops d else []),
                  stopsFrom (length P1)
                    (if Renderer.luasStops s then Data.luasStops d else []))).
  { destruct (Renderer.luasStops s); [apply addPointFeatures_spec | ].
    simpl. now rewrite app_nil_r. }
  rewrite E2. clear E2.
  set (P2 := P1 ++ stopPoints (if Renderer.luasStops s then Data.luasStops d else [])).
  fold (keptLines s d).
  assert (E3 : (if dartLines s || irishRailLines s
                then addLineFeatures (keptLines s d) (P2, [])
                else (P2, []))
               = (P2 ++ linePoints (keptLines s d),
                  segsFrom (length P2) (keptLines s d))).
  { destruct (dartLines s || irishRailLines s) eqn:E; [apply addLineFeatures_spec | ].
    unfold keptLines. rewrite (filter_all_off _ _ _ _ E). simpl.
    now rewrite app_nil_r. }
  rewrite E3. clear E3.
  set (P3 := P2 ++ linePoints (keptLines s d)).
  fold (keptStations s d).
  assert (E4 : (if dartStations s || irishRailStations s
                then addPointFeatures (keptStations s d) (P3, [])
                else (P3, []))
               = (P3 ++ stopPoints (keptStations s d),
                  stopsFrom (length P3) (keptStations s d))).
  { destruct (dartStations s || irishRailStations s) eqn:E;
      [apply addPointFeatures_spec | ].
    unfold keptStations. rewrite (filter_all_off _ _ _ _ E). simpl.
    now rewrite app_nil_r. }
  rewrite E4. clear E4. unfold P3, P2, P1.
  rewrite <- !app_assoc. reflexivity.
Qed.

(** X9. The index that render builds is sound for the points it gathers:
    every entry for a line holds the properties of a feature of its
    collection and names, by start and count, a range inside pts that is
    exactly the points of that feature, in order; every entry for a stop names
    the position in pts of the point of its feature; and the points are
    exactly those named, none left over. *)
Theorem gather_index_is_sound (s : Settings) (d : Data.t) :
  let pts := fst (gather toLowerCase s d) in
  let idx := snd (gather toLowerCase s d) in
  Forall (segSound (Data.luasLines d) pts) (Idx.luasLines idx)
  /\ Forall (stopSound (Data.luasStops d) pts) (Idx.luasStops idx)
  /\ Forall (segSound (Data.railLines d) pts) (Idx.railLines idx)
  /\ Forall (stopSound (Data.railStations d) pts) (Idx.railStations idx)
  /\ length pts
     = list_sum (map Seg.count (Idx.luasLines idx)) + length (Idx.luasStops idx)
       + list_sum (map Seg.count (Idx.railLines idx)) + length (Idx.railStations idx).
Proof.
  rewrite gather_spec. cbn [fst snd Idx.luasLines Idx.luasStops Idx.railLines
                            Idx.railStations].
  assert (Hsub1 : forall f, In f (shownLuasLines s d) -> In f (Data.luasLines d)).
  { unfold shownLuasLines. destruct (Renderer.luasLines s); [auto | intros ? []]. }
  assert (Hsub2 : forall f, In f (shownLuasStops s d) -> In f (Data.luasStops d)).
  { unfold shownLuasStops. destruct (Renderer.luasStops s); [auto | intros ? []]. }
  assert (Hsub3 : forall f, In f (keptLines s d) -> In f (Data.railLines d)).
  { intros f Hf. unfold keptLines in Hf. now apply filter_In in Hf. }
  assert (Hsub4 : forall f, In f (keptStations s d) -> In f (Data.railStations d)).
  { intros f Hf. unfold keptStations in Hf. now apply filter_In in Hf. }
  set (L1 := shownLuasLines s d) in *. set (S1 := shownLuasStops s d) in *.
  set (L2 := keptLines s d) in *. set (S2 := keptStations s d) in *.
  split; [ | split; [ | split; [ | split]]].
  - pose proof (segsFrom_sound L1 [] (stopPoints S1 ++ linePoints L2 ++ stopPoints S2))
      as H. simpl in H.
    eapply Forall_impl; [exact H | ].
    intros sg (f & Hin & Hf). exists f. split; [auto | exact Hf].
  - pose proof (stopsFrom_sound S1 (linePoints L1) (linePoints L2 ++ stopPoints S2))
      as H.
    eapply Forall_impl; [exact H | ].
    intros sg (f & Hin & Hf). exists f. split; [auto | exact Hf].
  - pose proof (segsFrom_sound L2 (linePoints L1 ++ stopPoints S1) (stopPoints S2))
      as H. rewrite <- !app_assoc in H.
    eapply Forall_impl; [exact H | ].
    intros sg (f & Hin & Hf). exists f. split; [auto | exact Hf].
  - pose proof (stopsFrom_sound S2 ((linePoints L1 ++ stopPoints S1) ++ linePoints L2) [])
      as H. rewrite app_nil_r, <- !app_assoc in H. rewrite <- !app_assoc.
    eapply Forall_impl; [exact H | ].
    intros sg (f & Hin & Hf). exists f. split; [auto | exact Hf].
  - rewrite !segsFrom_counts, !stopsFrom_length, !length_app. lia.
Qed.

(** X10. Layer filtering. The entries gathered for rail lines are those of
    the rail features that the sub-toggle of their kind lets through, in the
    order of the data: dartLines decides for a feature whose line lower-cases
    to dart and irishRailLines for every other one; likewise for stations with
    dartStations and irishRailStations, and for the Luas collections with
    their single toggle. With every layer off no point is gathered. *)
Theorem gather_filters_layers (s : Settings) (d : Data.t) :
  let pts := fst (gather toLowerCase s d) in
  let idx := snd (gather toLowerCase s d) in
  map Seg.props (Idx.railLines idx)
  = List.filter (fun p => if isDart toLowerCase p
                          then dartLines s else irishRailLines s)
                (map lineProperties (Data.railLines d))
  /\ map Stop.props (Idx.railStations idx)
     = List.filter (fun p => if isDart toLowerCase p
                             then dartStations s else irishRailStations s)
                   (map pointProperties (Data.railStations d))
  /\ map Seg.props (Idx.luasLines idx)
     = (if Renderer.luasLines s then map lineProperties (Data.luasLines d) else [])
  /\ map Stop.props (Idx.luasStops idx)
     = (if Renderer.luasStops s then map pointProperties (Data.luasStops d) else [])
  /\ (Renderer.luasLines s = false -> Renderer.luasStops s = false ->
      dartLines s = false -> irishRailLines s = false ->
      dartStations s = false -> irishRailStations s = false ->
      pts = []).
Proof.
  assert (Hf : forall (A : Type) (pr : A -> Properties) (q : Properties -> bool)
                 (l : list A),
             map pr (List.filter (fun f => q (pr f)) l) = List.filter q (map pr l)).
  { intros A pr q l. induction l as [ | a l IH]; simpl; [reflexivity | ].
    destruct (q (pr a)); simpl; now rewrite IH. }
  rewrite gather_spec. cbn [fst snd Idx.luasLines Idx.luasStops Idx.railLines
                            Idx.railStations].
  rewrite !segsFrom_props, !stopsFrom_props.
  split; [ | split; [ | split; [ | split]]].
  - unfold keptLines.
    apply (Hf LineFeature lineProperties
             (fun p => if isDart toLowerCase p then dartLines s else irishRailLines s)).
  - unfold keptStations.
    apply (Hf PointFeature pointProperties
             (fun p => if isDart toLowerCase p
                       then dartStations s else irishRailStations s)).
  - unfold shownLuasLines. now destruct (Renderer.luasLines s).
  - unfold shownLuasStops. now destruct (Renderer.luasStops s).
  - intros H1 H2 H3 H4 H5 H6.
    unfold shownLuasLines, shownLuasStops, keptLines, keptStations.
    rewrite H1, H2, !filter_all_off by (rewrite ?H3, ?H4, ?H5, ?H6; reflexivity).
    reflexivity.
Qed.

End WithLowerCase.

(** Lower-casing of the letters A to Z, and a small data set. *)
Fixpoint asciiLower (s : string) : string :=
  match s with
  | EmptyString => EmptyString
  | String a r =>
      let n := Ascii.nat_of_ascii a in
      String (if (65 <=? n)%nat && (n <=? 90)%nat
              then Ascii.ascii_of_nat (n + 32) else a)
             (asciiLower r)
  end.

Definition sampleData : Data.t :=
  {| Data.luasLines :=
       [ {| lineGeometry := LineString [(Fin 1, Fin 2); (Fin 3, Fin 4)];
            lineProperties := {| name := Some "Green Line"%string;
                                 line := Some "green"%string |} |} ];
     Data.luasStops := [];
     Data.railLines :=
       [ {| lineGeometry := MultiLineString [[(Fin 5, Fin 6)]; [(Fin 7, Fin 8)]];
            lineProperties := {| name := Some "DART"%string;
                                 line := Some "DART"%string |} |} ];
     Data.railStations :=
       [ {| pointCoordinates := (Fin 9, Fin 10);
            pointProperties := {| name := Some "Heuston"%string;
                                  line := None |} |} ] |}.

Definition allLayersOff : Settings :=
  {| enabled := true; luasLines := false; luasStops := false;
     dartLines := false; dartStations := false;
     irishRailLines := false; irishRailStations := false;
     opacity := 75;
     walkRadius5 := true; walkRadius10 := true; walkRadius20 := false |}.

Lemma gather_filters_layers_witness :
  fst (gather asciiLower allLayersOff sampleData) = [].
Proof.
  apply (proj2 (proj2 (proj2 (proj2
           (gather_filters_layers asciiLower allLayersOff sampleData)))));
    reflexivity.
Defined.

End GatherSpec.

(** ** Escaping *)

Module EscapeSpec.
Import Escape.
Local Open Scope string_scope.

#[local] Arguments append !s1 s2.

(** What esc writes for one character. *)
Definition escChar (a : ascii) : string :=
  if Ascii.eqb a amp then "&amp;"
  else if Ascii.eqb a quot then "&quot;"
  else if Ascii.eqb a lessThan then "&lt;"
  else if Ascii.eqb a greaterThan then "&gt;"
  else String a "".

Lemma append_assoc (s t u : string) : (s ++ t) ++ u = s ++ (t ++ u).
Proof. induction s as [ | a s IH]; simpl; [reflexivity | now rewrite IH]. Qed.

Lemma append_nil_r (s : string) : s ++ "" = s.
Proof. induction s as [ | a s IH]; simpl; [reflexivity | now rewrite IH]. Qed.

Lemma replaceAll_app (c : ascii) (by_ s t : string) :
  replaceAll c by_ (s ++ t) = replaceAll c by_ s ++ replaceAll c by_ t.
Proof.
  induction s as [ | a s IH]; simpl; [reflexivity | ].
  destruct (Ascii.eqb a c); rewrite IH; [now rewrite append_assoc | reflexivity].
Qed.

(** The four passes of esc amount to one pass that writes [escChar] for
    every character: the entities written by a pass hold none of the
    characters that the later passes replace. *)
Lemma esc_cons (a : ascii) (s : string) : esc (String a s) = escChar a ++ esc s.
Proof.
  unfold esc, escChar. cbn [replaceAll].
  destruct (Ascii.eqb_spec a amp) as [-> | Hamp].
  - rewrite !replaceAll_app. reflexivity.
  - cbn [replaceAll]. destruct (Ascii.eqb_spec a quot) as [-> | Hquot].
    + rewrite !replaceAll_app. reflexivity.
    + cbn [replaceAll]. destruct (Ascii.eqb_spec a lessThan) as [-> | Hlt].
      * rewrite !replaceAll_app. reflexivity.
      * cbn [replaceAll]. destruct (Ascii.eqb_spec a greaterThan) as [-> | Hgt].
        -- reflexivity.
        -- reflexivity.
Qed.

Lemma esc_nil : esc "" = "".
Proof. reflexivity. Qed.

Lemma occurs_app (c : ascii) (s t : string) :
  occurs c (s ++ t) = occurs c s || occurs c t.
Proof.
  induction s as [ | a s IH]; simpl; [reflexivity | ].
  now rewrite IH, orb_assoc.
Qed.

Lemma escChar_safe (a c : ascii) :
  c = quot \/ c = lessThan \/ c = greaterThan -> occurs c (escChar a) = false.
Proof.
  intros Hc. unfold escChar.
  destruct (Ascii.eqb_spec a amp);
    [destruct Hc as [-> | [-> | ->]]; reflexivity | ].
  destruct (Ascii.eqb_spec a quot);
    [destruct Hc as [-> | [-> | ->]]; reflexivity | ].
  destruct (Ascii.eqb_spec a lessThan);
    [destruct Hc as [-> | [-> | ->]]; reflexivity | ].
  destruct (Ascii.eqb_spec a greaterThan);
    [destruct Hc as [-> | [-> | ->]]; reflexivity | ].
  simpl. rewrite orb_false_r. apply Ascii.eqb_neq.
  destruct Hc as [-> | [-> | ->]]; assumption.
Qed.

(** X11. Whatever the name, esc(name) holds no double quote, no < and no >,
    so a name interpolated into an attribute of the markup cannot close the
    attribute or open a tag. *)
Theorem esc_leaves_no_markup_character (s : string) :
  occurs quot (esc s) = false
  /\ occurs lessThan (esc s) = false
  /\ occurs greaterThan (esc s) = false.
Proof.
  induction s as [ | a s (IH1 & IH2 & IH3)]; [repeat split | ].
  rewrite esc_cons, !occurs_app, IH1, IH2, IH3, !orb_false_r.
  repeat split; apply escChar_safe; auto.
Qed.

Lemma escChar_first (a : ascii) :
  exists r : string,
    escChar a = String (if Ascii.eqb a amp || Ascii.eqb a quot
                           || Ascii.eqb a lessThan || Ascii.eqb a greaterThan
                        then amp else a) r.
Proof.
  unfold escChar.
  destruct (Ascii.eqb a amp); [eexists; reflexivity | ].
  destruct (Ascii.eqb a quot); [eexists; reflexivity | ].
  destruct (Ascii.eqb a lessThan); [eexists; reflexivity | ].
  destruct (Ascii.eqb a greaterThan); eexists; reflexivity.
Qed.

Lemma esc_cons_inv (a b : ascii) (s t : string) :
  escChar a ++ s = escChar b ++ t -> a = b /\ s = t.
Proof.
  unfold escChar.
  destruct (Ascii.eqb_spec a amp) as [-> | Ha1];
  [ | destruct (Ascii.eqb_spec a quot) as [-> | Ha2];
  [ | destruct (Ascii.eqb_spec a lessThan) as [-> | Ha3];
  [ | destruct (Ascii.eqb_spec a greaterThan) as [-> | Ha4]]]];
  (destruct (Ascii.eqb_spec b amp) as [-> | Hb1];
  [ | destruct (Ascii.eqb_spec b quot) as [-> | Hb2];
  [ | destruct (Ascii.eqb_spec b lessThan) as [-> | Hb3];
  [ | destruct (Ascii.eqb_spec b greaterThan) as [-> | Hb4]]]]);
  simpl; intros H; try discriminate H;
  try (injection H as H; first [ now split | congruence | now subst ]).
Qed.

(** X12. esc is injective: two different names never get the same escaped
    text. *)
Theorem esc_injective (s t : string) : esc s = esc t -> s = t.
Proof.
  revert t. induction s as [ | a s IH]; intros [ | b t].
  - reflexivity.
  - rewrite esc_nil, esc_cons. destruct (escChar_first b) as [r ->]. discriminate.
  - rewrite esc_nil, esc_cons. destruct (escChar_first a) as [r ->]. discriminate.
  - rewrite !esc_cons. intros H. apply esc_cons_inv in H. destruct H as [-> H].
    f_equal. now apply IH.
Qed.

Lemma esc_injective_witness : "Heuston" = "Heuston".
Proof. apply (esc_injective "Heuston" "Heuston"). reflexivity. Defined.

(** X13. esc works character by character: the escaped text of a
    concatenation is the concatenation of the escaped texts, and a string with
    no ampersand, double quote, < or > is left as it is. *)
Theorem esc_is_a_substitution (s t : string) :
  esc (s ++ t) = esc s ++ esc t
  /\ (occurs amp s = false -> occurs quot s = false ->
      occurs lessThan s = false -> occurs greaterThan s = false ->
      esc s = s).
Proof.
  split.
  - induction s as [ | a s IH]; [reflexivity | ].
    cbn [append]. rewrite !esc_cons, IH. now rewrite append_assoc.
  - induction s as [ | a s IH]; [reflexivity | ].
    cbn [occurs]. intros H1 H2 H3 H4.
    apply orb_false_elim in H1, H2, H3, H4.
    destruct H1 as [A1 B1], H2 as [A2 B2], H3 as [A3 B3], H4 as [A4 B4].
    rewrite esc_cons, IH by assumption.
    unfold escChar. now rewrite A1, A2, A3, A4.
Qed.

Lemma esc_is_a_substitution_witness : esc "St. Stephen's Green" = "St. Stephen's Green".
Proof.
  apply (proj2 (esc_is_a_substitution "St. Stephen's Green" "")); reflexivity.
Defined.

End EscapeSpec.

(** ** Rendering and rings: further properties *)

Module RendererMore.
Import JSNumber Projector Bridge Renderer NumberFacts ProjectorSpec RendererSpec.
Local Open Scope R_scope.

(** X17. render can throw: when the adapter has a map instance, the host
    answers with a null first or second entry (and some entry that is not
    null), at least two points were gathered, and there is no viewport, the
    step that infers the scale factor reads .x of null and render throws
    before anything is drawn. *)
Theorem render_throws_on_null_entry
    (pg : Page) (a a' : MapAdapter) (p0 p1 : GeoPoint) (pts : list GeoPoint)
    (q0 q1 : option ProjectedPoint) (rest : Projection) (scale : number) :
  instanceAvailable a = true ->
  getViewport pg a' = None ->
  hasNonNull (q0 :: q1 :: rest) ->
  q0 = None \/ q1 = None ->
  renderProject pg a a' (Some (q0 :: q1 :: rest)) (p0 :: p1 :: pts) scale = Threw.
Proof.
  intros Ha Hv Hnn Hnull.
  assert (E : hostProjected a (Some (q0 :: q1 :: rest)) = Some (q0 :: q1 :: rest))
    by now apply hostProjected_some.
  unfold renderProject. rewrite E. cbn [resolveProjected]. rewrite Hv.
  unfold updatePxPerMeter.
  destruct Hnull as [-> | ->]; [now destruct q1 | now destruct q0].
Qed.

Lemma render_throws_on_null_entry_witness :
  renderProject
    {| querySelectorMap := None;
       getBoundingClientRect := fun _ => {| top := Fin 0; left := Fin 0;
                                            width := Fin 0; height := Fin 0 |};
       searchParam := fun _ => NaN |}
    (adapter (handleMessage BridgeSpec.flatPage DAFT_TRANSIT_MAP_FOUND initialWorld))
    initialAdapter
    (Some [None; Some (pixel 1 2)]) [geo 0 0; geo 1 1] (Fin 0) = Threw.
Proof.
  apply render_throws_on_null_entry.
  - reflexivity.
  - reflexivity.
  - exists (pixel 1 2). simpl. auto.
  - left. reflexivity.
Defined.

(** *** Rings *)

Lemma elemId_appendRings (s : Settings) (scale cx cy : number)
    (radii : list WalkRadius) (group : Element) :
  elemId (appendRings s scale cx cy radii group) = elemId group.
Proof.
  revert group. induction radii as [ | r radii IH]; intros group; simpl.
  - reflexivity.
  - destruct (negb (settingOf s (key r))); rewrite IH; [reflexivity | ].
    now destruct group.
Qed.

Lemma hideWalkRadius_inserted (o : Overlay) (svg group : Element) :
  svgOverlay o = Some svg ->
  elemId group = "dt-walk-radii"%string ->
  hideWalkRadius (with_svg o (insertFirst group svg)) = o.
Proof.
  intros Hsvg Hid. unfold hideWalkRadius, with_svg. cbn [svgOverlay].
  destruct svg as [tg i at_ tx cs]. cbn [insertFirst removeById].
  rewrite Hid. cbn [String.eqb Ascii.eqb Bool.eqb]. cbn [_pxPerMeter settings].
  destruct o as [sv sc st]. cbn in *. now rewrite Hsvg.
Qed.

(** X18. One marker's rings at a time. On an overlay that holds no element
    with the id dt-walk-radii (as render leaves it), hideWalkRadius undoes
    showWalkRadius: whatever showWalkRadius added for a marker is removed and
    the overlay is as before. So showing the rings of a second marker gives
    the overlay that showing them directly would give; rings of the first
    marker never remain. *)
Theorem rings_are_replaced (g : Element) (o o' : Overlay) (svg : Element) :
  svgOverlay o = Some svg ->
  removeById "dt-walk-radii" svg = None ->
  showWalkRadius g o = Normal o' ->
  hideWalkRadius o' = o
  /\ forall g2 : Element, showWalkRadius g2 o' = showWalkRadius g2 o.
Proof.
  intros Hsvg Hclean Hshow.
  assert (Hid : hideWalkRadius o = o).
  { unfold hideWalkRadius. now rewrite Hsvg, Hclean. }
  assert (Hback : hideWalkRadius o' = o).
  { unfold showWalkRadius in Hshow. rewrite Hid, Hsvg in Hshow.
    cbv zeta in Hshow.
    destruct (le (_pxPerMeter o) (Fin 0)); [injection Hshow as <-; exact Hid | ].
    destruct (negb _); [injection Hshow as <-; exact Hid | ].
    destruct (querySelector "circle" g) as [c | ]; [ | discriminate].
    injection Hshow as <-.
    apply hideWalkRadius_inserted; [exact Hsvg | ].
    exact (elemId_appendRings (settings o) (_pxPerMeter o) _ _ WALK_RADII
             (setId "dt-walk-radii" (createElementNS "g"))). }
  split; [exact Hback | ].
  intros g2. unfold showWalkRadius. now rewrite Hback, Hid.
Qed.

Lemma rings_are_replaced_witness :
  exists o' : Overlay,
    showWalkRadius stopMarker hoverOverlay = Normal o'
    /\ hideWalkRadius o' = hoverOverlay.
Proof.
  destruct (showWalkRadius_unfold stopMarker _ _ hoverOverlay eq_refl
              (proj2 (gt_Fin 1 0) ltac:(lra)) eq_refl) as (svg' & _ & E).
  simpl negb in E. cbv iota in E.
  eexists. split; [exact E | ].
  exact (proj1 (rings_are_replaced stopMarker hoverOverlay _ _ eq_refl eq_refl E)).
Defined.

Lemma showWalkRadius_unfold_le (g c svg : Element) (o : Overlay) :
  svgOverlay o = Some svg ->
  le (_pxPerMeter o) (Fin 0) = false ->
  querySelector "circle" g = Some c ->
  exists svg' : Element,
    svgOverlay (hideWalkRadius o) = Some svg'
    /\ showWalkRadius g o =
       if negb (walkRadius5 (settings o) || (walkRadius10 (settings o)
                || (walkRadius20 (settings o) || false)))
       then Normal (hideWalkRadius o)
       else Normal (with_svg (hideWalkRadius o)
              (insertFirst
                 (appendRings (settings o) (_pxPerMeter o)
                    (toNumber (getAttribute "cx" c)) (toNumber (getAttribute "cy" c))
                    WALK_RADII (setId "dt-walk-radii" (createElementNS "g")))
                 svg')).
Proof.
  intros Hsvg Hpos Hc.
  destruct (hideWalkRadius_fields o) as (Hp & Hs & Hsome).
  destruct Hsome as [svg' Hsvg']; [rewrite Hsvg; eauto | ].
  exists svg'. split; [exact Hsvg' | ].
  unfold showWalkRadius. rewrite Hsvg', Hp, Hs, Hc, Hpos. reflexivity.
Qed.

(** X19. The guard of showWalkRadius on the scale factor. A factor that is
    zero (its value before any render), negative or -Infinity adds nothing.
    A factor that is NaN or +Infinity is let through: with walkRadius10 alone
    on, a ring circle is added whose r attribute is NaN, respectively
    +Infinity. *)
Theorem showWalkRadius_scale_guard (g c svg : Element) (o : Overlay) :
  svgOverlay o = Some svg ->
  querySelector "circle" g = Some c ->
  (le (_pxPerMeter o) (Fin 0) = true ->
   showWalkRadius g o = Normal (hideWalkRadius o))
  /\ (_pxPerMeter o = NaN \/ _pxPerMeter o = PosInf ->
      walkRadius5 (settings o) = false -> walkRadius10 (settings o) = true ->
      walkRadius20 (settings o) = false ->
      exists (o' : Overlay) (circle : Element),
        showWalkRadius g o = Normal o'
        /\ ringElements o' = circle :: ringElements (hideWalkRadius o)
        /\ getAttribute "r" circle = Some (AttrNum (_pxPerMeter o))).
Proof.
  intros Hsvg Hc. split.
  - intros Hle. destruct (hideWalkRadius_fields o) as (Hp & Hs & Hsome).
    destruct Hsome as [svg' Hsvg']; [rewrite Hsvg; eauto | ].
    unfold showWalkRadius. now rewrite Hsvg', Hp, Hle.
  - intros Hbad H5 H10 H20.
    assert (Hle : le (_pxPerMeter o) (Fin 0) = false)
      by (destruct Hbad as [-> | ->]; reflexivity).
    destruct (showWalkRadius_unfold_le g c svg o Hsvg Hle Hc) as (svg' & Hsvg' & E).
    rewrite H5, H10, H20 in E. simpl in E.
    eexists. eexists. split; [exact E | ].
    unfold ringElements. rewrite Hsvg'.
    unfold appendRings, WALK_RADII, settingOf. cbn [key meters label color].
    simpl String.eqb. rewrite H5, H10, H20. destruct svg'. simpl.
    split; [reflexivity | ].
    destruct Hbad as [-> | ->]; simpl; [reflexivity | ].
    unfold inf_of_sign. decide_reals. reflexivity.
Qed.

Lemma showWalkRadius_scale_guard_witness :
  showWalkRadius stopMarker
    {| svgOverlay := svgOverlay hoverOverlay; _pxPerMeter := Fin 0;
       settings := settings hoverOverlay |}
  = Normal (hideWalkRadius
      {| svgOverlay := svgOverlay hoverOverlay; _pxPerMeter := Fin 0;
         settings := settings hoverOverlay |}).
Proof.
  refine (proj1 (showWalkRadius_scale_guard stopMarker _ _ _ _ _) _);
    try reflexivity.
  apply le_Fin. lra.
Defined.

End RendererMore.

(** ** Render Scheduler: what it keeps over any sequence of events *)

Module SchedulerTraces.
Import Scheduler.
Local Open Scope Z_scope.

#[local] Arguments Z.max : simpl never.
#[local] Arguments Z.add : simpl never.
#[local] Arguments Z.sub : simpl never.
#[local] Arguments Z.leb : simpl never.

(** The state when the script is loaded. *)
Definition initialState : State :=
  {| renderTimer := None; lastRender := 0; overlayVisible := false;
     pendingTimers := []; nextHandle := 1%positive; renders := [] |}.

(** What happens to the scheduler: scheduleRender is called, a timer it set
    runs its callback, the overlay is switched on or off. Each event comes
    with the time at which it happens. *)
Inductive action : Type :=
  | Request
  | TimerRuns (h : positive) (found : bool)
  | SetVisible (b : bool).

Definition act (a : action) (now : Z) (st : State) : option State :=
  match a with
  | Request => Some (scheduleRender now st)
  | TimerRuns h found => fire h now found st
  | SetVisible b =>
      Some {| renderTimer := renderTimer st; lastRender := lastRender st;
              overlayVisible := b; pendingTimers := pendingTimers st;
              nextHandle := nextHandle st; renders := renders st |}
  end.

(** Run the events in order, from time [t]; time never goes back. *)
Fixpoint exec (evs : list (Z * action)) (t : Z) (st : State) : option State :=
  match evs with
  | [] => Some st
  | (now, a) :: rest =>
      if (t <=? now)
      then match act a now st with
           | Some st' => exec rest now st'
           | None => None
           end
      else None
  end.

(** Render times, latest first, each at least 50 ms after the one before. *)
Fixpoint spaced (l : list Z) : Prop :=
  match l with
  | [] => True
  | r1 :: tl =>
      match tl with
      | [] => True
      | r2 :: _ => r2 + 50 <= r1
      end /\ spaced tl
  end.

Record inv (t : Z) (st : State) : Prop := Inv
  { inv_last : lastRender st <= t;
    inv_renders : Forall (fun r => r <= lastRender st) (renders st);
    inv_spaced : spaced (renders st);
    inv_timer :
      match renderTimer st with
      | None => pendingTimers st = []
      | Some h =>
          exists tm : Timer,
            pendingTimers st = [tm] /\ handle tm = h
            /\ lastRender st + 50 <= setAt tm + delay tm
      end }.

Lemma inv_initial (t : Z) : 0 <= t -> inv t initialState.
Proof. intros Ht. split; simpl; auto. Qed.

Lemma inv_mono (t t' : Z) (st : State) : t <= t' -> inv t st -> inv t' st.
Proof. intros Hle [H1 H2 H3 H4]. split; auto. lia. Qed.

Lemma inv_act (a : action) (now : Z) (st st' : State) :
  inv now st -> act a now st = Some st' -> inv now st'.
Proof.
  intros [H1 H2 H3 H4]. destruct a as [ | h found | b]; simpl.
  - intros [= <-]. unfold scheduleRender.
    destruct (renderTimer st) as [h | ] eqn:E.
    + split; auto. now rewrite E.
    + split; simpl; auto. eexists. split; [now rewrite H4 | ]. simpl.
      split; [reflexivity | lia].
  - unfold fire. destruct (renderTimer st) as [h0 | ] eqn:E.
    + destruct H4 as (tm & Hp & Hh & Hdue). rewrite Hp. simpl.
      destruct (Pos.eqb_spec (handle tm) h) as [Heq | Hne]; [ | discriminate].
      destruct (Z.leb_spec (setAt tm + delay tm) now) as [Hle | ]; [ | discriminate].
      intros [= <-]. split; simpl.
      * lia.
      * destruct (overlayVisible st && found).
        -- constructor; [lia | ].
           eapply Forall_impl; [exact H2 | ]. simpl. intros; lia.
        -- eapply Forall_impl; [exact H2 | ]. simpl. intros; lia.
      * destruct (overlayVisible st && found); [ | exact H3].
        simpl. split; [ | exact H3].
        destruct (renders st) as [ | r rs]; [exact I | ].
        inversion H2; subst. lia.
      * rewrite Hp. simpl.
        destruct (Pos.eqb_spec (handle tm) h); [reflexivity | contradiction].
    + rewrite H4. simpl. discriminate.
  - intros [= <-]. split; auto.
Qed.

Lemma inv_exec (evs : list (Z * action)) (t : Z) (st st' : State) :
  inv t st -> exec evs t st = Some st' -> exists t' : Z, t <= t' /\ inv t' st'.
Proof.
  revert t st. induction evs as [ | [now a] evs IH]; intros t st Hi; simpl.
  - intros [= <-]. exists t. split; [lia | exact Hi].
  - destruct (Z.leb_spec t now) as [Hle | ]; [ | discriminate].
    destruct (act a now st) as [st1 | ] eqn:E; [ | discriminate].
    intros Hrun.
    destruct (IH now st1 (inv_act a now st st1 (inv_mono t now st Hle Hi) E) Hrun)
      as (t' & Ht' & Hi').
    exists t'. split; [lia | exact Hi'].
Qed.

(** X20. Whatever the order of calls of scheduleRender, timer callbacks and
    switches of the overlay, as long as time does not go back: at most one
    render timer is pending, there is one exactly when renderTimer is set, and
    any two calls of render made by the scheduler are at least 50 ms apart. *)
Theorem scheduler_spaces_renders (evs : list (Z * action)) (t : Z) (st : State) :
  0 <= t ->
  exec evs t initialState = Some st ->
  (length (pendingTimers st) <= 1)%nat
  /\ (renderTimer st = None <-> pendingTimers st = [])
  /\ spaced (renders st).
Proof.
  intros Ht Hrun.
  destruct (inv_exec evs t initialState st (inv_initial t Ht) Hrun)
    as (t' & _ & [H1 H2 H3 H4]).
  split; [ | split; [ | exact H3]].
  - destruct (renderTimer st).
    + destruct H4 as (tm & -> & _). simpl. lia.
    + rewrite H4. simpl. lia.
  - destruct (renderTimer st).
    + destruct H4 as (tm & -> & _). split; discriminate.
    + split; auto.
Qed.

(** Two requests in a burst, the render they cause, a request 10 ms later and
    its render. *)
Definition burst : list (Z * action) :=
  [(1000, SetVisible true); (1000, Request); (1001, Request);
   (1002, TimerRuns 1 true); (1012, Request); (1052, TimerRuns 2 true)].

Lemma scheduler_spaces_renders_witness :
  exists st : State,
    exec burst 1000 initialState = Some st /\ spaced (renders st).
Proof.
  eexists. split; [reflexivity | ].
  exact (proj2 (proj2 (scheduler_spaces_renders burst 1000 _ ltac:(lia) eq_refl))).
Defined.

End SchedulerTraces.

(** ** Settings of the content script *)

Module ContentSpec.
Import JSNumber Projector Bridge Renderer Content.

(** overlayVisible and settings.enabled agree. *)
Definition agree (c : State) : Prop :=
  Scheduler.overlayVisible (sched c) = enabled (settings (overlay c)).

Lemma scheduleRender_visible (now : Z) (s : Scheduler.State) :
  Scheduler.overlayVisible (Scheduler.scheduleRender now s)
  = Scheduler.overlayVisible s.
Proof. unfold Scheduler.scheduleRender. now destruct (Scheduler.renderTimer s). Qed.

Lemma ensureOverlay_fields (attached : bool) (c : State) :
  sched (ensureOverlay attached c) = sched c
  /\ settings (overlay (ensureOverlay attached c)) = settings (overlay c)
  /\ world (ensureOverlay attached c) = world c.
Proof.
  unfold ensureOverlay. destruct (container (adapter (world c))); [ | auto].
  destruct (svgOverlay (overlay c)); [destruct attached | ]; auto.
Qed.

Lemma hideWalkRadius_settings (o : Overlay) :
  settings (hideWalkRadius o) = settings o.
Proof.
  unfold hideWalkRadius. destruct (svgOverlay o) as [svg | ]; [ | reflexivity].
  now destruct (removeById _ svg).
Qed.

Lemma agree_loaded (stored : option Patch.t) (t : Z) :
  agree (onSettingsLoaded stored t initialState).
Proof.
  unfold agree, onSettingsLoaded. destruct stored as [p | ]; simpl; [ | reflexivity].
  destruct (pick (Patch.enabled p) false) eqn:E; simpl; now rewrite ?E.
Qed.

Lemma agree_change (ch : Change) (c : State) : agree c -> agree (applyChange ch c).
Proof.
  unfold agree. intros H. destruct ch as [area change attached now].
  unfold applyChange, onChanged. cbn [Content.area Content.change Content.attached
                                      Content.now].
  destruct (negb (String.eqb area "local")); [exact H | ].
  destruct change as [[p | ] | ]; try exact H. simpl.
  destruct (enabled (settings (overlay c))) eqn:E0;
    destruct (pick (Patch.enabled p) _) eqn:E; simpl.
  - rewrite scheduleRender_visible, E0, E. exact H.
  - rewrite hideWalkRadius_settings.
    destruct (svgOverlay (overlay c)); simpl; rewrite E0, E; reflexivity.
  - destruct (found (adapter (world c))); [ | simpl; rewrite E0, E; reflexivity].
    match goal with
    | |- context [ensureOverlay attached ?d] =>
        destruct (ensureOverlay_fields attached d) as (Hs & Hst & Hw)
    end.
    rewrite Hw. simpl.
    destruct (instanceAvailable (adapter (world c))); simpl;
      rewrite ?scheduleRender_visible, Hs, Hst; simpl; rewrite E0, E; reflexivity.
  - rewrite E0, E. exact H.
Qed.

(** X21. The overlay is visible exactly when it is enabled: once the stored
    settings have been read at start, and after any sequence of changes of
    the storage, whatever they hold, overlayVisible equals
    settings.enabled. *)
Theorem overlayVisible_follows_enabled
    (stored : option Patch.t) (t : Z) (chs : list Change) :
  Scheduler.overlayVisible
    (sched (fold_left (fun c ch => applyChange ch c) chs
              (onSettingsLoaded stored t initialState)))
  = enabled (settings (overlay
      (fold_left (fun c ch => applyChange ch c) chs
         (onSettingsLoaded stored t initialState)))).
Proof.
  assert (H : forall c, agree c -> agree (fold_left (fun c ch => applyChange ch c) chs c)).
  { induction chs as [ | ch chs IH]; intros c Hc; simpl; [exact Hc | ].
    apply IH. now apply agree_change. }
  apply (H _ (agree_loaded stored t)).
Qed.

(** The patch that only switches the overlay off. *)
Definition switchOff : Patch.t :=
  {| Patch.enabled := Some false;
     Patch.luasLines := None; Patch.luasStops := None;
     Patch.dartLines := None; Patch.dartStations := None;
     Patch.irishRailLines := None; Patch.irishRailStations := None;
     Patch.opacity := None;
     Patch.walkRadius5 := None; Patch.walkRadius10 := None;
     Patch.walkRadius20 := None |}.

(** X22. Switching the overlay off. When the overlay is enabled and visible
    and a change of the local storage sets enabled to false, the overlay is
    emptied, the tooltip and the rings are gone, and a render timer that was
    pending is not cancelled but draws nothing: when it runs, render is not
    called. *)
Theorem disabling_clears_the_overlay
    (p : Patch.t) (attached : bool) (now : Z) (c : State) :
  enabled (settings (overlay c)) = true ->
  Patch.enabled p = Some false ->
  let c' := onChanged "local" (Some (Some p)) attached now c in
  Scheduler.overlayVisible (sched c') = false
  /\ tooltip c' = None
  /\ (forall svg : Element, svgOverlay (overlay c') = Some svg -> childNodes svg = [])
  /\ ringElements (overlay c') = []
  /\ Scheduler.pendingTimers (sched c') = Scheduler.pendingTimers (sched c)
  /\ forall (h : positive) (t : Z) (found : bool) (s' : Scheduler.State),
       Scheduler.fire h t found (sched c') = Some s' ->
       Scheduler.renders s' = Scheduler.renders (sched c).
Proof.
  intros He Hp c'. unfold c', onChanged. simpl.
  rewrite Hp, He. simpl.
  assert (Hclear : forall e, removeById "dt-walk-radii" (clearChildren e) = None).
  { now intros [t i a tx cs]. }
  split; [ | split; [ | split; [ | split; [ | split]]]].
  - now destruct (svgOverlay (overlay c)).
  - now destruct (svgOverlay (overlay c)).
  - intros svg. destruct (svgOverlay (overlay c)) as [e | ] eqn:E; simpl.
    + unfold hideWalkRadius. simpl. rewrite Hclear. simpl.
      intros [= <-]. now destruct e.
    + unfold hideWalkRadius. simpl. rewrite E. discriminate.
  - destruct (svgOverlay (overlay c)) as [e | ] eqn:E; simpl.
    + unfold hideWalkRadius. simpl. rewrite Hclear.
      unfold ringElements. simpl. now destruct e.
    + unfold hideWalkRadius, ringElements. simpl. now rewrite E.
  - now destruct (svgOverlay (overlay c)).
  - intros h t found s'.
    assert (Hs : sched (hideTip
              match svgOverlay (overlay c) with
              | Some svg =>
                  {| world := world (withVisible false
                                (withSettings (assign (settings (overlay c)) p) c));
                     overlay := with_svg
                       (overlay (withVisible false
                          (withSettings (assign (settings (overlay c)) p) c)))
                       (clearChildren svg);
                     sched := sched (withVisible false
                                (withSettings (assign (settings (overlay c)) p) c));
                     tooltip := tooltip (withVisible false
                                (withSettings (assign (settings (overlay c)) p) c)) |}
              | None => withVisible false
                          (withSettings (assign (settings (overlay c)) p) c)
              end)
            = sched (withVisible false c)).
    { now destruct (svgOverlay (overlay c)). }
    simpl in Hs. simpl. rewrite Hs.
    unfold Scheduler.fire. simpl.
    destruct (find _ _) as [tm | ]; [ | discriminate].
    destruct (_ <=? _)%Z; [ | discriminate].
    now intros [= <-].
Qed.

Lemma disabling_clears_the_overlay_witness :
  tooltip (onChanged "local" (Some (Some switchOff)) true 1000
             (withSettings (assign defaultSettings
                {| Patch.enabled := Some true;
                   Patch.luasLines := None; Patch.luasStops := None;
                   Patch.dartLines := None; Patch.dartStations := None;
                   Patch.irishRailLines := None; Patch.irishRailStations := None;
                   Patch.opacity := None;
                   Patch.walkRadius5 := None; Patch.walkRadius10 := None;
                   Patch.walkRadius20 := None |}) initialState))
  = None.
Proof.
  refine (proj1 (proj2 (disabling_clears_the_overlay switchOff true 1000 _ _ _)));
    reflexivity.
Defined.

End ContentSpec.

(** ** Transit data *)

Module DataProviderSpec.
Import Gather DataProvider.

Lemma exec_cons (ev : event) (evs : list event) (st : State) :
  exec (ev :: evs) st = exec evs (step ev st).
Proof. reflexivity. Qed.

Lemma filter_incl {A : Type} (f : A -> bool) (l : list A) :
  incl (List.filter f l) l.
Proof. intros x Hx. now apply filter_In in Hx. Qed.

Lemma step_cached (ev : event) (st : State) :
  is_Some (_cache st) ->
  is_Some (_cache (step ev st))
  /\ started (step ev st) = started st
  /\ incl (awaiting (step ev st)) (awaiting st).
Proof.
  intros [d Hd]. destruct ev as [ | id [r | ]]; simpl.
  - unfold getAll. rewrite Hd. simpl. repeat split; eauto.
    now intros x.
  - unfold resume. destruct (existsb _ _); simpl.
    + repeat split; eauto. apply filter_incl.
    + rewrite Hd. repeat split; eauto. now intros x.
  - unfold resume. destruct (existsb _ _); simpl.
    + rewrite Hd. repeat split; eauto. apply filter_incl.
    + rewrite Hd. repeat split; eauto. now intros x.
Qed.

Lemma step_settled (ev : event) (st : State) (d : Data.t) :
  _cache st = Some d -> awaiting st = [] ->
  _cache (step ev st) = Some d
  /\ awaiting (step ev st) = []
  /\ (returned (step ev st) = returned st
      \/ exists id : N, returned (step ev st) = (id, Some d) :: returned st).
Proof.
  intros Hd Ha. destruct ev as [ | id r]; simpl.
  - unfold getAll. rewrite Hd. simpl. rewrite Ha. repeat split; eauto.
  - unfold resume. rewrite Ha. simpl. rewrite Hd, Ha. repeat split; eauto.
Qed.

Lemma exec_settled (evs : list event) (st : State) (d : Data.t) :
  _cache st = Some d -> awaiting st = [] ->
  _cache (exec evs st) = Some d
  /\ exists new : list (N * option Data.t),
       returned (exec evs st) = new ++ returned st
       /\ Forall (fun r => snd r = Some d) new.
Proof.
  revert st. induction evs as [ | ev evs IH]; intros st Hd Ha.
  - split; [exact Hd | ]. exists []. split; [reflexivity | constructor].
  - rewrite exec_cons.
    destruct (step_settled ev st d Hd Ha) as (Hd' & Ha' & Hr).
    destruct (IH (step ev st) Hd' Ha') as (Hc & new & Hn & Hall).
    split; [exact Hc | ].
    destruct Hr as [Hr | [id Hr]]; rewrite Hr in Hn.
    + now exists new.
    + exists (new ++ [(id, Some d)]). split.
      * now rewrite <- app_assoc.
      * apply Forall_app. split; [exact Hall | now repeat constructor].
Qed.

(** X23. The cache of getAll, with calls that may overlap. A call that finds
    the cache set returns it and starts no fetch; a call that finds none
    starts one round of fetches and waits. A call whose load failed returns
    null and leaves the cache as it is; one whose load succeeded puts its data
    in the cache and returns it. From the moment the cache is set it is never
    empty again and no fetch is started, and the only calls that can still
    replace it are those that were waiting at that moment; when none is, every
    later call returns the same data. *)
Theorem getAll_cache_is_kept (st : State) :
  (forall d : Data.t, _cache st = Some d ->
     _cache (getAll st) = Some d
     /\ started (getAll st) = started st
     /\ awaiting (getAll st) = awaiting st
     /\ returned (getAll st) = (nextCall st, Some d) :: returned st)
  /\ (_cache st = None ->
      _cache (getAll st) = None
      /\ started (getAll st) = S (started st)
      /\ awaiting (getAll st) = nextCall st :: awaiting st
      /\ returned (getAll st) = returned st)
  /\ (forall (id : N) (results : option Data.t), In id (awaiting st) ->
      ~ In id (awaiting (resume id results st))
      /\ returned (resume id results st) = (id, results) :: returned st
      /\ _cache (resume id results st)
         = match results with Some d => Some d | None => _cache st end)
  /\ (forall (id : N) (results : option Data.t), ~ In id (awaiting st) ->
      resume id results st = st)
  /\ (forall evs : list event, is_Some (_cache st) ->
      is_Some (_cache (exec evs st))
      /\ started (exec evs st) = started st
      /\ incl (awaiting (exec evs st)) (awaiting st))
  /\ (forall (evs : list event) (d : Data.t),
      _cache st = Some d -> awaiting st = [] ->
      _cache (exec evs st) = Some d
      /\ exists new : list (N * option Data.t),
           returned (exec evs st) = new ++ returned st
           /\ Forall (fun r => snd r = Some d) new).
Proof.
  split; [ | split; [ | split; [ | split; [ | split]]]].
  - intros d Hd. unfold getAll. rewrite Hd. simpl. auto.
  - intros Hn. unfold getAll. now rewrite Hn.
  - intros id results Hin.
    assert (E : existsb (N.eqb id) (awaiting st) = true).
    { apply existsb_exists. exists id. split; [exact Hin | apply N.eqb_refl]. }
    unfold resume. rewrite E.
    assert (Hout : ~ In id (List.filter (fun j => negb (N.eqb j id)) (awaiting st))).
    { intros Hf. apply filter_In in Hf. destruct Hf as [_ Hf].
      now rewrite N.eqb_refl in Hf. }
    destruct results as [d | ]; simpl; repeat split; auto.
  - intros id results Hout. unfold resume.
    destruct (existsb (N.eqb id) (awaiting st)) eqn:E; [ | reflexivity].
    apply existsb_exists in E. destruct E as (j & Hj & Ej).
    apply N.eqb_eq in Ej. now subst.
  - intros evs. revert st. induction evs as [ | ev evs IH]; intros st Hc.
    + repeat split; auto. now intros x.
    + rewrite exec_cons.
      destruct (step_cached ev st Hc) as (Hc' & Hs & Hi).
      destruct (IH (step ev st) Hc') as (Hc'' & Hs' & Hi').
      repeat split; auto; [congruence | ].
      intros x Hx. auto.
  - intros evs d. apply exec_settled.
Qed.

Definition emptyData : Data.t :=
  {| Data.luasLines := []; Data.luasStops := [];
     Data.railLines := []; Data.railStations := [] |}.

Definition oneStop : Data.t :=
  {| Data.luasLines := [];
     Data.luasStops :=
       [{| pointCoordinates := (JSNumber.Fin 1, JSNumber.Fin 2);
           pointProperties := {| name := Some "Abbey Street"%string;
                                 line := None |} |}];
     Data.railLines := []; Data.railStations := [] |}.

(** Two calls made before either load has finished both fetch, and the later
    load replaces the cache of the earlier one. *)
Definition overlapping : State :=
  exec [Call; Call; Settle 0 (Some emptyData)] initial.

(** One call, whose load succeeded. *)
Definition loaded : State := exec [Call; Settle 0 (Some oneStop)] initial.

Lemma getAll_cache_is_kept_witness :
  (started overlapping = 2 /\ awaiting overlapping = [1%N]
   /\ _cache overlapping = Some emptyData)
  /\ returned (getAll overlapping) = [(2%N, Some emptyData); (0%N, Some emptyData)]
  /\ _cache (resume 1 (Some oneStop) overlapping) = Some oneStop
  /\ _cache (resume 1 None overlapping) = Some emptyData
  /\ returned (resume 1 None overlapping) = [(1%N, None); (0%N, Some emptyData)]
  /\ resume 0 (Some oneStop) overlapping = overlapping
  /\ started (exec [Call; Settle 1 (Some oneStop); Call] overlapping) = 2
  /\ _cache (exec [Call; Settle 1 None; Settle 0 (Some emptyData); Call] loaded)
     = Some oneStop
  /\ started (getAll initial) = 1.
Proof.
  pose proof (getAll_cache_is_kept overlapping)
    as (Hhit & _ & Hres & Hstale & Hkeep & _).
  split; [repeat split | ].
  split; [exact (proj2 (proj2 (proj2 (Hhit emptyData eq_refl)))) | ].
  split; [exact (proj2 (proj2 (Hres 1%N (Some oneStop) (or_introl eq_refl)))) | ].
  split; [exact (proj2 (proj2 (Hres 1%N None (or_introl eq_refl)))) | ].
  split; [exact (proj1 (proj2 (Hres 1%N None (or_introl eq_refl)))) | ].
  split.
  { apply (Hstale 0%N (Some oneStop)). intros [E | []]. discriminate E. }
  split.
  { exact (proj1 (proj2 (Hkeep [Call; Settle 1%N (Some oneStop); Call]
                           (ex_intro _ emptyData eq_refl)))). }
  split.
  { exact (proj1 (proj2 (proj2 (proj2 (proj2 (proj2
             (getAll_cache_is_kept loaded)))))
             [Call; Settle 1%N None; Settle 0%N (Some emptyData); Call]
             oneStop eq_refl eq_refl)). }
  exact (proj1 (proj2 (proj1 (proj2 (getAll_cache_is_kept initial)) eq_refl))).
Defined.

End DataProviderSpec.
